(** * Maze_Generator: the carving generator and the A-star solver of app.py

    A shallow embedding of [MazeGenerator] and [MazeSolver]
    (random-maze-generator/src/app.py) and the properties of them that the
    specification states.

    Python integers are [Z]; tuples are pairs; dictionaries are [gmap];
    numpy arrays are records of a shape and the items written so far;
    exceptions, attribute state and recursion depth are carried by a small
    state-and-error monad. *)

From Stdlib Require Import ZArith Lia.
From stdpp Require Import gmap strings list relations.

Local Open Scope Z_scope.

(** ** Outcomes: a value, a Python exception, or an exhausted step budget *)

Definition exn := string.

Definition ValueError : exn := "ValueError"%string.
Definition IndexError : exn := "IndexError"%string.
Definition KeyError : exn := "KeyError"%string.

Inductive outcome (A : Type) : Type :=
| Ok (a : A)
| Raise (e : exn)
| OutOfFuel.
Arguments Ok {A} a.
Arguments Raise {A} e.
Arguments OutOfFuel {A}.

(** ** The monad of a method body: the attributes it can read and write
    are the state; an exception leaves the state as it was when raised. *)

Definition M (St A : Type) : Type := St → outcome A * St.

Definition ret {St A} (a : A) : M St A := λ s, (Ok a, s).

Definition bind {St A B} (k : A → M St B) (m : M St A) : M St B :=
  λ s, match m s with
       | (Ok a, s') => k a s'
       | (Raise e, s') => (Raise e, s')
       | (OutOfFuel, s') => (OutOfFuel, s')
       end.

Global Instance M_ret St : MRet (M St) := @ret St.
Global Instance M_bind St : MBind (M St) := @bind St.

Definition lift {St A} (o : outcome A) : M St A := λ s, (o, s).
Definition gets {St A} (f : St → A) : M St A := λ s, (Ok (f s), s).
Definition modify {St} (f : St → St) : M St unit := λ s, (Ok tt, f s).
Definition out_of_fuel {St A} : M St A := λ s, (OutOfFuel, s).

(** [for x in l: body x] *)
Definition for_each {St A} (body : A → M St unit) : list A → M St unit :=
  fix go l :=
    match l with
    | [] => mret tt
    | x :: l' => body x ;; go l'
    end.

(** [for x in l: acc = body x acc], the loop's local variables being [acc] *)
Definition for_fold {St A L} (body : A → L → M St L) : list A → L → M St L :=
  fix go l acc :=
    match l with
    | [] => mret acc
    | x :: l' => acc' ← body x acc; go l' acc'
    end.

(** ** numpy arrays of two dimensions

    [np.zeros((h, w))] refuses a negative dimension with [ValueError]; an
    index [i] along an axis of size [n] is accepted when [-n <= i < n], a
    negative one counting from the end, and raises [IndexError] otherwise. *)

Definition cell : Type := Z * Z.

Record ndarray (A : Type) : Type := mk_ndarray {
  nd_shape : Z * Z;
  nd_zero : A;
  nd_items : gmap cell A
}.
Arguments mk_ndarray {A} _ _ _.
Arguments nd_shape {A} _.
Arguments nd_zero {A} _.
Arguments nd_items {A} _.

Definition np_zeros {A} (shape : Z * Z) (zero : A) : outcome (ndarray A) :=
  if (shape.1 <? 0) || (shape.2 <? 0) then Raise ValueError
  else Ok (mk_ndarray shape zero ∅).

Definition nd_axis (n i : Z) : option Z :=
  if (0 <=? i) && (i <? n) then Some i
  else if (- n <=? i) && (i <? 0) then Some (i + n)
  else None.

Definition nd_index {A} (a : ndarray A) (ix : cell) : option cell :=
  match nd_axis (nd_shape a).1 ix.1, nd_axis (nd_shape a).2 ix.2 with
  | Some i, Some j => Some (i, j)
  | _, _ => None
  end.

Definition nd_getitem {A} (a : ndarray A) (ix : cell) : outcome A :=
  match nd_index a ix with
  | Some k => Ok (default (nd_zero a) (nd_items a !! k))
  | None => Raise IndexError
  end.

Definition nd_setitem {A} (a : ndarray A) (ix : cell) (v : A)
  : outcome (ndarray A) :=
  match nd_index a ix with
  | Some k => Ok (mk_ndarray (nd_shape a) (nd_zero a) (<[k := v]> (nd_items a)))
  | None => Raise IndexError
  end.

(** The array written as nested lists, row by row. *)
Definition nd_of_rows (rows : list (list Z)) : ndarray Z :=
  mk_ndarray
    (Z.of_nat (length rows), Z.of_nat (length (default [] (head rows)))) 0
    (list_to_map
       (mjoin (imap (λ i row, imap (λ j v, ((Z.of_nat i, Z.of_nat j), v)) row)
                    rows))).

Definition Wall : Z := 0.
Definition Path : Z := 1.

(** ** MazeGenerator *)

Module MazeGenerator.

Record t : Type := mk {
  width : Z;
  height : Z;
  maze : ndarray Z;
  visited : ndarray bool;
  start : cell;
  end_ : cell
}.

(** [__init__(self, width, height)] *)
Definition __init__ (width height : Z) : outcome t :=
  match np_zeros (height, width) 0 with
  | Ok m =>
      match np_zeros (height, width) false with
      | Ok v => Ok (mk width height m v (0, 0) (height - 1, width - 1))
      | Raise e => Raise e
      | OutOfFuel => OutOfFuel
      end
  | Raise e => Raise e
  | OutOfFuel => OutOfFuel
  end.

Section Generator.

(** Python's [random] module: its process-wide state, [random.seed] and
    [random.shuffle] are taken as they come. *)
Variable rng : Type.
Variable seed : Z → rng.
Variable shuffle : list cell → rng → list cell * rng.

(** What a method of the generator can touch: the module-level random state
    and the attributes of [self]. *)
Record world : Type := mk_world {
  random : rng;
  self : t
}.

Definition set_maze (m : ndarray Z) : M world unit :=
  modify (λ s, mk_world (random s)
    (mk (width (self s)) (height (self s)) m (visited (self s))
        (start (self s)) (end_ (self s)))).

Definition set_visited (v : ndarray bool) : M world unit :=
  modify (λ s, mk_world (random s)
    (mk (width (self s)) (height (self s)) (maze (self s)) v
        (start (self s)) (end_ (self s)))).

Definition random_seed (n : Z) : M world unit :=
  modify (λ s, mk_world (seed n) (self s)).

Definition random_shuffle (l : list cell) : M world (list cell) :=
  λ s, let (l', r) := shuffle l (random s) in (Ok l', mk_world r (self s)).

(** [self.maze[ix] = v] and [self.visited[ix] = v] *)
Definition maze_assign (ix : cell) (v : Z) : M world unit :=
  m ← gets (λ s, maze (self s));
  m' ← lift (nd_setitem m ix v);
  set_maze m'.

Definition visited_assign (ix : cell) (v : bool) : M world unit :=
  a ← gets (λ s, visited (self s));
  a' ← lift (nd_setitem a ix v);
  set_visited a'.

(** The guard of the loop body, evaluated left to right with [and]
    cutting short. *)
Definition may_carve (nx ny : Z) : M world bool :=
  w ← gets (λ s, width (self s));
  if (0 <=? nx) && (nx <? w) then
    h ← gets (λ s, height (self s));
    if (0 <=? ny) && (ny <? h) then
      a ← gets (λ s, visited (self s));
      b ← lift (nd_getitem a (ny, nx));
      mret (negb b)
    else mret false
  else mret false.

(** [_carve_passages_from(self, cx, cy)]; [depth] bounds the nesting of
    the recursive calls. *)
Fixpoint _carve_passages_from (depth : nat) (cx cy : Z) : M world unit :=
  match depth with
  | O => out_of_fuel
  | S depth' =>
      directions ← random_shuffle [(0, 2); (2, 0); (0, -2); (-2, 0)];
      for_each (λ '(dx, dy),
        let nx := cx + dx in
        let ny := cy + dy in
        ok ← may_carve nx ny;
        if ok : bool then
          visited_assign (ny, nx) true;;
          maze_assign (cy + dy `div` 2, cx + dx `div` 2) 1;;
          maze_assign (ny, nx) 1;;
          _carve_passages_from depth' nx ny
        else mret tt) directions
  end.

(** [generate_maze(self)] *)
Definition generate_maze (depth : nat) : M world (ndarray Z) :=
  h ← gets (λ s, height (self s));
  w ← gets (λ s, width (self s));
  m ← lift (np_zeros (h, w) 0);
  set_maze m;;
  v ← lift (np_zeros (h, w) false);
  set_visited v;;
  random_seed 42;;
  visited_assign (0, 0) true;;
  _carve_passages_from depth 0 0;;
  st ← gets (λ s, start (self s));
  maze_assign (st.1, st.2) 1;;
  en ← gets (λ s, end_ (self s));
  maze_assign (en.1, en.2) 1;;
  gets (λ s, maze (self s)).

(** [MazeGenerator(width, height).generate_maze()], as [main] calls it. *)
Definition generate (depth : nat) (width height : Z) (r : rng)
  : outcome (ndarray Z) * option world :=
  match __init__ width height with
  | Ok g => let (o, s) := generate_maze depth (mk_world r g) in (o, Some s)
  | Raise e => (Raise e, None)
  | OutOfFuel => (OutOfFuel, None)
  end.

End Generator.

Arguments mk_world {rng} _ _.
Arguments random {rng} _.
Arguments self {rng} _.
Arguments set_maze {rng} _ _.
Arguments set_visited {rng} _ _.
Arguments random_seed {rng} _ _ _.
Arguments random_shuffle {rng} _ _ _.
Arguments maze_assign {rng} _ _ _.
Arguments visited_assign {rng} _ _ _.
Arguments may_carve {rng} _ _ _.
Arguments _carve_passages_from {rng} _ _ _ _ _.
Arguments generate_maze {rng} _ _ _ _.
Arguments generate {rng} _ _ _ _ _ _.

End MazeGenerator.

(** A small deterministic stand-in for Python's generator, used where a
    statement is evaluated on a concrete run: the state is a counter and a
    shuffle rotates the list by it. *)
Module ToyRandom.
Definition rng : Type := nat.
Definition seed (n : Z) : rng := Z.to_nat n.
Definition shuffle (l : list cell) (r : rng) : list cell * rng :=
  (rotate r l, S r).
End ToyRandom.

(** ** Reasoning about method bodies *)

Lemma bind_run {St A B} (m : M St A) (k : A → M St B) (s : St) :
  (m ≫= k) s =
  match m s with
  | (Ok a, s') => k a s'
  | (Raise e, s') => (Raise e, s')
  | (OutOfFuel, s') => (OutOfFuel, s')
  end.
Proof. reflexivity. Qed.

Lemma bind_Ok_inv {St A B} (m : M St A) (k : A → M St B) s b s2 :
  (m ≫= k) s = (Ok b, s2) →
  ∃ a s1, m s = (Ok a, s1) ∧ k a s1 = (Ok b, s2).
Proof.
  rewrite bind_run. destruct (m s) as [[a| |] s1]; [eauto | done | done].
Qed.

(** A method body [m] leaves the observation [f] of the state alone,
    whatever its outcome. *)
Definition preserves {St X A} (f : St → X) (m : M St A) : Prop :=
  ∀ s, f (m s).2 = f s.

Section Preserves.
Context {St X : Type} (f : St → X).

Lemma preserves_ret {A} (a : A) : preserves f (mret a : M St A).
Proof. by intros s. Qed.

Lemma preserves_lift {A} (o : outcome A) : preserves f (lift o : M St A).
Proof. by intros s. Qed.

Lemma preserves_gets {A} (g : St → A) : preserves f (gets g).
Proof. by intros s. Qed.

Lemma preserves_out_of_fuel {A} : preserves f (out_of_fuel : M St A).
Proof. by intros s. Qed.

Lemma preserves_bind {A B} (m : M St A) (k : A → M St B) :
  preserves f m → (∀ a, preserves f (k a)) → preserves f (m ≫= k).
Proof.
  intros Hm Hk s. rewrite bind_run. specialize (Hm s).
  destruct (m s) as [[a| |] s1]; simpl in *; [|done..].
  by rewrite Hk.
Qed.

Lemma preserves_for_each {A} (body : A → M St unit) l :
  (∀ x, preserves f (body x)) → preserves f (for_each body l).
Proof.
  intros Hb. induction l as [|x l IH]; [apply preserves_ret|].
  apply preserves_bind; auto.
Qed.

Lemma preserves_for_fold {A L} (body : A → L → M St L) l acc :
  (∀ x a, preserves f (body x a)) → preserves f (for_fold body l acc).
Proof.
  intros Hb. revert acc. induction l as [|x l IH]; intros acc;
    [apply preserves_ret|].
  apply preserves_bind; auto.
Qed.

End Preserves.

(** ** The cells of an [h] by [w] grid, row by row *)

Definition all_cells (h w : Z) : list cell :=
  i ← seqZ 0 h; (λ j, (i, j)) <$> seqZ 0 w.

Lemma elem_of_all_cells h w i j :
  (i, j) ∈ all_cells h w ↔ 0 ≤ i < h ∧ 0 ≤ j < w.
Proof.
  unfold all_cells. rewrite list_elem_of_bind. split.
  - intros (i' & Hj & Hi). apply list_elem_of_fmap in Hj as (j' & [= -> ->] & Hj).
    apply elem_of_seqZ in Hi, Hj. lia.
  - intros [Hi Hj]. exists i. split.
    + apply list_elem_of_fmap. exists j. split; [done|]. apply elem_of_seqZ. lia.
    + apply elem_of_seqZ. lia.
Qed.

Lemma length_all_cells h w :
  length (all_cells h w) = (Z.to_nat h * Z.to_nat w)%nat.
Proof.
  unfold all_cells.
  assert (∀ l : list Z,
    length (i ← l; (λ j, (i, j)) <$> seqZ 0 w) = (length l * Z.to_nat w)%nat)
    as Hl.
  { induction l as [|i l IH]; [done|].
    rewrite bind_cons, length_app, length_fmap, length_seqZ, IH. simpl. lia. }
  by rewrite Hl, length_seqZ.
Qed.

Lemma filter_length_mono {A} (P Q : A → bool) (l : list A) :
  (∀ x, x ∈ l → P x = true → Q x = true) →
  (length (List.filter P l) ≤ length (List.filter Q l))%nat.
Proof.
  induction l as [|x l IH]; intros H; [done|]. simpl.
  assert (length (List.filter P l) ≤ length (List.filter Q l))%nat as IH'.
  { apply IH. intros y Hy. apply H. by right. }
  destruct (P x) eqn:HP.
  - rewrite (H x); [simpl; lia | by left | done].
  - destruct (Q x); simpl; lia.
Qed.

Lemma filter_length_lt {A} (P Q : A → bool) (l : list A) (x0 : A) :
  (∀ x, x ∈ l → P x = true → Q x = true) →
  x0 ∈ l → P x0 = false → Q x0 = true →
  (length (List.filter P l) < length (List.filter Q l))%nat.
Proof.
  induction l as [|x l IH]; intros H Hin HP HQ; [by apply elem_of_nil in Hin|].
  simpl.
  assert (length (List.filter P l) ≤ length (List.filter Q l))%nat as Hle.
  { apply filter_length_mono. intros y Hy. apply H. by right. }
  apply elem_of_cons in Hin as [<-|Hin].
  - rewrite HP, HQ. simpl. lia.
  - assert (length (List.filter P l) < length (List.filter Q l))%nat.
    { apply IH; [|done..]. intros y Hy. apply H. by right. }
    destruct (P x) eqn:HPx.
    + rewrite (H x); [simpl; lia | by left | done].
    + destruct (Q x); simpl; lia.
Qed.

(** ** The generator: what a run leaves unchanged *)

Section GeneratorProofs.
Import MazeGenerator.

Variable rng : Type.
Variable seed : Z → rng.
Variable shuffle : list cell → rng → list cell * rng.

Abbreviation world := (world rng).
Abbreviation carve := (_carve_passages_from shuffle).
Abbreviation generate_maze := (generate_maze seed shuffle).
Abbreviation generate := (generate seed shuffle).

(** The attributes no method assigns after construction. *)
Definition attrs (s : world) : Z * Z * cell * cell :=
  (width (self s), height (self s), start (self s), end_ (self s)).

Lemma preserves_set_maze m : preserves attrs (set_maze m).
Proof. by intros s. Qed.

Lemma preserves_set_visited v : preserves attrs (set_visited v).
Proof. by intros s. Qed.

Lemma preserves_random_seed n : preserves attrs (random_seed seed n).
Proof. by intros s. Qed.

Lemma preserves_random_shuffle l : preserves attrs (random_shuffle shuffle l).
Proof. intros s. unfold random_shuffle. by destruct (shuffle l (random s)). Qed.

Lemma preserves_maze_assign ix v : preserves attrs (maze_assign ix v).
Proof.
  unfold maze_assign. apply preserves_bind; [apply preserves_gets|]. intros m.
  apply preserves_bind; [apply preserves_lift|]. intros m'.
  apply preserves_set_maze.
Qed.

Lemma preserves_visited_assign ix v : preserves attrs (visited_assign ix v).
Proof.
  unfold visited_assign. apply preserves_bind; [apply preserves_gets|]. intros m.
  apply preserves_bind; [apply preserves_lift|]. intros m'.
  apply preserves_set_visited.
Qed.

Lemma preserves_may_carve nx ny : preserves attrs (may_carve nx ny).
Proof.
  unfold may_carve. apply preserves_bind; [apply preserves_gets|]. intros w.
  destruct (_ && _); [|apply preserves_ret].
  apply preserves_bind; [apply preserves_gets|]. intros h.
  destruct (_ && _); [|apply preserves_ret].
  apply preserves_bind; [apply preserves_gets|]. intros a.
  apply preserves_bind; [apply preserves_lift|]. intros b.
  apply preserves_ret.
Qed.

Lemma preserves_carve depth cx cy : preserves attrs (carve depth cx cy).
Proof.
  revert cx cy. induction depth as [|depth IH]; intros cx cy;
    [apply preserves_out_of_fuel|].
  simpl. apply preserves_bind; [apply preserves_random_shuffle|].
  intros directions. apply preserves_for_each. intros [dx dy].
  apply preserves_bind; [apply preserves_may_carve|]. intros [|];
    [|apply preserves_ret].
  apply preserves_bind; [apply preserves_visited_assign|]. intros _.
  apply preserves_bind; [apply preserves_maze_assign|]. intros _.
  apply preserves_bind; [apply preserves_maze_assign|]. intros _.
  apply IH.
Qed.

(** An assignment [self.maze[ix] = v] that goes through wrote [v] at the
    item [ix] denotes and kept the shape. *)
Lemma maze_assign_Ok_inv ix v (s s' : world) :
  maze_assign ix v s = (Ok tt, s') →
  ∃ k, nd_index (maze (self s)) ix = Some k ∧
       random s' = random s ∧
       attrs s' = attrs s ∧
       visited (self s') = visited (self s) ∧
       maze (self s') =
         mk_ndarray (nd_shape (maze (self s))) (nd_zero (maze (self s)))
                    (<[k := v]> (nd_items (maze (self s)))).
Proof.
  unfold maze_assign, nd_setitem. rewrite bind_run. simpl. rewrite bind_run.
  unfold lift. destruct (nd_index _ ix) as [k|]; [|done].
  simpl. intros [= <-]. by exists k.
Qed.

Lemma nd_getitem_setitem {A} (a a' : ndarray A) ix v :
  nd_setitem a ix v = Ok a' → nd_getitem a' ix = Ok v.
Proof.
  unfold nd_setitem, nd_getitem, nd_index.
  destruct (nd_axis _ ix.1) as [i|] eqn:Hi; [|done].
  destruct (nd_axis _ ix.2) as [j|] eqn:Hj; [|done].
  intros [= <-]. simpl. rewrite Hi, Hj. by rewrite lookup_insert_eq.
Qed.

(** ** The generator: carving ends, and within which depth *)

Definition is_seen (v : ndarray bool) (c : cell) : bool :=
  match nd_getitem v c with
  | Ok true => true
  | _ => false
  end.

(** The cells of the grid not yet marked in [self.visited]. *)
Definition unvisited (s : world) : nat :=
  length (List.filter (λ c, negb (is_seen (visited (self s)) c))
                      (all_cells (height (self s)) (width (self s)))).

(** Both arrays have the shape the constructor gave them. *)
Definition shaped (s : world) : Prop :=
  nd_shape (maze (self s)) = (height (self s), width (self s)) ∧
  nd_shape (visited (self s)) = (height (self s), width (self s)).

Lemma nd_axis_in_range n i : 0 ≤ i < n → nd_axis n i = Some i.
Proof.
  intros H. unfold nd_axis.
  destruct (0 <=? i) eqn:H1; [|lia]. destruct (i <? n) eqn:H2; [done|lia].
Qed.

Lemma nd_index_in_range {A} (a : ndarray A) h w i j :
  nd_shape a = (h, w) → 0 ≤ i < h → 0 ≤ j < w → nd_index a (i, j) = Some (i, j).
Proof.
  intros Hs Hi Hj. unfold nd_index. rewrite Hs. simpl.
  by rewrite !nd_axis_in_range.
Qed.

Lemma attrs_inv (s s' : world) :
  attrs s' = attrs s →
  width (self s') = width (self s) ∧ height (self s') = height (self s) ∧
  start (self s') = start (self s) ∧ end_ (self s') = end_ (self s).
Proof. unfold attrs. by intros [= -> -> -> ->]. Qed.

Lemma maze_assign_run i j v (s : world) :
  shaped s → 0 ≤ i < height (self s) → 0 ≤ j < width (self s) →
  ∃ s', maze_assign (i, j) v s = (Ok tt, s') ∧ shaped s' ∧
        attrs s' = attrs s ∧ visited (self s') = visited (self s).
Proof.
  intros [Hm Hv] Hi Hj. unfold maze_assign, nd_setitem.
  rewrite bind_run. simpl. rewrite bind_run. unfold lift.
  rewrite (nd_index_in_range _ _ _ _ _ Hm Hi Hj). simpl.
  eexists. split; [done|]. by repeat split.
Qed.

Lemma visited_assign_run i j (s : world) :
  shaped s → 0 ≤ i < height (self s) → 0 ≤ j < width (self s) →
  ∃ s', visited_assign (i, j) true s = (Ok tt, s') ∧ shaped s' ∧
        attrs s' = attrs s ∧
        is_seen (visited (self s')) (i, j) = true ∧
        ∀ c, is_seen (visited (self s)) c = true →
             is_seen (visited (self s')) c = true.
Proof.
  intros [Hm Hv] Hi Hj. unfold visited_assign, nd_setitem.
  rewrite bind_run. simpl. rewrite bind_run. unfold lift.
  rewrite (nd_index_in_range _ _ _ _ _ Hv Hi Hj). simpl.
  eexists. split; [done|]. split; [done|]. split; [done|]. split.
  - unfold is_seen, nd_getitem. simpl. unfold nd_index. simpl.
    rewrite Hv. simpl. rewrite !nd_axis_in_range by done.
    by rewrite lookup_insert_eq.
  - intros c. unfold is_seen, nd_getitem, nd_index. simpl.
    destruct (nd_axis _ c.1) as [a|]; [|done].
    destruct (nd_axis _ c.2) as [b|]; [|done].
    destruct (decide ((i, j) = (a, b))) as [<-|Hne].
    + by rewrite lookup_insert_eq.
    + by rewrite lookup_insert_ne.
Qed.

Lemma may_carve_run nx ny (s : world) :
  shaped s →
  ∃ b, may_carve nx ny s = (Ok b, s) ∧
       (b = true → 0 ≤ nx < width (self s) ∧ 0 ≤ ny < height (self s) ∧
                   is_seen (visited (self s)) (ny, nx) = false).
Proof.
  intros [Hm Hv]. unfold may_carve. rewrite bind_run. simpl.
  destruct (0 <=? nx) eqn:H1; simpl; [|by exists false].
  destruct (nx <? width (self s)) eqn:H2; simpl; [|by exists false].
  rewrite bind_run. simpl.
  destruct (0 <=? ny) eqn:H3; simpl; [|by exists false].
  destruct (ny <? height (self s)) eqn:H4; simpl; [|by exists false].
  rewrite bind_run. simpl. rewrite bind_run. unfold lift.
  unfold is_seen, nd_getitem.
  rewrite (nd_index_in_range _ (height (self s)) (width (self s))) by (done || lia).
  eexists. split; [done|]. intros Hb. repeat split; try lia.
  by destruct (default _ _).
Qed.

Lemma unvisited_mono (s s' : world) :
  attrs s' = attrs s →
  (∀ c, is_seen (visited (self s)) c = true →
        is_seen (visited (self s')) c = true) →
  (unvisited s' ≤ unvisited s)%nat.
Proof.
  intros Ha Hc. apply attrs_inv in Ha as (Hw & Hh & _). unfold unvisited.
  rewrite Hw, Hh. apply filter_length_mono. intros c _.
  rewrite !negb_true_iff. intros Hn.
  destruct (is_seen (visited (self s)) c) eqn:Hs; [|done].
  by rewrite (Hc c Hs) in Hn.
Qed.

Lemma unvisited_mark (s s' : world) i j :
  attrs s' = attrs s →
  0 ≤ i < height (self s) → 0 ≤ j < width (self s) →
  is_seen (visited (self s)) (i, j) = false →
  is_seen (visited (self s')) (i, j) = true →
  (∀ c, is_seen (visited (self s)) c = true →
        is_seen (visited (self s')) c = true) →
  (unvisited s' < unvisited s)%nat.
Proof.
  intros Ha Hi Hj Hold Hnew Hc. apply attrs_inv in Ha as (Hw & Hh & _).
  unfold unvisited. rewrite Hw, Hh.
  apply (filter_length_lt _ _ _ (i, j)).
  - intros c _. rewrite !negb_true_iff. intros Hn.
    destruct (is_seen (visited (self s)) c) eqn:Hs; [|done].
    by rewrite (Hc c Hs) in Hn.
  - by apply elem_of_all_cells.
  - by rewrite Hnew.
  - by rewrite Hold.
Qed.

(** The midpoint written between two cells of the grid is a cell of it. *)
Lemma midpoint_in_range n c d : 0 ≤ c < n → 0 ≤ c + d < n → 0 ≤ c + d `div` 2 < n.
Proof. intros. pose proof (Z.div_mod d 2). pose proof (Z.mod_pos_bound d 2). lia. Qed.

Lemma carve_run depth : ∀ cx cy (s : world),
  shaped s → 0 ≤ cx < width (self s) → 0 ≤ cy < height (self s) →
  (unvisited s < depth)%nat →
  ∃ s', carve depth cx cy s = (Ok tt, s') ∧ shaped s' ∧ attrs s' = attrs s ∧
        ∀ c, is_seen (visited (self s)) c = true →
             is_seen (visited (self s')) c = true.
Proof.
  induction depth as [|depth IH]; intros cx cy s Hs Hx Hy Hd; [lia|].
  simpl. rewrite bind_run. unfold random_shuffle at 1.
  destruct (shuffle _ (random s)) as [directions r].
  set (s0 := mk_world r (self s)).
  assert (shaped s0) as Hs0 by done.
  assert (attrs s0 = attrs s) as Ha0 by done.
  assert (∀ c, is_seen (visited (self s)) c = true →
               is_seen (visited (self s0)) c = true) as Hc0 by done.
  assert (unvisited s0 < S depth)%nat as Hd0 by done.
  clearbody s0. revert s0 Hs0 Ha0 Hc0 Hd0.
  induction directions as [|[dx dy] l IHl]; intros s0 Hs0 Ha0 Hc0 Hd0.
  { exists s0. by split_and!. }
  cbn [for_each]. rewrite bind_run, bind_run.
  destruct (attrs_inv _ _ Ha0) as (Hw0 & Hh0 & _).
  destruct (may_carve_run (cx + dx) (cy + dy) s0 Hs0) as (b & -> & Hb).
  destruct b.
  - destruct Hb as (Hnx & Hny & Hfresh); [done|].
    destruct (visited_assign_run (cy + dy) (cx + dx) s0 Hs0 Hny Hnx)
      as (s1 & E1 & Hs1 & Ha1 & Hnew & Hc1).
    rewrite bind_run, E1.
    destruct (attrs_inv _ _ Ha1) as (Hw1 & Hh1 & _).
    destruct (maze_assign_run (cy + dy `div` 2) (cx + dx `div` 2) 1 s1 Hs1)
      as (s2 & E2 & Hs2 & Ha2 & Hv2).
    { rewrite Hh1, Hh0. apply midpoint_in_range; lia. }
    { rewrite Hw1, Hw0. apply midpoint_in_range; lia. }
    rewrite bind_run, E2.
    destruct (attrs_inv _ _ Ha2) as (Hw2 & Hh2 & _).
    destruct (maze_assign_run (cy + dy) (cx + dx) 1 s2 Hs2)
      as (s3 & E3 & Hs3 & Ha3 & Hv3); [lia..|].
    rewrite bind_run, E3.
    destruct (attrs_inv _ _ Ha3) as (Hw3 & Hh3 & _).
    assert (unvisited s1 < unvisited s0)%nat as Hlt
      by (by apply (unvisited_mark s0 s1 (cy + dy) (cx + dx))).
    assert (unvisited s3 = unvisited s1) as Hu3.
    { unfold unvisited. by rewrite Hv3, Hv2, Hw3, Hw2, Hh3, Hh2. }
    destruct (IH (cx + dx) (cy + dy) s3 Hs3) as (s4 & E4 & Hs4 & Ha4 & Hc4);
      [lia..|].
    rewrite E4.
    assert (∀ c, is_seen (visited (self s0)) c = true →
                 is_seen (visited (self s4)) c = true) as Hc04.
    { intros c Hc. apply Hc4. rewrite Hv3, Hv2. by apply Hc1. }
    assert (attrs s4 = attrs s0) as Ha04 by congruence.
    apply IHl; [done|congruence|auto|].
    pose proof (unvisited_mono s0 s4 Ha04 Hc04). lia.
  - by apply IHl.
Qed.

Lemma preserves_run {St X A} (f : St → X) (m : M St A) s o s' :
  preserves f m → m s = (o, s') → f s' = f s.
Proof. intros Hp E. specialize (Hp s). by rewrite E in Hp. Qed.

Lemma filter_length_le {A} (P : A → bool) (l : list A) :
  (length (List.filter P l) ≤ length l)%nat.
Proof. induction l as [|x l IH]; [done|]. simpl. destruct (P x); simpl; lia. Qed.

Lemma is_seen_fresh shape c : is_seen (mk_ndarray shape false ∅) c = false.
Proof.
  unfold is_seen, nd_getitem. destruct (nd_index _ c); [|done].
  simpl. by rewrite lookup_empty.
Qed.

(** ** The generator: the claims *)

(** C8. For positive width and height the carving ends: a construction
    followed by [generate_maze] returns a grid whenever the nesting allowed
    to the recursive calls reaches the number of cells, because a call
    recurses only into a cell it has just marked in [visited], and a marked
    cell is never unmarked. *)
Theorem generate_maze_terminates (depth : nat) (w h : Z) (r : rng) :
  0 < w → 0 < h → (Z.to_nat (w * h) ≤ depth)%nat →
  ∃ m s', generate depth w h r = (Ok m, Some s') ∧ nd_shape m = (h, w).
Proof.
  intros Hw Hh Hd. unfold generate, __init__, np_zeros. simpl.
  destruct (h <? 0) eqn:E1; [lia|]. destruct (w <? 0) eqn:E2; [lia|]. simpl.
  unfold generate_maze. rewrite bind_run. simpl. rewrite bind_run. simpl.
  rewrite bind_run. unfold lift at 1, np_zeros at 1. simpl. rewrite E1, E2. simpl.
  rewrite bind_run. simpl. rewrite bind_run.
  unfold lift at 1, np_zeros at 1. simpl. rewrite E1, E2. simpl.
  rewrite bind_run. simpl. rewrite bind_run. simpl.
  set (s3 := mk_world _ _).
  assert (shaped s3) as Hs3 by done.
  destruct (visited_assign_run 0 0 s3 Hs3) as (s4 & E4 & Hs4 & Ha4 & Hnew & Hc4);
    [simpl; lia..|].
  rewrite bind_run, E4.
  destruct (attrs_inv _ _ Ha4) as (Hw4 & Hh4 & Hst4 & Hen4).
  assert (unvisited s4 < unvisited s3)%nat as Hlt.
  { apply (unvisited_mark s3 s4 0 0); [done|simpl; lia..| |done|done].
    apply is_seen_fresh. }
  assert (unvisited s3 ≤ Z.to_nat (w * h))%nat as Hle.
  { unfold unvisited. etrans; [apply filter_length_le|].
    rewrite length_all_cells. simpl. rewrite Z2Nat.inj_mul by lia. lia. }
  destruct (carve_run depth 0 0 s4 Hs4) as (s5 & E5 & Hs5 & Ha5 & _);
    [rewrite ?Hw4, ?Hh4; simpl; lia..|].
  rewrite bind_run, E5. rewrite bind_run. simpl.
  destruct (attrs_inv _ _ Ha5) as (Hw5 & Hh5 & Hst5 & Hen5).
  rewrite Hst5, Hst4. simpl.
  destruct (maze_assign_run 0 0 1 s5 Hs5) as (s6 & E6 & Hs6 & Ha6 & _);
    [rewrite ?Hw5, ?Hh5, ?Hw4, ?Hh4; simpl; lia..|].
  rewrite bind_run, E6. rewrite bind_run. simpl.
  destruct (attrs_inv _ _ Ha6) as (Hw6 & Hh6 & Hst6 & Hen6).
  rewrite Hen6, Hen5, Hen4. simpl.
  destruct (maze_assign_run (h - 1) (w - 1) 1 s6 Hs6) as (s7 & E7 & Hs7 & Ha7 & _);
    [rewrite ?Hw6, ?Hh6, ?Hw5, ?Hh5, ?Hw4, ?Hh4; simpl; lia..|].
  rewrite bind_run, E7. simpl.
  destruct (attrs_inv _ _ Ha7) as (Hw7 & Hh7 & _).
  eexists _, _. split; [done|]. destruct Hs7 as [-> _].
  by rewrite Hw7, Hh7, Hw6, Hh6, Hw5, Hh5, Hw4, Hh4.
Qed.


(** C4. After [generate_maze] returns, the start cell [(0, 0)] and the end
    cell [(height - 1, width - 1)] hold [Path], whatever the carving wrote. *)
Theorem generate_maze_start_end_are_path
    (depth : nat) (w h : Z) (r : rng) (m : ndarray Z) (s' : option world) :
  generate depth w h r = (Ok m, s') →
  nd_getitem m (0, 0) = Ok Path ∧ nd_getitem m (h - 1, w - 1) = Ok Path.
Proof.
  unfold generate. destruct (__init__ w h) as [g| |] eqn:Hg; [|done..].
  destruct (generate_maze depth _) as [o s1] eqn:E. intros [= -> _].
  assert (start g = (0, 0) ∧ end_ g = (h - 1, w - 1)) as [Hst Hen].
  { unfold __init__ in Hg. destruct (np_zeros _ 0); [|done..].
    destruct (np_zeros _ false); [|done..]. by injection Hg as <-. }
  unfold generate_maze in E.
  apply bind_Ok_inv in E as (h0 & s & [= <- <-] & E).
  apply bind_Ok_inv in E as (w0 & s & [= <- <-] & E).
  apply bind_Ok_inv in E as (m0 & s & E0 & E). injection E0 as _ <-.
  apply bind_Ok_inv in E as ([] & sa & Ea & E).
  apply (preserves_run attrs _ _ _ _ (preserves_set_maze _)) in Ea.
  apply bind_Ok_inv in E as (v0 & s & E0 & E). injection E0 as _ <-.
  apply bind_Ok_inv in E as ([] & sb & Eb & E).
  apply (preserves_run attrs _ _ _ _ (preserves_set_visited _)) in Eb.
  apply bind_Ok_inv in E as ([] & sc & Ec & E).
  apply (preserves_run attrs _ _ _ _ (preserves_random_seed _)) in Ec.
  apply bind_Ok_inv in E as ([] & sd & Ed & E).
  apply (preserves_run attrs _ _ _ _ (preserves_visited_assign _ _)) in Ed.
  apply bind_Ok_inv in E as ([] & se & Ee & E).
  apply (preserves_run attrs _ _ _ _ (preserves_carve _ _ _)) in Ee.
  assert (attrs se = attrs (mk_world r g)) as Ha by congruence.
  apply attrs_inv in Ha as (_ & _ & Hst' & Hen'). simpl in Hst', Hen'.
  apply bind_Ok_inv in E as (st & s & [= <- <-] & E).
  apply bind_Ok_inv in E as ([] & sf & Ef & E).
  apply maze_assign_Ok_inv in Ef as (k1 & Hk1 & _ & Haf & _ & Hmf).
  apply attrs_inv in Haf as (_ & _ & _ & Henf).
  apply bind_Ok_inv in E as (en & s & [= <- <-] & E).
  apply bind_Ok_inv in E as ([] & sg & Eg & E).
  apply maze_assign_Ok_inv in Eg as (k2 & Hk2 & _ & _ & _ & Hmg).
  injection E as <-. rewrite Hmg, Hmf.
  rewrite Hst', Hst in Hk1. rewrite Henf, Hen', Hen, Hmf in Hk2. simpl in Hk1, Hk2.
  unfold nd_getitem, nd_index in *. simpl in *.
  split.
  - destruct (nd_axis _ 0) as [i|]; [|done]. simpl in *.
    destruct (nd_axis _ 0) as [j|]; [|done]. injection Hk1 as <-.
    destruct (decide (k2 = (i, j))) as [->|Hne].
    + by rewrite lookup_insert_eq.
    + rewrite lookup_insert_ne by done. by rewrite lookup_insert_eq.
  - rewrite Hk2. by rewrite lookup_insert_eq.
Qed.

Lemma generate_maze_outcome_indep (depth : nat) (s1 s2 : world) :
  attrs s1 = attrs s2 →
  (generate_maze depth s1).1 = (generate_maze depth s2).1.
Proof.
  intros Ha. apply attrs_inv in Ha as (Hw & Hh & Hst & Hen).
  unfold generate_maze.
  do 2 (rewrite (bind_run (gets _) _ s1), (bind_run (gets _) _ s2); simpl).
  rewrite Hw, Hh.
  rewrite (bind_run (lift _) _ s1), (bind_run (lift _) _ s2). unfold lift.
  destruct (np_zeros _ 0) as [m| |]; [|done..].
  rewrite !bind_run. simpl. rewrite !bind_run.
  destruct (np_zeros _ false) as [v| |]; [|done..].
  rewrite !bind_run. simpl. rewrite !bind_run. simpl.
  by rewrite Hw, Hh, Hst, Hen.
Qed.

(** C5. Generation is deterministic: for the same width and height two
    runs return the same outcome, cell for cell, whatever state the random
    source was in before either run, since every run reseeds it with 42. *)
Theorem generate_deterministic (depth : nat) (w h : Z) (r1 r2 : rng) :
  (generate depth w h r1).1 = (generate depth w h r2).1.
Proof.
  unfold generate. destruct (__init__ w h) as [g| |]; [|done..].
  pose proof (generate_maze_outcome_indep depth (mk_world r1 g) (mk_world r2 g)
                eq_refl) as H.
  by destruct (generate_maze depth (mk_world r1 g)),
              (generate_maze depth (mk_world r2 g)).
Qed.

(** Calling [generate_maze] again on the same object returns the same grid. *)
Lemma generate_maze_again (depth : nat) (s s' : world) o :
  generate_maze depth s = (o, s') → (generate_maze depth s').1 = o.
Proof.
  intros E. rewrite (generate_maze_outcome_indep depth s' s); [by rewrite E|].
  eapply preserves_run; [|exact E].
  unfold generate_maze.
  repeat (apply preserves_bind; [|intros ?]);
    auto using @preserves_gets, @preserves_lift, preserves_set_maze,
      preserves_set_visited, preserves_random_seed, preserves_visited_assign,
      preserves_carve, preserves_maze_assign.
Qed.

(** C6, as the code has it. No dimension check exists. A negative width or
    height is refused by [np.zeros] in the constructor with [ValueError];
    with none negative and one of them zero the constructor succeeds and
    [generate_maze] raises [IndexError] at [self.visited[0, 0] = True],
    after the arrays were reset and the random source reseeded.  Either way
    no grid is returned. *)
Theorem generate_nonpositive_fails (depth : nat) (w h : Z) (r : rng) :
  w ≤ 0 ∨ h ≤ 0 →
  (w < 0 ∨ h < 0 → generate depth w h r = (Raise ValueError, None)) ∧
  (0 ≤ w → 0 ≤ h →
     ∃ s, generate depth w h r = (Raise IndexError, Some s) ∧
          random s = seed 42).
Proof.
  intros Hnp. split.
  - intros Hneg. unfold generate, __init__, np_zeros. simpl.
    destruct (h <? 0) eqn:E1; [done|]. destruct (w <? 0) eqn:E2; [done|]. lia.
  - intros Hw Hh. unfold generate, __init__, np_zeros. simpl.
    destruct (h <? 0) eqn:E1; [lia|]. destruct (w <? 0) eqn:E2; [lia|]. simpl.
    unfold generate_maze. rewrite bind_run. simpl. rewrite bind_run. simpl.
    rewrite bind_run. unfold lift at 1, np_zeros at 1. simpl. rewrite E1, E2. simpl.
    rewrite bind_run. simpl. rewrite bind_run.
    unfold lift at 1, np_zeros at 1. simpl. rewrite E1, E2. simpl.
    rewrite bind_run. simpl. rewrite bind_run. simpl.
    rewrite bind_run. unfold visited_assign. rewrite bind_run. simpl.
    rewrite bind_run. unfold lift, nd_setitem, nd_index. simpl.
    assert (nd_axis h 0 = None ∨ nd_axis w 0 = None) as Hax.
    { unfold nd_axis. destruct (decide (h = 0)) as [->|]; [by left|].
      right. by replace w with 0 by lia. }
    destruct Hax as [->| ->]; [by eauto|].
    destruct (nd_axis h 0); by eauto.
Qed.

End GeneratorProofs.

Lemma generate_maze_terminates_witness :
  ∃ m s', MazeGenerator.generate ToyRandom.seed ToyRandom.shuffle 15 5 3 0%nat
          = (Ok m, Some s') ∧ nd_shape m = (3, 5).
Proof.
  apply (generate_maze_terminates ToyRandom.rng ToyRandom.seed
           ToyRandom.shuffle 15 5 3 0%nat); [lia | lia | simpl; lia].
Defined.


Lemma generate_maze_start_end_are_path_witness :
  ∃ m, (MazeGenerator.generate ToyRandom.seed ToyRandom.shuffle 15 5 3 0%nat).1
       = Ok m ∧
       nd_getitem m (0, 0) = Ok Path ∧ nd_getitem m (3 - 1, 5 - 1) = Ok Path.
Proof.
  eexists. split; [vm_compute; reflexivity|].
  eapply (generate_maze_start_end_are_path ToyRandom.rng ToyRandom.seed
            ToyRandom.shuffle 15 5 3 0%nat).
  vm_compute. reflexivity.
Defined.

Lemma generate_nonpositive_fails_witness :
  ∃ s, MazeGenerator.generate ToyRandom.seed ToyRandom.shuffle 0 0 1 7%nat
       = (Raise IndexError, Some s) ∧
       MazeGenerator.random s = ToyRandom.seed 42.
Proof.
  destruct (generate_nonpositive_fails ToyRandom.rng ToyRandom.seed
              ToyRandom.shuffle 0 0 1 7%nat) as [_ H]; [lia|].
  apply H; lia.
Defined.

(** C6 as the specification words it does not hold: for width 0 and height
    1 the constructor succeeds, and [generate_maze] fails with numpy's
    [IndexError], not a dimension error, after the random source (in state 7
    before the call) has been reseeded with 42. *)
Lemma generate_zero_width_counterexample :
  let run := MazeGenerator.generate ToyRandom.seed ToyRandom.shuffle 0 0 1 7%nat in
  run.1 = Raise IndexError ∧
  run.1 ≠ Raise "InvalidDimensions"%string ∧
  MazeGenerator.random <$> run.2 = Some 42%nat.
Proof. vm_compute. split_and!; [done|discriminate|done]. Qed.

(** ** MazeSolver *)

(** [queue.PriorityQueue] holding tuples [(priority, (row, col))].  The
    queue is a binary heap; what [get] returns is the least tuple held, and
    integer tuples being totally ordered with equal tuples alike in every
    respect, that value does not depend on how the heap is laid out.  The
    queue is therefore the list of the tuples held, and [get] takes the
    least one out. *)
Definition entry : Type := Z * cell.

Definition tuple_le (a b : cell) : bool :=
  (a.1 <? b.1) || ((a.1 =? b.1) && (a.2 <=? b.2)).

Definition entry_le (a b : entry) : bool :=
  (a.1 <? b.1) || ((a.1 =? b.1) && tuple_le a.2 b.2).

Definition pq_put (q : list entry) (e : entry) : list entry := e :: q.

Fixpoint pq_least (e : entry) (q : list entry) : entry :=
  match q with
  | [] => e
  | e' :: q' => pq_least (if entry_le e e' then e else e') q'
  end.

Fixpoint pq_remove (e : entry) (q : list entry) : list entry :=
  match q with
  | [] => []
  | e' :: q' => if decide (e' = e) then q' else e' :: pq_remove e q'
  end.

(** [None] when the queue is empty, otherwise the least tuple and the rest *)
Definition pq_get (q : list entry) : option (entry * list entry) :=
  match q with
  | [] => None
  | e :: q' => let m := pq_least e q' in Some (m, pq_remove m q)
  end.

(** [d[k]] on a dictionary *)
Definition dict_getitem `{Countable K} {V} (d : gmap K V) (k : K) : outcome V :=
  match d !! k with
  | Some v => Ok v
  | None => Raise KeyError
  end.

Module MazeSolver.

Record t : Type := mk {
  maze : ndarray Z;
  height : Z;
  width : Z
}.

(** [__init__(self, maze)] *)
Definition __init__ (maze : ndarray Z) : t :=
  mk maze (nd_shape maze).1 (nd_shape maze).2.

(** [heuristic(self, a, b)] *)
Definition heuristic (a b : cell) : M t Z :=
  mret (Z.abs (a.1 - b.1) + Z.abs (a.2 - b.2)).

(** [get_neighbors(self, current)] *)
Definition get_neighbors (current : cell) : M t (list cell) :=
  let '(x, y) := current in
  for_fold (λ '(dx, dy) neighbors,
      let nx := x + dx in
      let ny := y + dy in
      h ← gets height;
      if (0 <=? nx) && (nx <? h) then
        w ← gets width;
        if (0 <=? ny) && (ny <? w) then
          m ← gets maze;
          v ← lift (nd_getitem m (nx, ny));
          if negb (v =? 0) then mret (neighbors ++ [(nx, ny)])
          else mret neighbors
        else mret neighbors
      else mret neighbors)
    [(0, 1); (1, 0); (0, -1); (-1, 0)] [].

(** The local variables of [a_star_solve] that its loop updates. *)
Record locals : Type := mk_locals {
  open_set : list entry;
  came_from : gmap cell cell;
  g_score : gmap cell Z;
  f_score : gmap cell Z
}.

(** The body of [for neighbor in self.get_neighbors(current)]. *)
Definition relax (end_ current neighbor : cell) (l : locals) : M t locals :=
  g_current ← lift (dict_getitem (g_score l) current);
  let tentative_g_score := g_current + 1 in
  let better :=
    match g_score l !! neighbor with
    | None => true
    | Some g_neighbor => tentative_g_score <? g_neighbor
    end in
  if better then
    let came_from' := <[neighbor := current]> (came_from l) in
    let g_score' := <[neighbor := tentative_g_score]> (g_score l) in
    g_neighbor ← lift (dict_getitem g_score' neighbor);
    h ← heuristic neighbor end_;
    let f_score' := <[neighbor := g_neighbor + h]> (f_score l) in
    f_neighbor ← lift (dict_getitem f_score' neighbor);
    mret (mk_locals (pq_put (open_set l) (f_neighbor, neighbor))
                    came_from' g_score' f_score')
  else mret l.

(** [while current in came_from: path.append(current);
    current = came_from[current]] *)
Fixpoint reconstruct (steps : nat) (came_from : gmap cell cell)
    (current : cell) (path : list cell) : outcome (list cell) :=
  match steps with
  | O => OutOfFuel
  | S steps' =>
      match came_from !! current with
      | Some previous => reconstruct steps' came_from previous (path ++ [current])
      | None => Ok path
      end
  end.

(** [while not open_set.empty(): ...], then [return None].  [fuel] bounds
    the iterations of this loop and [steps] those of the inner one. *)
Fixpoint a_star_loop (fuel steps : nat) (start end_ : cell) (l : locals)
  : M t (option (list cell)) :=
  match fuel with
  | O => out_of_fuel
  | S fuel' =>
      match pq_get (open_set l) with
      | None => mret None
      | Some ((_, current), rest) =>
          if decide (current = end_) then
            path ← lift (reconstruct steps (came_from l) current []);
            mret (Some (reverse (path ++ [start])))
          else
            neighbors ← get_neighbors current;
            l' ← for_fold (relax end_ current) neighbors
                   (mk_locals rest (came_from l) (g_score l) (f_score l));
            a_star_loop fuel' steps start end_ l'
      end
  end.

(** [a_star_solve(self, start, end)]; [end_ = None] is the default
    argument, the bottom-right corner. *)
Definition a_star_solve (fuel : nat) (start : cell) (end_ : option cell)
  : M t (option (list cell)) :=
  end_ ← match end_ with
         | None => h ← gets height; w ← gets width; mret (h - 1, w - 1)
         | Some e => mret e
         end;
  h0 ← heuristic start end_;
  a_star_loop fuel fuel start end_
    (mk_locals (pq_put [] (0, start)) ∅ {[start := 0]} {[start := h0]}).

(** [MazeSolver(maze).a_star_solve(start, end)] *)
Definition solve (fuel : nat) (maze : ndarray Z) (start end_ : cell)
  : outcome (option (list cell)) * t :=
  a_star_solve fuel start (Some end_) (__init__ maze).

End MazeSolver.

(** ** The priority queue: [get] returns a least tuple and removes one copy *)

Lemma entry_le_spec (a b : entry) :
  entry_le a b = true ↔
  a.1 < b.1 ∨ (a.1 = b.1 ∧ (a.2.1 < b.2.1 ∨ (a.2.1 = b.2.1 ∧ a.2.2 ≤ b.2.2))).
Proof. unfold entry_le, tuple_le. lia. Qed.

Lemma entry_le_priority (a b : entry) : entry_le a b = true → a.1 ≤ b.1.
Proof. rewrite entry_le_spec. lia. Qed.

Lemma entry_le_refl (a : entry) : entry_le a a = true.
Proof. apply entry_le_spec. lia. Qed.

Lemma entry_le_trans (a b c : entry) :
  entry_le a b = true → entry_le b c = true → entry_le a c = true.
Proof. rewrite !entry_le_spec. lia. Qed.

Lemma entry_le_total (a b : entry) : entry_le a b = false → entry_le b a = true.
Proof.
  intros H. apply entry_le_spec.
  destruct (entry_le a b) eqn:E; [done|].
  assert (¬ (a.1 < b.1 ∨ (a.1 = b.1 ∧
            (a.2.1 < b.2.1 ∨ (a.2.1 = b.2.1 ∧ a.2.2 ≤ b.2.2))))) as Hn.
  { rewrite <- entry_le_spec. by rewrite E. }
  lia.
Qed.

Lemma pq_least_elem (e : entry) (q : list entry) : pq_least e q ∈ e :: q.
Proof.
  revert e. induction q as [|e' q IH]; intros e; [by left|].
  simpl. specialize (IH (if entry_le e e' then e else e')).
  apply elem_of_cons in IH as [->|IH].
  - destruct (entry_le e e'); [by left | right; by left].
  - right. by right.
Qed.

Lemma pq_least_le_first (e : entry) (q : list entry) :
  entry_le (pq_least e q) e = true.
Proof.
  revert e. induction q as [|e' q IH]; intros e; [apply entry_le_refl|].
  simpl. destruct (entry_le e e') eqn:E; [apply IH|].
  eapply entry_le_trans; [apply IH|]. by apply entry_le_total.
Qed.

Lemma pq_least_le (e : entry) (q : list entry) (x : entry) :
  x ∈ e :: q → entry_le (pq_least e q) x = true.
Proof.
  revert e. induction q as [|e' q IH]; intros e Hx.
  - apply list_elem_of_singleton in Hx as ->. apply entry_le_refl.
  - simpl. apply elem_of_cons in Hx as [->|Hx].
    + destruct (entry_le e e') eqn:E; [apply pq_least_le_first|].
      eapply entry_le_trans; [apply pq_least_le_first|].
      by apply entry_le_total.
    + apply elem_of_cons in Hx as [->|Hx].
      * destruct (entry_le e e') eqn:E; [|apply pq_least_le_first].
        eapply entry_le_trans; [apply pq_least_le_first|done].
      * apply IH. by right.
Qed.

Lemma pq_remove_subset (e x : entry) (q : list entry) :
  x ∈ pq_remove e q → x ∈ q.
Proof.
  induction q as [|e' q IH]; simpl; [done|].
  destruct (decide (e' = e)); [by right|].
  intros [->|H]%elem_of_cons; [by left | right; auto].
Qed.

Lemma pq_remove_other (e x : entry) (q : list entry) :
  x ∈ q → x ≠ e → x ∈ pq_remove e q.
Proof.
  induction q as [|e' q IH]; simpl; [done|].
  intros [->|H]%elem_of_cons Hne.
  - destruct (decide (e' = e)); [done|by left].
  - destruct (decide (e' = e)); [done|]. right. auto.
Qed.

Lemma pq_remove_length (e : entry) (q : list entry) :
  e ∈ q → length q = S (length (pq_remove e q)).
Proof.
  induction q as [|e' q IH]; simpl; [by intros ?%elem_of_nil|].
  intros [->|H]%elem_of_cons.
  - by rewrite decide_True.
  - destruct (decide (e' = e)); [done|]. simpl. by rewrite IH.
Qed.

Lemma pq_get_spec (q rest : list entry) (m : entry) :
  pq_get q = Some (m, rest) →
  m ∈ q ∧ (∀ x, x ∈ q → entry_le m x = true) ∧
  (∀ x, x ∈ rest → x ∈ q) ∧ (∀ x, x ∈ q → x ≠ m → x ∈ rest) ∧
  length q = S (length rest).
Proof.
  destruct q as [|e q]; [done|]. unfold pq_get. intros [= <- <-].
  pose proof (pq_least_elem e q) as Hin. split_and!.
  - done.
  - intros x. apply pq_least_le.
  - intros x. apply (pq_remove_subset _ x (e :: q)).
  - intros x. apply (pq_remove_other _ x (e :: q)).
  - by apply (pq_remove_length _ (e :: q)).
Qed.

(** ** The grid as a graph *)

(** Manhattan distance, what [heuristic] computes. *)
Definition dist (a b : cell) : Z := Z.abs (a.1 - b.1) + Z.abs (a.2 - b.2).

Definition cell_value (grid : ndarray Z) (c : cell) : Z :=
  default (nd_zero grid) (nd_items grid !! c).

Definition in_bounds (grid : ndarray Z) (c : cell) : Prop :=
  0 ≤ c.1 < (nd_shape grid).1 ∧ 0 ≤ c.2 < (nd_shape grid).2.

(** A cell of the grid that is not a wall. *)
Definition open_cell (grid : ndarray Z) (c : cell) : bool :=
  (0 <=? c.1) && (c.1 <? (nd_shape grid).1) &&
  ((0 <=? c.2) && (c.2 <? (nd_shape grid).2)) &&
  negb (cell_value grid c =? Wall).

(** One unit step along exactly one axis. *)
Definition adjacent (u v : cell) : Prop :=
  (u.1 = v.1 ∧ Z.abs (u.2 - v.2) = 1) ∨ (u.2 = v.2 ∧ Z.abs (u.1 - v.1) = 1).

(** A move: one unit step into a cell of the grid that is not a wall.  The
    cell moved from is not looked at. *)
Definition step (grid : ndarray Z) (u v : cell) : Prop :=
  adjacent u v ∧ open_cell grid v = true.

Definition around (c : cell) : list cell :=
  (λ d : cell, (c.1 + d.1, c.2 + d.2)) <$> [(0, 1); (1, 0); (0, -1); (-1, 0)].

Definition neighbors (grid : ndarray Z) (c : cell) : list cell :=
  List.filter (open_cell grid) (around c).

Lemma elem_of_around (u v : cell) : v ∈ around u ↔ adjacent u v.
Proof.
  destruct u as [x y], v as [a b]. unfold around, adjacent. simpl.
  rewrite !elem_of_cons, elem_of_nil. split.
  - intros [[= -> ->]|[[= -> ->]|[[= -> ->]|[[= -> ->]|[]]]]]; lia.
  - intros H.
    assert ((a = x + 0 ∧ b = y + 1) ∨ (a = x + 1 ∧ b = y + 0) ∨
            (a = x + 0 ∧ b = y + -1) ∨ (a = x + -1 ∧ b = y + 0)) as Hc by lia.
    destruct Hc as [[-> ->]|[[-> ->]|[[-> ->]|[-> ->]]]]; auto.
Qed.

Lemma elem_of_neighbors (grid : ndarray Z) (u v : cell) :
  v ∈ neighbors grid u ↔ step grid u v.
Proof.
  unfold neighbors, step. rewrite list_elem_of_In, filter_In, <- list_elem_of_In.
  by rewrite elem_of_around.
Qed.

Lemma open_cell_in_bounds (grid : ndarray Z) (c : cell) :
  open_cell grid c = true → in_bounds grid c.
Proof. unfold open_cell, in_bounds. lia. Qed.

Lemma adjacent_ne (u v : cell) : adjacent u v → u ≠ v.
Proof. unfold adjacent. intros H ->. lia. Qed.

(** The heuristic never overestimates: a walk of [k] moves covers at most
    [k] of Manhattan distance. *)
Lemma dist_step (u v e : cell) : adjacent u v → dist u e ≤ 1 + dist v e.
Proof. unfold adjacent, dist. lia. Qed.

Lemma dist_nsteps (grid : ndarray Z) (k : nat) (u e : cell) :
  nsteps (step grid) k u e → dist u e ≤ Z.of_nat k.
Proof.
  induction 1 as [x|n x y z [Hadj _] _ IH]; [unfold dist; lia|].
  pose proof (dist_step x y z Hadj). lia.
Qed.

(** ** The reference search

    The oracle the specification names for shortest lengths: a breadth-first
    search on the same grid, level by level.  It is not part of app.py.
    [frontier] holds the cells first reached after [d] moves and [seen] the
    cells reached so far. *)

Definition bfs_next (grid : ndarray Z) (seen frontier : list cell) : list cell :=
  List.filter (λ v, negb (bool_decide (v ∈ seen))) (frontier ≫= neighbors grid).

Fixpoint reference_bfs (fuel : nat) (grid : ndarray Z) (end_ : cell)
    (seen frontier : list cell) (d : nat) : option nat :=
  match fuel with
  | O => None
  | S fuel' =>
      if bool_decide (end_ ∈ frontier) then Some d
      else match bfs_next grid seen frontier with
           | [] => None
           | next => reference_bfs fuel' grid end_ (next ++ seen) next (S d)
           end
  end.

Definition bfs_distance (fuel : nat) (grid : ndarray Z) (start end_ : cell)
  : option nat :=
  reference_bfs fuel grid end_ [start] [start] 0.

Section ReferenceSearch.
Variable grid : ndarray Z.
Variable start : cell.

(** [v] is first reached after exactly [d] moves. *)
Definition at_distance (d : nat) (v : cell) : Prop :=
  nsteps (step grid) d start v ∧
  ∀ k, nsteps (step grid) k start v → (d ≤ k)%nat.

Definition level (d : nat) (seen frontier : list cell) : Prop :=
  (∀ v, v ∈ frontier ↔ at_distance d v) ∧
  (∀ v, v ∈ seen ↔ ∃ k, (k ≤ d)%nat ∧ nsteps (step grid) k start v).

Lemma level_start : level 0 [start] [start].
Proof.
  split; intros v; rewrite list_elem_of_singleton.
  - split.
    + intros ->. split; [constructor|]. intros; lia.
    + intros [H _]. by inversion H.
  - split.
    + intros ->. exists 0%nat. split; [done|constructor].
    + intros (k & Hk & H). assert (k = 0%nat) as -> by lia. by inversion H.
Qed.

Lemma elem_of_bfs_next (seen frontier : list cell) (v : cell) :
  v ∈ bfs_next grid seen frontier ↔
  (v ∉ seen) ∧ ∃ u, u ∈ frontier ∧ step grid u v.
Proof.
  unfold bfs_next.
  rewrite list_elem_of_In, filter_In, <- list_elem_of_In, list_elem_of_bind.
  rewrite negb_true_iff, bool_decide_eq_false.
  setoid_rewrite elem_of_neighbors. split.
  - intros [(u & Hstep & Hu) Hnew]. eauto.
  - intros [Hnew (u & Hu & Hstep)]. eauto.
Qed.

Lemma level_next (d : nat) (seen frontier : list cell) :
  level d seen frontier →
  level (S d) (bfs_next grid seen frontier ++ seen) (bfs_next grid seen frontier).
Proof.
  intros [Hfront Hseen].
  assert (∀ v, v ∈ bfs_next grid seen frontier ↔ at_distance (S d) v) as Hnext.
  { intros v. rewrite elem_of_bfs_next. split.
    - intros (Hnew & u & [Hu _]%Hfront & Hstep).
      split; [by eapply nsteps_r|]. intros k Hk.
      destruct (decide (k ≤ d)%nat); [|lia].
      destruct Hnew. apply Hseen. eauto.
    - intros [Hwalk Hmin]. split.
      + intros (k & Hk & Hw)%Hseen. specialize (Hmin k Hw). lia.
      + apply nsteps_inv_r in Hwalk as (u & Hu & Hstep).
        exists u. split; [|done]. apply Hfront. split; [done|].
        intros k Hk. specialize (Hmin (S k) (nsteps_r _ _ _ _ Hk Hstep)). lia. }
  split; [done|]. intros v. rewrite elem_of_app, Hnext, Hseen. split.
  - intros [[Hw _]|(k & Hk & Hw)]; [by exists (S d)|].
    exists k. split; [lia|done].
  - intros (k & Hk & Hw).
    destruct (decide (v ∈ seen)) as [Hin|Hnew]; [right; by apply Hseen|].
    left. split.
    + destruct (decide (k = S d)) as [->|Hne]; [done|].
      destruct Hnew. apply Hseen. exists k. split; [lia|done].
    + intros k' Hw'. destruct (decide (k' ≤ d)%nat); [|lia].
      destruct Hnew. apply Hseen. eauto.
Qed.

(** Every cell on a shortest walk is itself first reached there. *)
Lemma at_distance_prefix (m d : nat) (e : cell) :
  at_distance m e → (d ≤ m)%nat → ∃ v, at_distance d v.
Proof.
  intros [Hwalk Hmin] Hd.
  replace m with (d + (m - d))%nat in Hwalk by lia.
  apply nsteps_add_inv in Hwalk as (v & Hv & Hrest).
  exists v. split; [done|]. intros k Hk.
  specialize (Hmin _ (nsteps_trans _ _ _ _ _ Hk Hrest)). lia.
Qed.

Lemma reference_bfs_finds (m : nat) (end_ : cell) :
  at_distance m end_ →
  ∀ fuel d seen frontier,
    level d seen frontier → (d ≤ m)%nat → (m - d < fuel)%nat →
    reference_bfs fuel grid end_ seen frontier d = Some m.
Proof.
  intros Hm. induction fuel as [|fuel IH]; intros d seen frontier Hlev Hd Hfuel;
    [lia|].
  simpl. destruct (decide (d = m)) as [->|Hne].
  - rewrite bool_decide_eq_true_2; [done|]. by apply Hlev.
  - rewrite bool_decide_eq_false_2.
    2:{ intros [Hw _]%Hlev. pose proof (proj2 Hm d Hw). lia. }
    destruct (at_distance_prefix m (S d) end_ Hm) as [v Hv]; [lia|].
    pose proof (level_next d seen frontier Hlev) as Hlev'.
    apply (proj1 Hlev') in Hv.
    destruct (bfs_next grid seen frontier) as [|x next] eqn:Hnext;
      [by apply elem_of_nil in Hv|].
    apply IH; [done|lia|lia].
Qed.

Lemma reference_bfs_sound (end_ : cell) :
  ∀ fuel d seen frontier m,
    level d seen frontier →
    reference_bfs fuel grid end_ seen frontier d = Some m → at_distance m end_.
Proof.
  induction fuel as [|fuel IH]; intros d seen frontier m Hlev; [done|].
  simpl. case_bool_decide as Hin.
  - intros [= <-]. by apply Hlev.
  - pose proof (level_next d seen frontier Hlev) as Hlev'.
    destruct (bfs_next grid seen frontier) as [|x next]; [done|]. by apply IH.
Qed.

End ReferenceSearch.

(** The reference search computes the length of a shortest walk. *)
Lemma bfs_distance_sound (fuel : nat) (grid : ndarray Z) (start end_ : cell) m :
  bfs_distance fuel grid start end_ = Some m → at_distance grid start m end_.
Proof. apply reference_bfs_sound, level_start. Qed.

Lemma bfs_distance_complete (fuel : nat) (grid : ndarray Z) (start end_ : cell) m :
  at_distance grid start m end_ → (m < fuel)%nat →
  bfs_distance fuel grid start end_ = Some m.
Proof.
  intros Hm Hfuel. apply (reference_bfs_finds grid start m end_ Hm);
    [apply level_start|lia..].
Qed.

(** ** The solver's methods, run on a solver built by the constructor *)

Section SolverRuns.
Import MazeSolver.
Variable grid : ndarray Z.

Abbreviation self := (__init__ grid).

Lemma heuristic_run (a b : cell) (s : t) : heuristic a b s = (Ok (dist a b), s).
Proof. done. Qed.

Lemma for_fold_filter {A B} (P : B → bool) (f : A → B)
    (body : A → list B → M t (list B)) (s : t) (l : list A) (acc : list B) :
  (∀ x acc, body x acc s = (Ok (if P (f x) then acc ++ [f x] else acc), s)) →
  for_fold body l acc s = (Ok (acc ++ List.filter P (f <$> l)), s).
Proof.
  intros Hb. revert acc. induction l as [|x l IH]; intros acc.
  - simpl. by rewrite app_nil_r.
  - cbn [for_fold]. rewrite bind_run, Hb, IH. simpl.
    destruct (P (f x)); [by rewrite <- app_assoc | done].
Qed.

Lemma get_neighbors_run (c : cell) :
  get_neighbors c self = (Ok (neighbors grid c), self).
Proof.
  destruct c as [x y]. unfold get_neighbors, neighbors, around.
  rewrite (for_fold_filter (open_cell grid) (λ d : cell, (x + d.1, y + d.2)));
    [done|].
  intros [dx dy] acc. simpl. rewrite bind_run. simpl.
  unfold open_cell, cell_value. simpl.
  destruct ((0 <=? x + dx) && (x + dx <? (nd_shape grid).1)) eqn:Hx; [|done].
  simpl. rewrite bind_run. simpl.
  destruct ((0 <=? y + dy) && (y + dy <? (nd_shape grid).2)) eqn:Hy; [|done].
  simpl. rewrite bind_run. simpl. rewrite bind_run. unfold lift, nd_getitem.
  rewrite (nd_index_in_range _ (nd_shape grid).1 (nd_shape grid).2);
    [|by destruct (nd_shape grid)|lia|lia].
  by destruct (negb _).
Qed.

End SolverRuns.

(** ** One relaxation, without the plumbing *)

Section Relax.
Import MazeSolver.

(** What [relax] computes once [g_score[current]] is known to be [gc]. *)
Definition relax_pure (end_ current : cell) (gc : Z) (l : locals) (n : cell)
  : locals :=
  if match g_score l !! n with
     | None => true
     | Some gn => gc + 1 <? gn
     end
  then mk_locals ((gc + 1 + dist n end_, n) :: open_set l)
                 (<[n := current]> (came_from l))
                 (<[n := gc + 1]> (g_score l))
                 (<[n := gc + 1 + dist n end_]> (f_score l))
  else l.

Lemma relax_run (end_ current n : cell) (gc : Z) (l : locals) (s : t) :
  g_score l !! current = Some gc →
  relax end_ current n l s = (Ok (relax_pure end_ current gc l n), s).
Proof.
  intros Hg. unfold relax, relax_pure. rewrite bind_run.
  unfold lift at 1, dict_getitem at 1. rewrite Hg.
  destruct (match g_score l !! n with None => true | Some gn => _ end); [|done].
  rewrite bind_run. unfold lift at 1, dict_getitem at 1.
  rewrite lookup_insert_eq. rewrite bind_run, heuristic_run.
  rewrite bind_run. unfold lift at 1, dict_getitem at 1.
  by rewrite lookup_insert_eq.
Qed.

Lemma relax_pure_g_other (end_ current n x : cell) (gc : Z) (l : locals) :
  x ≠ n → g_score (relax_pure end_ current gc l n) !! x = g_score l !! x.
Proof.
  intros Hne. unfold relax_pure.
  destruct (match g_score l !! n with None => true | Some gn => _ end); [|done].
  simpl. by rewrite lookup_insert_ne.
Qed.

Lemma for_fold_relax_run (end_ current : cell) (gc : Z) (s : t)
    (ns : list cell) (l : locals) :
  current ∉ ns → g_score l !! current = Some gc →
  for_fold (relax end_ current) ns l s
  = (Ok (foldl (relax_pure end_ current gc) l ns), s).
Proof.
  revert l. induction ns as [|n ns IH]; intros l Hnin Hg; [done|].
  apply not_elem_of_cons in Hnin as [Hne Hnin].
  cbn [for_fold foldl]. rewrite bind_run, (relax_run _ _ _ gc) by done.
  apply IH; [done|]. by rewrite relax_pure_g_other.
Qed.

End Relax.

(** ** The loop invariant of [a_star_solve] *)

Lemma size_list_to_set_le (l : list cell) :
  (size (list_to_set l : gset cell) ≤ length l)%nat.
Proof.
  induction l as [|x l IH]; [done|]. simpl.
  rewrite size_union_alt, size_singleton.
  pose proof (subseteq_size (list_to_set l ∖ {[x]} : gset cell)
                (list_to_set l) (subseteq_difference_l _ _ _ (reflexivity _))).
  lia.
Qed.

Lemma sum_list_with_le {A} (f f' : A → nat) (l : list A) :
  (∀ x, f' x ≤ f x)%nat → (sum_list_with f' l ≤ sum_list_with f l)%nat.
Proof.
  intros Hle. induction l as [|y l IH]; simpl; [done|]. specialize (Hle y). lia.
Qed.

Lemma sum_list_with_decrease {A} (f f' : A → nat) (l : list A) (x0 : A) :
  (∀ x, f' x ≤ f x)%nat → x0 ∈ l → (f' x0 < f x0)%nat →
  (sum_list_with f' l < sum_list_with f l)%nat.
Proof.
  intros Hle Hin Hlt. induction l as [|x l IH]; [by apply elem_of_nil in Hin|].
  simpl. pose proof (sum_list_with_le f f' l Hle) as Hall.
  apply elem_of_cons in Hin as [<-|Hin].
  - lia.
  - specialize (IH Hin). specialize (Hle x). lia.
Qed.

Section SolverInvariant.
Import MazeSolver.
Variable grid : ndarray Z.
Variables start end_ : cell.

(** Every cell the search can ever hold: the start and the cells of the
    grid. *)
Definition universe : list cell :=
  start :: all_cells (nd_shape grid).1 (nd_shape grid).2.

Definition potential (g : gmap cell Z) (x : cell) : nat :=
  match g !! x with
  | Some v => Z.to_nat v
  | None => length universe
  end.

(** What is left to do: the entries queued, and how far every score can
    still go down. *)
Definition measure (l : locals) : nat :=
  (length (open_set l) + sum_list_with (potential (g_score l)) universe)%nat.

(** [busy] is the cell being expanded, whose queue entry is already taken
    out while its neighbors are not yet all relaxed. *)
Record inv (busy : cell → Prop) (l : locals) : Prop := mk_inv {
  inv_start_g : g_score l !! start = Some 0;
  inv_start_cf : came_from l !! start = None;
  inv_nonneg : ∀ n gn, g_score l !! n = Some gn → 0 ≤ gn;
  inv_parent : ∀ n p, came_from l !! n = Some p →
    step grid p n ∧
    ∃ gn gp, g_score l !! n = Some gn ∧ g_score l !! p = Some gp ∧ gp + 1 ≤ gn;
  inv_root : ∀ n, is_Some (g_score l !! n) →
    n = start ∨ is_Some (came_from l !! n);
  inv_open : ∀ f n, (f, n) ∈ open_set l →
    ∃ gn, g_score l !! n = Some gn ∧ (gn + dist n end_ ≤ f ∨ n = start);
  inv_settled : ∀ n gn, ¬ busy n → g_score l !! n = Some gn →
    (∃ f, (f, n) ∈ open_set l ∧ f ≤ gn + dist n end_) ∨
    (∀ m, step grid n m → ∃ gm, g_score l !! m = Some gm ∧ gm ≤ gn + 1);
  inv_end : is_Some (g_score l !! end_) → ∃ f, (f, end_) ∈ open_set l;
  inv_dom : ∀ n, is_Some (g_score l !! n) → n ∈ universe;
  inv_size : ∀ n gn, g_score l !! n = Some gn →
    gn < Z.of_nat (size (g_score l))
}.

Lemma size_le_universe (g : gmap cell Z) :
  (∀ n, is_Some (g !! n) → n ∈ universe) → (size g ≤ length universe)%nat.
Proof.
  intros Hdom. rewrite <- (size_dom (D := gset cell)).
  etrans; [|apply size_list_to_set_le]. apply subseteq_size.
  intros n Hn. apply elem_of_list_to_set, Hdom. by apply elem_of_dom.
Qed.

Lemma step_in_universe (u v : cell) : step grid u v → v ∈ universe.
Proof.
  intros [_ Ho%open_cell_in_bounds]. right. destruct v as [i j].
  by apply elem_of_all_cells.
Qed.

Lemma relax_pure_inv (busy : cell → Prop) (current n : cell) (gc : Z)
    (l : locals) :
  inv busy l → step grid current n → g_score l !! current = Some gc →
  let l' := relax_pure end_ current gc l n in
  inv busy l' ∧
  (∃ gn, g_score l' !! n = Some gn ∧ gn ≤ gc + 1) ∧
  (∀ m gm, g_score l !! m = Some gm →
     ∃ gm', g_score l' !! m = Some gm' ∧ gm' ≤ gm) ∧
  (measure l' ≤ measure l)%nat.
Proof.
  intros [Hsg Hsc Hnn Hpar Hroot Hopen Hset Hend Hdom Hsize] Hstep Hgc.
  pose proof (Hnn _ _ Hgc) as Hgc0.
  pose proof (adjacent_ne _ _ (proj1 Hstep)) as Hne.
  unfold relax_pure. simpl.
  destruct (g_score l !! n) as [gn|] eqn:Hgn.
  - destruct (gc + 1 <? gn) eqn:Hlt.
    + (* a shorter way to a cell already known *)
      assert (n ≠ start) as Hns.
      { intros ->. rewrite Hsg in Hgn. injection Hgn as <-. lia. }
      assert (size (<[n := gc + 1]> (g_score l)) = size (g_score l)) as Hsz.
      { apply map_size_insert_Some. by rewrite Hgn. }
      split_and!.
      * constructor; simpl.
        -- by rewrite lookup_insert_ne.
        -- by rewrite lookup_insert_ne.
        -- intros x gx. rewrite lookup_insert. case_decide; [|eauto].
           intros [= <-]. lia.
        -- intros x p. rewrite lookup_insert. case_decide as Hx.
           ++ subst x. intros [= <-]. split; [done|].
              exists (gc + 1), gc. rewrite lookup_insert_eq.
              rewrite lookup_insert_ne by done. split_and!; [done|done|lia].
           ++ intros Hcf. destruct (Hpar _ _ Hcf) as (Hst & gx & gp & Hx1 & Hp1 & Hle).
              split; [done|]. rewrite (lookup_insert_ne _ n x) by done.
              destruct (decide (p = n)) as [->|Hpn].
              ** exists gx, (gc + 1). rewrite lookup_insert_eq.
                 rewrite Hgn in Hp1. injection Hp1 as <-. split_and!; [done|done|lia].
              ** exists gx, gp. rewrite lookup_insert_ne by done. done.
        -- intros x. rewrite !lookup_insert. case_decide; [by right; eauto|auto].
        -- intros f x. rewrite elem_of_cons. intros [[= -> ->]|Hin].
           ++ exists (gc + 1). rewrite lookup_insert_eq. split; [done|]. left. lia.
           ++ destruct (Hopen _ _ Hin) as (gx & Hgx & Hf).
              destruct (decide (x = n)) as [->|Hxn].
              ** exists (gc + 1). rewrite lookup_insert_eq. split; [done|].
                 rewrite Hgn in Hgx. injection Hgx as <-.
                 destruct Hf; [left; lia | by right].
              ** exists gx. by rewrite lookup_insert_ne.
        -- intros x gx Hb. rewrite lookup_insert. case_decide as Hx.
           ++ subst x. intros [= <-]. left. exists (gc + 1 + dist n end_).
              split; [by left | lia].
           ++ intros Hgx. destruct (Hset _ _ Hb Hgx) as [(f & Hin & Hf)|Hs].
              ** left. exists f. split; [by right | done].
              ** right. intros m Hm. destruct (Hs m Hm) as (gm & Hgm & Hle).
                 destruct (decide (m = n)) as [->|Hmn].
                 --- exists (gc + 1). rewrite lookup_insert_eq. split; [done|].
                     rewrite Hgn in Hgm. injection Hgm as <-. lia.
                 --- exists gm. by rewrite lookup_insert_ne.
        -- rewrite lookup_insert. case_decide as Hx.
           ++ subst n. intros _. eexists. by left.
           ++ intros He. destruct (Hend He) as [f Hf]. exists f. by right.
        -- intros x. rewrite lookup_insert. case_decide as Hx; [|auto].
           subst x. intros _. apply Hdom. by rewrite Hgn.
        -- intros x gx. rewrite Hsz, lookup_insert. case_decide as Hx; [|eauto].
           intros [= <-]. specialize (Hsize _ _ Hgn). lia.
      * exists (gc + 1). simpl. by rewrite lookup_insert_eq.
      * intros m gm Hm. simpl. destruct (decide (m = n)) as [->|Hmn].
        -- exists (gc + 1). rewrite lookup_insert_eq. split; [done|].
           rewrite Hgn in Hm. injection Hm as <-. lia.
        -- exists gm. by rewrite lookup_insert_ne.
      * unfold measure. cbn [open_set g_score]. rewrite length_cons.
        assert (sum_list_with (potential (<[n := (gc + 1)%Z]> (g_score l))) universe
                < sum_list_with (potential (g_score l)) universe)%nat; [|lia].
        apply (sum_list_with_decrease _ _ _ n).
        -- intros x. unfold potential. rewrite lookup_insert.
           case_decide as Hx; [|done]. subst x. rewrite Hgn. lia.
        -- apply Hdom. by rewrite Hgn.
        -- unfold potential. rewrite lookup_insert_eq, Hgn. lia.
    + split_and!; [done| | |done].
      * exists gn. split; [done|lia].
      * intros m gm Hm. exists gm. split; [done|lia].
  - (* a cell seen for the first time *)
    assert (n ≠ start) as Hns.
    { intros ->. by rewrite Hsg in Hgn. }
    assert (size (<[n := gc + 1]> (g_score l)) = S (size (g_score l))) as Hsz.
    { by apply map_size_insert_None. }
    assert (∀ x, is_Some (<[n := gc + 1]> (g_score l) !! x) → x ∈ universe)
      as Hdom'.
    { intros x. rewrite lookup_insert. case_decide as Hx; [|auto].
      subst x. intros _. by apply (step_in_universe current). }
    pose proof (size_le_universe _ Hdom') as Hbound. rewrite Hsz in Hbound.
    pose proof (Hsize _ _ Hgc) as Hgcs.
    split_and!.
    * constructor; simpl.
      -- by rewrite lookup_insert_ne.
      -- by rewrite lookup_insert_ne.
      -- intros x gx. rewrite lookup_insert. case_decide; [|eauto].
         intros [= <-]. lia.
      -- intros x p. rewrite lookup_insert. case_decide as Hx.
         ++ subst x. intros [= <-]. split; [done|].
            exists (gc + 1), gc. rewrite lookup_insert_eq.
            rewrite lookup_insert_ne by done. split_and!; [done|done|lia].
         ++ intros Hcf. destruct (Hpar _ _ Hcf) as (Hst & gx & gp & Hx1 & Hp1 & Hle).
            split; [done|]. rewrite (lookup_insert_ne _ n x) by done.
            destruct (decide (p = n)) as [->|Hpn]; [congruence|].
            exists gx, gp. by rewrite lookup_insert_ne.
      -- intros x. rewrite !lookup_insert. case_decide; [by right; eauto|auto].
      -- intros f x. rewrite elem_of_cons. intros [[= -> ->]|Hin].
         ++ exists (gc + 1). rewrite lookup_insert_eq. split; [done|]. left. lia.
         ++ destruct (Hopen _ _ Hin) as (gx & Hgx & Hf).
            destruct (decide (x = n)) as [->|Hxn]; [congruence|].
            exists gx. by rewrite lookup_insert_ne.
      -- intros x gx Hb. rewrite lookup_insert. case_decide as Hx.
         ++ subst x. intros [= <-]. left. exists (gc + 1 + dist n end_).
            split; [by left | lia].
         ++ intros Hgx. destruct (Hset _ _ Hb Hgx) as [(f & Hin & Hf)|Hs].
            ** left. exists f. split; [by right | done].
            ** right. intros m Hm. destruct (Hs m Hm) as (gm & Hgm & Hle).
               destruct (decide (m = n)) as [->|Hmn]; [congruence|].
               exists gm. by rewrite lookup_insert_ne.
      -- rewrite lookup_insert. case_decide as Hx.
         ++ subst n. intros _. eexists. by left.
         ++ intros He. destruct (Hend He) as [f Hf]. exists f. by right.
      -- done.
      -- intros x gx. rewrite Hsz, lookup_insert. case_decide as Hx.
         ++ intros [= <-]. lia.
         ++ intros Hgx. specialize (Hsize _ _ Hgx). lia.
    * exists (gc + 1). simpl. by rewrite lookup_insert_eq.
    * intros m gm Hm. simpl. destruct (decide (m = n)) as [->|Hmn]; [congruence|].
      exists gm. by rewrite lookup_insert_ne.
    * unfold measure. cbn [open_set g_score]. rewrite length_cons.
      assert (sum_list_with (potential (<[n := (gc + 1)%Z]> (g_score l))) universe
              < sum_list_with (potential (g_score l)) universe)%nat; [|lia].
      apply (sum_list_with_decrease _ _ _ n).
      -- intros x. unfold potential. rewrite lookup_insert.
         case_decide as Hx; [|done]. subst x. rewrite Hgn. lia.
      -- by apply (step_in_universe current).
      -- unfold potential. rewrite lookup_insert_eq, Hgn. lia.
Qed.

Lemma expand_inv (current : cell) (gc : Z) (ns : list cell) (l : locals) :
  (∀ n, n ∈ ns → step grid current n) →
  inv (λ x, x = current) l → g_score l !! current = Some gc →
  let l' := foldl (relax_pure end_ current gc) l ns in
  inv (λ x, x = current) l' ∧ g_score l' !! current = Some gc ∧
  (∀ m, m ∈ ns → ∃ gm, g_score l' !! m = Some gm ∧ gm ≤ gc + 1) ∧
  (∀ m gm, g_score l !! m = Some gm →
     ∃ gm', g_score l' !! m = Some gm' ∧ gm' ≤ gm) ∧
  (measure l' ≤ measure l)%nat.
Proof.
  revert l. induction ns as [|n ns IH]; intros l Hns Hinv Hgc; simpl.
  { split_and!; [done|done| | |done].
    - intros m Hm. by apply elem_of_nil in Hm.
    - intros m gm Hm. exists gm. split; [done|lia]. }
  assert (step grid current n) as Hstep by (apply Hns; by left).
  destruct (relax_pure_inv _ current n gc l Hinv Hstep Hgc)
    as (Hinv1 & (gn & Hgn & Hle) & Hmono1 & Hmeas1).
  assert (g_score (relax_pure end_ current gc l n) !! current = Some gc) as Hgc1.
  { rewrite relax_pure_g_other; [done|]. apply adjacent_ne, Hstep. }
  destruct (IH (relax_pure end_ current gc l n)) as (Hinv' & Hgc' & Hdone & Hmono & Hmeas);
    [intros m Hm; apply Hns; by right|done|done|].
  split_and!; [done|done| | |lia].
  - intros m [->|Hm]%elem_of_cons; [|by apply Hdone].
    destruct (Hmono _ _ Hgn) as (gm' & Hgm' & Hle'). exists gm'. split; [done|lia].
  - intros m gm Hm. destruct (Hmono1 _ _ Hm) as (gm1 & Hgm1 & Hle1).
    destruct (Hmono _ _ Hgm1) as (gm' & Hgm' & Hle'). exists gm'. split; [done|lia].
Qed.

Lemma pop_inv (l : locals) (f : Z) (current : cell) (rest : list entry) :
  inv (λ _, False) l → pq_get (open_set l) = Some ((f, current), rest) →
  current ≠ end_ →
  let l0 := mk_locals rest (came_from l) (g_score l) (f_score l) in
  inv (λ x, x = current) l0 ∧ (measure l0 < measure l)%nat ∧
  ∃ gc, g_score l !! current = Some gc.
Proof.
  intros [Hsg Hsc Hnn Hpar Hroot Hopen Hset Hend Hdom Hsize] Hget Hne.
  apply pq_get_spec in Hget as (Hin & Hmin & Hsub & Hother & Hlen).
  split_and!.
  - constructor; simpl; try done.
    + intros f' n Hn. apply Hopen, Hsub, Hn.
    + intros n gn Hb Hgn. destruct (Hset n gn) as [(f' & Hf & Hle)|Hs]; [tauto|done| |by right].
      left. exists f'. split; [|done]. apply Hother; [done|]. congruence.
    + intros He. destruct (Hend He) as [f' Hf]. exists f'.
      apply Hother; [done|]. congruence.
  - unfold measure. simpl. lia.
  - destruct (Hopen _ _ Hin) as (gc & Hgc & _). by exists gc.
Qed.

Lemma expanded_inv (l : locals) (current : cell) (gc : Z) :
  inv (λ x, x = current) l → g_score l !! current = Some gc →
  (∀ m, step grid current m → ∃ gm, g_score l !! m = Some gm ∧ gm ≤ gc + 1) →
  inv (λ _, False) l.
Proof.
  intros [Hsg Hsc Hnn Hpar Hroot Hopen Hset Hend Hdom Hsize] Hgc Hdone.
  constructor; try done.
  intros n gn _ Hgn. destruct (decide (n = current)) as [->|Hn]; [|by apply Hset].
  right. rewrite Hgc in Hgn. by injection Hgn as <-.
Qed.

(** A path from [u], one move after the other. *)
Inductive route (u : cell) : cell → list cell → Prop :=
| route_here : route u u [u]
| route_move v w p : route u v p → step grid v w → route u w (p ++ [w]).

Lemma reconstruct_spec (busy : cell → Prop) (l : locals) :
  inv busy l → ∀ steps current gcur acc,
  g_score l !! current = Some gcur →
  match reconstruct steps (came_from l) current acc with
  | Ok p => ∃ chain, p = acc ++ chain ∧
                     route start current (reverse (chain ++ [start])) ∧
                     Z.of_nat (length chain) ≤ gcur
  | Raise _ => False
  | OutOfFuel => Z.of_nat steps ≤ gcur
  end.
Proof.
  intros [Hsg Hsc Hnn Hpar Hroot Hopen Hset Hend Hdom Hsize].
  induction steps as [|steps IH]; intros current gcur acc Hg; simpl.
  { specialize (Hnn _ _ Hg). lia. }
  destruct (came_from l !! current) as [p|] eqn:Hcf.
  - destruct (Hpar _ _ Hcf) as (Hstep & gn & gp & Hgn & Hgp & Hle).
    rewrite Hg in Hgn. injection Hgn as <-.
    specialize (IH p gp (acc ++ [current]) Hgp).
    destruct (reconstruct steps (came_from l) p (acc ++ [current])) as [res| |];
      [|done|lia].
    destruct IH as (chain & -> & Hroute & Hlen).
    exists (current :: chain). split_and!.
    + by rewrite <- app_assoc.
    + rewrite <- app_comm_cons, reverse_cons. by eapply route_move.
    + simpl length. lia.
  - exists []. split_and!.
    + by rewrite app_nil_r.
    + destruct (Hroot current) as [->|[? ?]]; [by eexists| |congruence].
      simpl. apply route_here.
    + simpl. by eapply Hnn.
Qed.

(** When [end_] comes out of the queue, its score is at most the length of
    any walk from the start. *)
Lemma g_end_optimal (l : locals) (f : Z) (rest : list entry) :
  inv (λ _, False) l → pq_get (open_set l) = Some ((f, end_), rest) →
  ∀ k u gu, nsteps (step grid) k u end_ → g_score l !! u = Some gu →
  ∃ ge, g_score l !! end_ = Some ge ∧ ge ≤ gu + Z.of_nat k.
Proof.
  intros [Hsg Hsc Hnn Hpar Hroot Hopen Hset Hend Hdom Hsize] Hget.
  apply pq_get_spec in Hget as (Hin & Hmin & _).
  destruct (Hopen _ _ Hin) as (ge & Hge & Hf).
  intros k. induction k as [|k IH]; intros x gu Hwalk Hgu;
    inversion Hwalk as [|? ? y ? Hxy Hyz]; subst.
  - exists gu. split; [done|lia].
  - pose proof (Hnn _ _ Hgu) as Hgu0.
    destruct (Hset x gu) as [(f' & Hf' & Hle)|Hs]; [tauto|done| |].
    + (* [x] is still queued: the end came out before it *)
      exists ge. split; [done|].
      apply Hmin, entry_le_priority in Hf'. simpl in Hf'.
      pose proof (dist_nsteps grid (S k) x end_ Hwalk).
      destruct Hf as [Hf| ->]; [unfold dist in Hf; lia|].
      rewrite Hsg in Hge. injection Hge as <-. lia.
    + (* [x] is expanded: go on from the next cell of the walk *)
      destruct (Hs y Hxy) as (gy & Hgy & Hley).
      destruct (IH y gy Hyz Hgy) as (ge' & Hge' & Hle'). exists ge'. split; [done|lia].
Qed.

(** With the queue empty every cell given a score has all its neighbors
    scored, so whatever can be walked to from the start has a score. *)
Lemma exhausted_closed (l : locals) :
  inv (λ _, False) l → open_set l = [] →
  ∀ k u, nsteps (step grid) k u end_ → is_Some (g_score l !! u) → False.
Proof.
  intros [Hsg Hsc Hnn Hpar Hroot Hopen Hset Hend Hdom Hsize] Hempty k.
  induction k as [|k IH]; intros x Hwalk Hu;
    inversion Hwalk as [|? ? y ? Hxy Hyz]; subst.
  - destruct (Hend Hu) as [f Hf]. rewrite Hempty in Hf. by apply elem_of_nil in Hf.
  - destruct Hu as [gu Hgu].
    destruct (Hset x gu) as [(f' & Hf' & _)|Hs]; [tauto|done| |].
    + rewrite Hempty in Hf'. by apply elem_of_nil in Hf'.
    + destruct (Hs y Hxy) as (gy & Hgy & _). apply (IH y Hyz). by exists gy.
Qed.

(** What [a_star_solve] may answer: a shortest path, or nothing when no walk
    leads from the start to the end. *)
Definition answer (r : option (list cell)) : Prop :=
  match r with
  | Some p => route start end_ p ∧
              ∀ k, nsteps (step grid) k start end_ → (length p ≤ S k)%nat
  | None => ∀ k, ¬ nsteps (step grid) k start end_
  end.

Lemma a_star_loop_spec (steps fuel : nat) : ∀ l, inv (λ _, False) l →
  match a_star_loop fuel steps start end_ l (__init__ grid) with
  | (Ok r, s) => s = __init__ grid ∧ answer r
  | (Raise _, _) => False
  | (OutOfFuel, s) =>
      s = __init__ grid ∧
      ((fuel ≤ measure l)%nat ∨ (steps < length universe)%nat)
  end.
Proof.
  induction fuel as [|fuel IH]; intros l Hinv.
  { simpl. split; [done|]. left. lia. }
  cbn [a_star_loop].
  destruct (pq_get (open_set l)) as [[[f current] rest]|] eqn:Hget.
  - destruct (decide (current = end_)) as [->|Hne].
    + (* the end comes out of the queue *)
      rewrite bind_run. unfold lift.
      pose proof Hget as Hget'.
      apply pq_get_spec in Hget' as (Hin & _).
      destruct (inv_open _ _ Hinv _ _ Hin) as (ge & Hge & _).
      pose proof (reconstruct_spec _ l Hinv steps end_ ge [] Hge) as Hrec.
      destruct (reconstruct steps (came_from l) end_ []) as [p| |]; [|done|].
      * destruct Hrec as (chain & -> & Hroute & Hlen). simpl.
        split; [done|]. split; [done|]. intros k Hk.
        destruct (g_end_optimal l f rest Hinv Hget k start 0 Hk
                    (inv_start_g _ _ Hinv)) as (ge' & Hge' & Hle).
        rewrite Hge in Hge'. injection Hge' as <-.
        rewrite length_reverse, length_app. simpl. lia.
      * split; [done|]. right.
        pose proof (inv_size _ _ Hinv _ _ Hge).
        pose proof (size_le_universe _ (inv_dom _ _ Hinv)). lia.
    + (* another cell comes out and is expanded *)
      destruct (pop_inv l f current rest Hinv Hget Hne) as (Hinv0 & Hm0 & gc & Hgc).
      rewrite bind_run, get_neighbors_run. rewrite bind_run.
      rewrite (for_fold_relax_run _ _ gc); [|..|done].
      2:{ intros [Hadj _]%elem_of_neighbors. by apply adjacent_ne in Hadj. }
      destruct (expand_inv current gc (neighbors grid current) _
                  (λ n Hn, proj1 (elem_of_neighbors grid current n) Hn)
                  Hinv0 Hgc) as (Hinv1 & Hgc1 & Hdone & _ & Hm1).
      assert (inv (λ _, False)
                (foldl (relax_pure end_ current gc)
                   (mk_locals rest (came_from l) (g_score l) (f_score l))
                   (neighbors grid current))) as Hinv2.
      { apply (expanded_inv _ current gc); [done|done|].
        intros m Hm. by apply Hdone, elem_of_neighbors. }
      specialize (IH _ Hinv2).
      destruct (a_star_loop fuel steps start end_ _ (__init__ grid)) as [[r|e|] s];
        [done|done|].
      destruct IH as [-> [Hf|Hs]]; (split; [done|]); [left; lia | by right].
  - (* the queue is empty *)
    simpl. split; [done|]. intros k Hk.
    destruct (open_set l) as [|e q] eqn:Hq; [|done].
    eapply (exhausted_closed l Hinv Hq k start Hk).
    rewrite (inv_start_g _ _ Hinv). by eexists.
Qed.

(** The state in which [a_star_solve] enters its loop. *)
Lemma initial_inv :
  inv (λ _, False)
    (mk_locals (pq_put [] (0, start)) ∅ {[start := 0]}
               {[start := dist start end_]}).
Proof.
  constructor; simpl.
  - by rewrite lookup_singleton_eq.
  - done.
  - intros n gn [<- <-]%lookup_singleton_Some. lia.
  - intros n p. by rewrite lookup_empty.
  - intros n [gn [<- _]%lookup_singleton_Some]. by left.
  - intros f n [= -> ->]%list_elem_of_singleton. exists 0.
    rewrite lookup_singleton_eq. split; [done|by right].
  - intros n gn _ [<- <-]%lookup_singleton_Some. left. exists 0.
    split; [by apply list_elem_of_singleton|]. unfold dist. lia.
  - intros [ge [<- _]%lookup_singleton_Some]. exists 0.
    by apply list_elem_of_singleton.
  - intros n [gn [<- _]%lookup_singleton_Some]. by left.
  - intros n gn [<- <-]%lookup_singleton_Some. rewrite map_size_singleton. lia.
Qed.

Lemma initial_measure :
  (measure (mk_locals (pq_put [] (0%Z, start)) ∅ {[start := 0%Z]}
                      {[start := dist start end_]})
   ≤ S (length universe * length universe))%nat.
Proof.
  unfold measure. cbn [open_set g_score pq_put length].
  assert (∀ l : list cell,
    sum_list_with (potential {[start := 0%Z]}) l ≤ length l * length universe)%nat
    as Hsum.
  { induction l as [|x l IH]; [simpl; lia|].
    assert (potential {[start := 0%Z]} x ≤ length universe)%nat.
    { unfold potential. destruct (decide (x = start)) as [->|Hx].
      - rewrite lookup_singleton_eq. lia.
      - by rewrite lookup_singleton_ne. }
    cbn [sum_list_with length]. lia. }
  specialize (Hsum universe). lia.
Qed.

End SolverInvariant.

Arguments route _ _ _ _ : clear implicits.

(** ** Paths *)

Lemma route_shape (grid : ndarray Z) (u v : cell) (p : list cell) :
  route grid u v p →
  ∃ tail, p = u :: tail ∧ last p = Some v ∧
          Forall (λ c, open_cell grid c = true) tail.
Proof.
  induction 1 as [|v w p _ (tail & -> & Hlast & Hopen) [_ Hw]].
  - by exists [].
  - exists (tail ++ [w]). split_and!.
    + done.
    + by rewrite last_snoc.
    + apply Forall_app. split; [done|]. by apply Forall_singleton.
Qed.

Lemma route_adjacent (grid : ndarray Z) (u v : cell) (p : list cell) :
  route grid u v p →
  ∀ i a b, p !! i = Some a → p !! S i = Some b → adjacent a b.
Proof.
  induction 1 as [|v w p Hroute IH [Hvw _]]; intros i a b Ha Hb.
  - by destruct i.
  - destruct (route_shape _ _ _ _ Hroute) as (_ & _ & Hlast & _).
    destruct (decide (S i < length p)%nat) as [Hlt|Hge].
    + rewrite lookup_app_l in Ha by lia. rewrite lookup_app_l in Hb by lia. eauto.
    + pose proof (lookup_lt_Some _ _ _ Hb) as Hlen.
      rewrite length_app in Hlen. simpl in Hlen.
      assert (S i = length p) as Hi by lia.
      rewrite lookup_app_l in Ha by lia.
      rewrite last_lookup, <- Hi in Hlast. simpl in Hlast.
      rewrite Hi, list_lookup_middle in Hb by done. congruence.
Qed.

Lemma route_nsteps (grid : ndarray Z) (u v : cell) (p : list cell) :
  route grid u v p → nsteps (step grid) (length p - 1) u v.
Proof.
  induction 1 as [|v w p Hroute IH Hvw]; [constructor|].
  destruct (route_shape _ _ _ _ Hroute) as (tail & -> & _).
  rewrite length_app. simpl in *.
  replace (length tail + 1 - 0)%nat with (S (length tail - 0)) by lia.
  by eapply nsteps_r.
Qed.

(** A cell walked to is the cell walked from or a cell that is not a wall. *)
Lemma reach_open (grid : ndarray Z) (u v : cell) :
  rtc (step grid) u v → u = v ∨ open_cell grid v = true.
Proof.
  intros H. apply rtc_inv_r in H as [->|(w & _ & _ & Hv)]; [by left|by right].
Qed.

(** No walk leaves a set of cells that holds the neighbors of its members. *)
Definition closed_under_moves (grid : ndarray Z) (cells : list cell) : bool :=
  forallb (λ u, forallb (λ v, bool_decide (v ∈ cells)) (neighbors grid u)) cells.

Lemma reach_closed (grid : ndarray Z) (cells : list cell) (u v : cell) :
  closed_under_moves grid cells = true → u ∈ cells →
  rtc (step grid) u v → v ∈ cells.
Proof.
  intros Hcl Hu Hreach. induction Hreach as [|x y z Hxy _ IH]; [done|].
  apply IH. unfold closed_under_moves in Hcl.
  rewrite forallb_forall in Hcl. specialize (Hcl x).
  rewrite <- list_elem_of_In in Hcl. specialize (Hcl Hu).
  rewrite forallb_forall in Hcl. specialize (Hcl y).
  rewrite <- list_elem_of_In, elem_of_neighbors in Hcl.
  specialize (Hcl Hxy). by apply bool_decide_eq_true in Hcl.
Qed.

(** ** The solver: the claims *)

(** Iterations that always suffice on [grid]. *)
Definition solve_fuel (grid : ndarray Z) : nat :=
  let m := S (Z.to_nat (nd_shape grid).1 * Z.to_nat (nd_shape grid).2) in
  S (S (m * m)).

Lemma solve_spec (fuel : nat) (grid : ndarray Z) (start end_ : cell) :
  match MazeSolver.solve fuel grid start end_ with
  | (Ok r, s) => s = MazeSolver.__init__ grid ∧ answer grid start end_ r
  | (Raise _, _) => False
  | (OutOfFuel, _) => (fuel < solve_fuel grid)%nat
  end.
Proof.
  unfold MazeSolver.solve, MazeSolver.a_star_solve.
  rewrite bind_run. simpl. rewrite bind_run, heuristic_run.
  pose proof (a_star_loop_spec grid start end_ fuel fuel _
                (initial_inv grid start end_)) as H.
  destruct (MazeSolver.a_star_loop _ _ _ _ _ _) as [[r|e|] s]; [done|done|].
  destruct H as [_ H]. pose proof (initial_measure grid start end_) as Hm.
  unfold solve_fuel. unfold universe in *. simpl length in *.
  rewrite length_all_cells in *. simpl. nia.
Qed.

(** Called without arguments, as [main] does: from the top-left corner to
    the bottom-right one. *)
Lemma a_star_solve_default (fuel : nat) (grid : ndarray Z) :
  MazeSolver.a_star_solve fuel (0, 0) None (MazeSolver.__init__ grid)
  = MazeSolver.solve fuel grid (0, 0)
      ((nd_shape grid).1 - 1, (nd_shape grid).2 - 1).
Proof. reflexivity. Qed.

Lemma solve_total (fuel : nat) (grid : ndarray Z) (start end_ : cell) :
  (solve_fuel grid ≤ fuel)%nat →
  ∃ r, MazeSolver.solve fuel grid start end_ = (Ok r, MazeSolver.__init__ grid) ∧
       answer grid start end_ r.
Proof.
  intros Hf. pose proof (solve_spec fuel grid start end_) as H.
  destruct (MazeSolver.solve fuel grid start end_) as [[r|e|] s]; [|done|lia].
  destruct H as [-> H]. by exists r.
Qed.

Lemma solve_partial (fuel : nat) (grid : ndarray Z) (start end_ : cell) r :
  (MazeSolver.solve fuel grid start end_).1 = Ok r → answer grid start end_ r.
Proof.
  intros Hr. pose proof (solve_spec fuel grid start end_) as H.
  destruct (MazeSolver.solve fuel grid start end_) as [[r'|e|] s]; [|done..].
  simpl in Hr. injection Hr as ->. by destruct H.
Qed.

(** C1. Whenever [a_star_solve] returns a path, its number of moves is the
    true shortest-path length from start to end over unit moves into cells
    of the grid that are not walls: it is what the reference breadth-first
    search computes on the same grid, the path is such a walk, and no such
    walk has fewer moves.  (Holds for every start and end, in bounds or
    not.) *)
Theorem a_star_path_is_shortest
    (fuel : nat) (grid : ndarray Z) (start end_ : cell) (p : list cell) :
  (MazeSolver.solve fuel grid start end_).1 = Ok (Some p) →
  (∀ n, (length p ≤ n)%nat →
        bfs_distance n grid start end_ = Some (length p - 1)%nat) ∧
  nsteps (step grid) (length p - 1) start end_ ∧
  ∀ k, nsteps (step grid) k start end_ → (length p - 1 ≤ k)%nat.
Proof.
  intros Hr. apply solve_partial in Hr as [Hroute Hmin].
  assert (at_distance grid start (length p - 1) end_) as Hd.
  { split; [by apply route_nsteps|]. intros k Hk. specialize (Hmin k Hk). lia. }
  split; [|done]. intros n Hn. apply bfs_distance_complete; [done|].
  destruct (route_shape _ _ _ _ Hroute) as (tail & -> & _). simpl in *. lia.
Qed.

Lemma a_star_path_is_shortest_witness :
  let grid := nd_of_rows [[1; 1; 1]; [1; 0; 1]; [1; 0; 1]] in
  let p := [(2, 0); (1, 0); (0, 0); (0, 1); (0, 2); (1, 2); (2, 2)] in
  (∀ n, (length p ≤ n)%nat →
        bfs_distance n grid (2, 0) (2, 2) = Some (length p - 1)%nat) ∧
  nsteps (step grid) (length p - 1) (2, 0) (2, 2) ∧
  ∀ k, nsteps (step grid) k (2, 0) (2, 2) → (length p - 1 ≤ k)%nat.
Proof.
  apply (a_star_path_is_shortest 100). vm_compute. reflexivity.
Defined.

(** C2, as the code has it. Whenever [a_star_solve] returns a path, its
    first element is the start, its last element is the end, consecutive
    cells differ by one unit step along one axis, and every cell after the
    first is a cell of the grid that is not a wall.  The start cell itself
    is never looked up: the whole path consists of such cells exactly when
    the start is one. *)
Theorem a_star_path_is_walk
    (fuel : nat) (grid : ndarray Z) (start end_ : cell) (p : list cell) :
  (MazeSolver.solve fuel grid start end_).1 = Ok (Some p) →
  head p = Some start ∧ last p = Some end_ ∧
  (∀ i a b, p !! i = Some a → p !! S i = Some b → adjacent a b) ∧
  (∀ i c, p !! S i = Some c → open_cell grid c = true) ∧
  (open_cell grid start = true → Forall (λ c, open_cell grid c = true) p).
Proof.
  intros Hr. apply solve_partial in Hr as [Hroute _].
  destruct (route_shape _ _ _ _ Hroute) as (tail & -> & Hlast & Hopen).
  split_and!; [done|done| | |].
  - by eapply route_adjacent.
  - intros i c Hc. simpl in Hc. rewrite Forall_lookup in Hopen. by eapply Hopen.
  - intros Hs. by constructor.
Qed.

Lemma a_star_path_is_walk_witness :
  let grid := nd_of_rows [[1; 1; 1]; [1; 0; 1]; [1; 0; 1]] in
  let p := [(2, 0); (1, 0); (0, 0); (0, 1); (0, 2); (1, 2); (2, 2)] in
  head p = Some (2, 0) ∧ last p = Some (2, 2) ∧
  (∀ i a b, p !! i = Some a → p !! S i = Some b → adjacent a b) ∧
  (∀ i c, p !! S i = Some c → open_cell grid c = true) ∧
  (open_cell grid (2, 0) = true → Forall (λ c, open_cell grid c = true) p).
Proof.
  apply (a_star_path_is_walk 100). vm_compute. reflexivity.
Defined.

(** C2 as the specification words it does not hold: from a start that is a
    wall the solver walks to the neighboring end and returns a path whose
    first cell is that wall. *)
Lemma a_star_path_wall_start_counterexample :
  let grid := nd_of_rows [[0; 1]] in
  (MazeSolver.solve 5 grid (0, 0) (0, 1)).1 = Ok (Some [(0, 0); (0, 1)]) ∧
  nd_getitem grid (0, 0) = Ok Wall ∧
  ¬ Forall (λ c, open_cell grid c = true) [(0, 0); (0, 1)].
Proof.
  split_and!; [by vm_compute..|].
  intros H. apply Forall_cons in H as [H _]. by vm_compute in H.
Qed.

(** C3. When no walk leads from start to end, [a_star_solve] ends, with any
    budget from [solve_fuel] on, by returning [None]: not a path, not an
    exception. *)
Theorem a_star_no_path
    (fuel : nat) (grid : ndarray Z) (start end_ : cell) :
  ¬ rtc (step grid) start end_ → (solve_fuel grid ≤ fuel)%nat →
  MazeSolver.solve fuel grid start end_ = (Ok None, MazeSolver.__init__ grid).
Proof.
  intros Hno Hfuel.
  destruct (solve_total fuel grid start end_ Hfuel) as ([p|] & -> & Hans); [|done].
  destruct Hno. destruct Hans as [Hroute _]. apply route_nsteps in Hroute.
  by eapply rtc_nsteps_2.
Qed.

(** A complete wall row between start and end. *)
Lemma a_star_no_path_witness :
  let grid := nd_of_rows [[1; 1]; [0; 0]; [1; 1]] in
  MazeSolver.solve 100 grid (0, 0) (2, 1) = (Ok None, MazeSolver.__init__ grid).
Proof.
  apply a_star_no_path.
  - intros H. apply (reach_closed _ [(0, 0); (0, 1)]) in H.
    + apply elem_of_cons in H as [[=]|H]. apply elem_of_cons in H as [[=]|H].
      by apply elem_of_nil in H.
    + by vm_compute.
    + by left.
  - vm_compute. lia.
Defined.

(** C7, as the code has it. No bounds check exists and no error is raised:
    with start or end outside the grid [a_star_solve] returns like for any
    other cells, and with the end outside and different from the start what
    it returns is [None]. *)
Theorem a_star_out_of_bounds_no_error
    (fuel : nat) (grid : ndarray Z) (start end_ : cell) :
  ¬ in_bounds grid start ∨ ¬ in_bounds grid end_ →
  (solve_fuel grid ≤ fuel)%nat →
  ∃ r, MazeSolver.solve fuel grid start end_ = (Ok r, MazeSolver.__init__ grid) ∧
       (¬ in_bounds grid end_ → start ≠ end_ → r = None).
Proof.
  intros _ Hfuel.
  destruct (solve_total fuel grid start end_ Hfuel) as (r & -> & Hans).
  exists r. split; [done|]. intros Hout Hne.
  destruct r as [p|]; [|done]. destruct Hans as [Hroute _].
  apply route_nsteps, rtc_nsteps_2, reach_open in Hroute as [?|Ho]; [done|].
  by apply open_cell_in_bounds in Ho.
Qed.

Lemma a_star_out_of_bounds_no_error_witness :
  let grid := nd_of_rows [[1; 1]] in
  ∃ r, MazeSolver.solve 100 grid (0, 0) (0, 2) = (Ok r, MazeSolver.__init__ grid) ∧
       (¬ in_bounds grid (0, 2) → (0, 0) ≠ (0, 2) → r = None).
Proof.
  apply a_star_out_of_bounds_no_error.
  - right. unfold in_bounds. simpl. lia.
  - vm_compute. lia.
Defined.

(** C7 as the specification words it does not hold: an end outside the grid
    gives [None], and a start outside the grid is searched from. *)
Lemma a_star_out_of_bounds_counterexample :
  let grid := nd_of_rows [[1]] in
  ¬ in_bounds grid (5, 5) ∧ ¬ in_bounds grid (-1, 0) ∧
  (MazeSolver.solve 5 grid (0, 0) (5, 5)).1 = Ok None ∧
  (MazeSolver.solve 5 grid (-1, 0) (0, 0)).1 = Ok (Some [(-1, 0); (0, 0)]) ∧
  (MazeSolver.solve 5 grid (0, 0) (5, 5)).1 ≠ Raise "OutOfBounds"%string.
Proof.
  split_and!; [unfold in_bounds; simpl; lia..| | |]; by vm_compute.
Qed.

(** ** The solver object across a call *)

Section SolverFrame.
Import MazeSolver.

Lemma preserves_get_neighbors (current : cell) :
  preserves (λ s : t, s) (get_neighbors current).
Proof.
  destruct current as [x y]. unfold get_neighbors.
  apply preserves_for_fold. intros [dx dy] acc.
  apply preserves_bind; [apply preserves_gets|]. intros h.
  destruct (_ && _); [|apply preserves_ret].
  apply preserves_bind; [apply preserves_gets|]. intros w.
  destruct (_ && _); [|apply preserves_ret].
  apply preserves_bind; [apply preserves_gets|]. intros m.
  apply preserves_bind; [apply preserves_lift|]. intros v.
  destruct (negb _); apply preserves_ret.
Qed.

Lemma preserves_relax (end_ current neighbor : cell) (l : locals) :
  preserves (λ s : t, s) (relax end_ current neighbor l).
Proof.
  unfold relax. apply preserves_bind; [apply preserves_lift|]. intros gc.
  destruct (match g_score l !! neighbor with None => true | Some g => _ end);
    [|apply preserves_ret].
  apply preserves_bind; [apply preserves_lift|]. intros gn.
  apply preserves_bind; [apply preserves_ret|]. intros h.
  apply preserves_bind; [apply preserves_lift|]. intros fn.
  apply preserves_ret.
Qed.

Lemma preserves_a_star_loop (fuel steps : nat) (start end_ : cell) (l : locals) :
  preserves (λ s : t, s) (a_star_loop fuel steps start end_ l).
Proof.
  revert l. induction fuel as [|fuel IH]; intros l;
    [apply preserves_out_of_fuel|].
  cbn [a_star_loop].
  destruct (pq_get (open_set l)) as [[[f current] rest]|]; [|apply preserves_ret].
  destruct (decide (current = end_)) as [Heq|Hne].
  - apply preserves_bind; [apply preserves_lift|]. intros path.
    apply preserves_ret.
  - apply preserves_bind; [apply preserves_get_neighbors|]. intros ns.
    apply preserves_bind; [|done].
    apply preserves_for_fold. intros nb acc. apply preserves_relax.
Qed.

End SolverFrame.

(** C9. [a_star_solve] does not modify the grid it is given: after the call,
    whatever its outcome, the solver object, and with it the array
    [self.maze], is what it was before. *)
Theorem a_star_solve_leaves_grid
    (fuel : nat) (start : cell) (end_ : option cell) (s : MazeSolver.t) :
  (MazeSolver.a_star_solve fuel start end_ s).2 = s ∧
  MazeSolver.maze (MazeSolver.a_star_solve fuel start end_ s).2
  = MazeSolver.maze s.
Proof.
  assert (preserves (λ s : MazeSolver.t, s)
            (MazeSolver.a_star_solve fuel start end_)) as H.
  { unfold MazeSolver.a_star_solve. apply preserves_bind.
    - destruct end_; [apply preserves_ret|].
      apply preserves_bind; [apply preserves_gets|]. intros h.
      apply preserves_bind; [apply preserves_gets|]. intros w.
      apply preserves_ret.
    - intros e. apply preserves_bind; [apply preserves_ret|]. intros h0.
      apply preserves_a_star_loop. }
  specialize (H s). simpl in H. by rewrite H.
Qed.

(** C10. With start and end the same cell [c], [a_star_solve] returns the
    path [[c]] in its first iteration, on every grid, so also when [c] is a
    wall or lies outside the grid. *)
Theorem a_star_start_is_end (fuel : nat) (grid : ndarray Z) (c : cell) :
  MazeSolver.solve (S fuel) grid c c
  = (Ok (Some [c]), MazeSolver.__init__ grid).
Proof.
  unfold MazeSolver.solve, MazeSolver.a_star_solve.
  rewrite bind_run. unfold mret at 1, M_ret at 1, ret at 1.
  rewrite bind_run, heuristic_run.
  cbn [MazeSolver.a_star_loop pq_get MazeSolver.open_set pq_put pq_least
       pq_remove MazeSolver.came_from].
  rewrite (decide_True (P := (0, c) = (0, c))) by done.
  rewrite (decide_True (P := c = c)) by done.
  rewrite bind_run. unfold lift. cbn [MazeSolver.reconstruct].
  by rewrite lookup_empty.
Qed.

(** * Further properties *)

(** ** The generator: what the carved grid looks like *)

Lemma toy_shuffle_perm (l : list cell) (r : ToyRandom.rng) :
  (ToyRandom.shuffle l r).1 ≡ₚ l.
Proof.
  unfold ToyRandom.shuffle, rotate. simpl.
  rewrite Permutation_app_comm. by rewrite take_drop.
Qed.

(** Where the carving can write: cells with both coordinates even, and
    cells between two of them. *)
Definition carved (h w : Z) (c : cell) : Prop :=
  (Z.even c.1 = true ∧ Z.even c.2 = true) ∨
  (Z.odd c.1 = true ∧ Z.even c.2 = true ∧ c.1 + 1 < h) ∨
  (Z.even c.1 = true ∧ Z.odd c.2 = true ∧ c.2 + 1 < w).

(** Two cells of the even lattice next to each other. *)
Definition lattice_adjacent (u v : cell) : Prop :=
  (u.1 = v.1 ∧ Z.abs (u.2 - v.2) = 2) ∨ (u.2 = v.2 ∧ Z.abs (u.1 - v.1) = 2).

Lemma open_cell_insert (grid : ndarray Z) (k c : cell) :
  open_cell grid c = true →
  open_cell (mk_ndarray (nd_shape grid) (nd_zero grid)
               (<[k := 1]> (nd_items grid))) c = true.
Proof.
  unfold open_cell, cell_value. simpl. intros H.
  destruct (decide (k = c)) as [->|Hne].
  - rewrite lookup_insert_eq. simpl. unfold Wall. lia.
  - by rewrite lookup_insert_ne.
Qed.

Lemma open_cell_inserted (grid : ndarray Z) (k : cell) :
  in_bounds grid k →
  open_cell (mk_ndarray (nd_shape grid) (nd_zero grid)
               (<[k := 1]> (nd_items grid))) k = true.
Proof.
  unfold open_cell, cell_value, in_bounds. simpl. intros H.
  rewrite lookup_insert_eq. simpl. unfold Wall. lia.
Qed.

Lemma step_mono (g g' : ndarray Z) :
  (∀ c, open_cell g c = true → open_cell g' c = true) →
  ∀ u v, step g u v → step g' u v.
Proof. intros H u v [Ha Ho]. split; auto. Qed.

Lemma reach_mono (g g' : ndarray Z) (u v : cell) :
  (∀ c, open_cell g c = true → open_cell g' c = true) →
  rtc (step g) u v → rtc (step g') u v.
Proof.
  intros H. induction 1 as [|x y z Hxy _ IH]; [done|].
  eapply rtc_l; [by eapply step_mono|done].
Qed.

Lemma open_cell_item (grid : ndarray Z) (c : cell) (v : Z) :
  in_bounds grid c → nd_items grid !! c = Some v → v ≠ 0 →
  open_cell grid c = true.
Proof.
  unfold open_cell, cell_value, in_bounds, Wall. intros Hb -> Hv. simpl. lia.
Qed.

Lemma even_neighbors (c : Z) :
  Z.even c = true →
  Z.odd (c + 1) = true ∧ Z.odd (c - 1) = true ∧
  Z.even (c + 2) = true ∧ Z.even (c - 2) = true.
Proof.
  intros [k ->]%Z.even_spec. split_and!.
  - apply Z.odd_spec. exists k. lia.
  - apply Z.odd_spec. exists (k - 1). lia.
  - apply Z.even_spec. exists (k + 1). lia.
  - apply Z.even_spec. exists (k - 1). lia.
Qed.

Section GeneratorStructure.
Import MazeGenerator.

Variable rng : Type.
Variable seed : Z → rng.
Variable shuffle : list cell → rng → list cell * rng.

(** [random.shuffle] rearranges the list it is given. *)
Hypothesis shuffle_perm : ∀ l r, (shuffle l r).1 ≡ₚ l.

Variables h w : Z.

Abbreviation world := (world rng).
Abbreviation carve := (_carve_passages_from shuffle).
Abbreviation generate_maze := (generate_maze seed shuffle).
Abbreviation generate := (generate seed shuffle).

Definition maze_items (s : world) : gmap cell Z := nd_items (maze (self s)).
Definition seen_items (s : world) : gmap cell bool :=
  nd_items (visited (self s)).

(** What holds of the two arrays all along the carving. *)
Record carve_inv (s : world) : Prop := mk_carve_inv {
  ci_height : height (self s) = h;
  ci_width : width (self s) = w;
  ci_maze_shape : nd_shape (maze (self s)) = (h, w);
  ci_maze_zero : nd_zero (maze (self s)) = 0;
  ci_seen_shape : nd_shape (visited (self s)) = (h, w);
  ci_seen_zero : nd_zero (visited (self s)) = false;
  ci_items : ∀ c v, maze_items s !! c = Some v →
    v = 1 ∧ (0 ≤ c.1 < h ∧ 0 ≤ c.2 < w) ∧ carved h w c ∧
    rtc (step (maze (self s))) (0, 0) c;
  ci_seen : ∀ c b, seen_items s !! c = Some b →
    b = true ∧ (0 ≤ c.1 < h ∧ 0 ≤ c.2 < w) ∧
    Z.even c.1 = true ∧ Z.even c.2 = true ∧
    (c = (0, 0) ∨ maze_items s !! c = Some 1)
}.

(** Nothing written is taken back. *)
Definition grows (s s' : world) : Prop :=
  (∀ c, maze_items s !! c = Some 1 → maze_items s' !! c = Some 1) ∧
  (∀ c, seen_items s !! c = Some true → seen_items s' !! c = Some true).

(** Every cell of the lattice next to [v] is marked visited. *)
Definition closed (s : world) (v : cell) : Prop :=
  ∀ u, lattice_adjacent v u → 0 ≤ u.1 < h → 0 ≤ u.2 < w →
       seen_items s !! u = Some true.

Lemma grows_refl (s : world) : grows s s.
Proof. by split. Qed.

Lemma grows_trans (s1 s2 s3 : world) : grows s1 s2 → grows s2 s3 → grows s1 s3.
Proof. intros [H1 H2] [H3 H4]. split; auto. Qed.

Lemma closed_grows (s s' : world) (v : cell) :
  grows s s' → closed s v → closed s' v.
Proof. intros [_ Hg] Hc u Hu H1 H2. by apply Hg, Hc. Qed.

Lemma carve_inv_shaped (s : world) : carve_inv s → shaped rng s.
Proof. intros H. split; [rewrite (ci_maze_shape s H)|rewrite (ci_seen_shape s H)];
  by rewrite (ci_height s H), (ci_width s H). Qed.

Lemma carve_inv_reach (s : world) (c : cell) :
  carve_inv s → seen_items s !! c = Some true →
  rtc (step (maze (self s))) (0, 0) c.
Proof.
  intros Hinv Hc. destruct (ci_seen s Hinv c true Hc) as (_ & _ & _ & _ & [->|Hm]);
    [done|]. by destruct (ci_items s Hinv c 1 Hm) as (_ & _ & _ & ?).
Qed.

Lemma may_carve_exact (nx ny : Z) (s : world) :
  carve_inv s →
  may_carve nx ny s
  = (Ok (bool_decide (0 ≤ nx < w ∧ 0 ≤ ny < h) &&
         negb (bool_decide (seen_items s !! (ny, nx) = Some true))), s).
Proof.
  intros Hinv. unfold may_carve. rewrite bind_run. simpl.
  rewrite (ci_width s Hinv).
  destruct ((0 <=? nx) && (nx <? w)) eqn:Hx.
  2:{ rewrite bool_decide_eq_false_2; [done|lia]. }
  simpl. rewrite bind_run. simpl. rewrite (ci_height s Hinv).
  destruct ((0 <=? ny) && (ny <? h)) eqn:Hy.
  2:{ rewrite bool_decide_eq_false_2; [done|lia]. }
  rewrite bool_decide_eq_true_2 by lia.
  rewrite bind_run. simpl. rewrite bind_run. unfold lift, nd_getitem.
  rewrite (nd_index_in_range _ h w); [|apply (ci_seen_shape s Hinv)|lia|lia].
  rewrite (ci_seen_zero s Hinv). unfold seen_items.
  match goal with
  | |- context [default false ?o] => destruct o as [b|] eqn:Hb
  end.
  - destruct (ci_seen s Hinv _ _ Hb) as (-> & _).
    rewrite bool_decide_eq_true_2 by exact Hb. done.
  - rewrite bool_decide_eq_false_2; [done|]. intros Hb'.
    assert (Some true = (None : option bool)) as [=]. by rewrite <- Hb', <- Hb.
Qed.

Lemma visited_assign_Ok_inv ix v (s s' : world) :
  visited_assign ix v s = (Ok tt, s') →
  ∃ k, nd_index (visited (self s)) ix = Some k ∧
       attrs rng s' = attrs rng s ∧
       maze (self s') = maze (self s) ∧
       visited (self s') =
         mk_ndarray (nd_shape (visited (self s))) (nd_zero (visited (self s)))
                    (<[k := v]> (nd_items (visited (self s)))).
Proof.
  unfold visited_assign, nd_setitem. rewrite bind_run. simpl. rewrite bind_run.
  unfold lift. destruct (nd_index _ ix) as [k|]; [|done].
  simpl. intros [= <-]. by exists k.
Qed.

Definition directions : list cell := [(0, 2); (2, 0); (0, -2); (-2, 0)].

(** Carving from the visited cell [(cy, cx)] to the fresh cell two steps
    away in direction [(dx, dy)]. *)
Lemma carve_step (s0 s3 : world) (cx cy dx dy : Z) :
  carve_inv s0 → seen_items s0 !! (cy, cx) = Some true →
  (dx, dy) ∈ directions →
  0 ≤ cx + dx < w → 0 ≤ cy + dy < h →
  height (self s3) = height (self s0) → width (self s3) = width (self s0) →
  visited (self s3)
  = mk_ndarray (nd_shape (visited (self s0))) (nd_zero (visited (self s0)))
      (<[(cy + dy, cx + dx) := true]> (seen_items s0)) →
  maze (self s3)
  = mk_ndarray (nd_shape (maze (self s0))) (nd_zero (maze (self s0)))
      (<[(cy + dy, cx + dx) := 1]>
         (<[(cy + dy `div` 2, cx + dx `div` 2) := 1]> (maze_items s0))) →
  carve_inv s3 ∧ grows s0 s3 ∧
  seen_items s3 !! (cy + dy, cx + dx) = Some true ∧
  (∀ v, seen_items s3 !! v = Some true →
        v = (cy + dy, cx + dx) ∨ seen_items s0 !! v = Some true).
Proof.
  intros Hinv Hcur Hd Hnx Hny Hh3 Hw3 Hv3 Hm3.
  destruct (ci_seen s0 Hinv _ _ Hcur) as (_ & [Hcy Hcx] & Hey & Hex & _).
  simpl in Hcy, Hcx, Hey, Hex.
  pose proof (even_neighbors cx Hex) as (Hx1 & Hx2 & Hx3 & Hx4).
  pose proof (even_neighbors cy Hey) as (Hy1 & Hy2 & Hy3 & Hy4).
  set (n := (cy + dy, cx + dx)) in *.
  set (mid := (cy + dy `div` 2, cx + dx `div` 2)) in *.
  set (g1 := mk_ndarray (nd_shape (maze (self s0))) (nd_zero (maze (self s0)))
               (<[mid := 1]> (maze_items s0))).
  assert (0 ≤ mid.1 < h ∧ 0 ≤ mid.2 < w) as Hmidb.
  { unfold mid. simpl. split; apply midpoint_in_range; lia. }
  assert (adjacent (cy, cx) mid ∧ adjacent mid n ∧ carved h w mid ∧
          Z.even n.1 = true ∧ Z.even n.2 = true) as (Hadj1 & Hadj2 & Hcmid & Hen1 & Hen2).
  { unfold directions in Hd. unfold adjacent, carved, mid, n. simpl.
    rewrite !elem_of_cons, elem_of_nil in Hd.
    destruct Hd as [[= -> ->]|[[= -> ->]|[[= -> ->]|[[= -> ->]|[]]]]].
    - replace (2 `div` 2) with 1 by done. replace (0 `div` 2) with 0 by done.
      rewrite !Z.add_0_r. split_and!; [lia|lia| |done|done].
      right. left. split_and!; [done|done|lia].
    - replace (2 `div` 2) with 1 by done. replace (0 `div` 2) with 0 by done.
      rewrite !Z.add_0_r. split_and!; [lia|lia| |done|done].
      right. right. split_and!; [done|done|lia].
    - replace ((-2) `div` 2) with (-1) by done. replace (0 `div` 2) with 0 by done.
      rewrite !Z.add_0_r. split_and!; [lia|lia| |done|done].
      right. left. split_and!; [done|done|lia].
    - replace ((-2) `div` 2) with (-1) by done. replace (0 `div` 2) with 0 by done.
      rewrite !Z.add_0_r. split_and!; [lia|lia| |done|done].
      right. right. split_and!; [done|done|lia]. }
  pose proof (ci_maze_shape s0 Hinv) as Hshape.
  assert (∀ c, open_cell (maze (self s0)) c = true →
               open_cell (maze (self s3)) c = true) as Hopen.
  { intros c Hc. rewrite Hm3. apply (open_cell_insert g1), (open_cell_insert _ mid), Hc. }
  assert (open_cell (maze (self s3)) mid = true) as Homid.
  { rewrite Hm3. apply (open_cell_insert g1), open_cell_inserted.
    unfold in_bounds. by rewrite Hshape. }
  assert (open_cell (maze (self s3)) n = true) as Hon.
  { rewrite Hm3. apply (open_cell_inserted g1). unfold in_bounds. simpl.
    rewrite Hshape. simpl. lia. }
  assert (rtc (step (maze (self s3))) (0, 0) mid) as Hrmid.
  { eapply rtc_r; [|split; [exact Hadj1|exact Homid]].
    eapply reach_mono; [exact Hopen|]. by apply carve_inv_reach. }
  assert (rtc (step (maze (self s3))) (0, 0) n) as Hrn.
  { eapply rtc_r; [exact Hrmid|]. by split. }
  split_and!.
  - constructor.
    + by rewrite Hh3, (ci_height s0 Hinv).
    + by rewrite Hw3, (ci_width s0 Hinv).
    + by rewrite Hm3.
    + rewrite Hm3. apply (ci_maze_zero s0 Hinv).
    + rewrite Hv3. apply (ci_seen_shape s0 Hinv).
    + rewrite Hv3. apply (ci_seen_zero s0 Hinv).
    + intros c v. unfold maze_items at 1. rewrite Hm3. simpl.
      rewrite lookup_insert. case_decide as Hc1.
      { subst c. intros [= <-]. split; [done|]. split; [simpl; lia|].
        split; [left; by split|]. by rewrite <- Hm3. }
      rewrite lookup_insert. case_decide as Hc2.
      { subst c. intros [= <-]. split; [done|]. split; [done|].
        split; [done|]. by rewrite <- Hm3. }
      intros Hc. destruct (ci_items s0 Hinv c v Hc) as (-> & Hb & Hcv & Hr).
      split; [done|]. split; [done|]. split; [done|].
      rewrite <- Hm3. by eapply reach_mono.
    + intros c b. unfold seen_items at 1. rewrite Hv3. simpl.
      rewrite lookup_insert. case_decide as Hc1.
      { subst c. intros [= <-]. split; [done|]. split; [simpl; lia|].
        split; [done|]. split; [done|]. right. unfold maze_items. rewrite Hm3. simpl. by rewrite lookup_insert_eq. }
      intros Hc. destruct (ci_seen s0 Hinv c b Hc) as (-> & Hb & He1 & He2 & Hor).
      split; [done|]. split; [done|]. split; [done|]. split; [done|].
      destruct Hor as [->|Hm]; [by left|].
      right. unfold maze_items. rewrite Hm3. simpl.
      rewrite lookup_insert. case_decide; [done|].
      rewrite lookup_insert. by case_decide.
  - split.
    + intros c Hc. unfold maze_items. rewrite Hm3. simpl.
      rewrite lookup_insert. case_decide; [done|].
      rewrite lookup_insert. by case_decide.
    + intros c Hc. unfold seen_items. rewrite Hv3. simpl.
      rewrite lookup_insert. by case_decide.
  - unfold seen_items. rewrite Hv3. simpl. by rewrite lookup_insert_eq.
  - intros v. unfold seen_items at 1. rewrite Hv3. simpl.
    rewrite lookup_insert. case_decide; [by left|by right].
Qed.

Lemma carve_inv_random (r r' : rng) (g : t) :
  carve_inv (mk_world r g) → carve_inv (mk_world r' g).
Proof. intros [? ? ? ? ? ? ? ?]. by constructor. Qed.

Lemma lattice_adjacent_direction (cx cy : Z) (u : cell) :
  lattice_adjacent (cy, cx) u →
  ∃ d, d ∈ directions ∧ u = (cy + d.2, cx + d.1).
Proof.
  destruct u as [r c]. unfold lattice_adjacent. simpl. intros H.
  assert ((r = cy + 2 ∧ c = cx + 0) ∨ (r = cy + 0 ∧ c = cx + 2) ∨
          (r = cy + -2 ∧ c = cx + 0) ∨ (r = cy + 0 ∧ c = cx + -2)) as Hc by lia.
  unfold directions.
  destruct Hc as [[-> ->]|[[-> ->]|[[-> ->]|[-> ->]]]].
  - exists (0, 2). split; [|done]. by left.
  - exists (2, 0). split; [|done]. right. by left.
  - exists (0, -2). split; [|done]. do 2 right. by left.
  - exists (-2, 0). split; [|done]. do 3 right. by left.
Qed.

(** What a call of [_carve_passages_from] that returns has done: the
    arrays grew, and the cell it was called on, like every cell it marked,
    has all its lattice neighbors marked. *)
Lemma carve_structure (depth : nat) : ∀ cx cy (s s' : world),
  carve depth cx cy s = (Ok tt, s') →
  carve_inv s → seen_items s !! (cy, cx) = Some true →
  carve_inv s' ∧ grows s s' ∧ closed s' (cy, cx) ∧
  (∀ v, seen_items s' !! v = Some true → seen_items s !! v ≠ Some true →
        closed s' v).
Proof.
  induction depth as [|depth IH]; intros cx cy s s' E Hinv Hcur; [done|].
  simpl in E. apply bind_Ok_inv in E as (dirs & s0 & Esh & E).
  assert (∃ r, s0 = mk_world r (self s) ∧ dirs ≡ₚ directions) as (r & -> & Hperm).
  { unfold random_shuffle in Esh.
    pose proof (shuffle_perm [(0, 2); (2, 0); (0, -2); (-2, 0)] (random s)) as Hp.
    destruct (shuffle _ (random s)) as [l' r']. injection Esh as <- <-. eauto. }
  destruct s as [r0 g]. simpl in *.
  apply (carve_inv_random r0 r) in Hinv.
  change (seen_items (mk_world r0 g)) with (seen_items (mk_world r g)) in *.
  assert (grows (mk_world r0 g) (mk_world r g)) as Hg0 by done.
  assert (carve_inv s' ∧ grows (mk_world r g) s' ∧
          (∀ d, d ∈ dirs → 0 ≤ cx + d.1 < w → 0 ≤ cy + d.2 < h →
                seen_items s' !! (cy + d.2, cx + d.1) = Some true) ∧
          (∀ v, seen_items s' !! v = Some true →
                seen_items (mk_world r g) !! v ≠ Some true → closed s' v))
    as (Hinv' & Hg' & Hdirs & Hnew).
  { assert (∀ d, d ∈ dirs → d ∈ directions) as Hsub
      by (intros d Hd; by rewrite <- Hperm).
    clear Hperm Hg0 Esh. revert Hsub E Hinv Hcur.
    generalize (mk_world r g). clear r0 r g.
    induction dirs as [|[dx dy] l IHl]; intros s0 Hsub E Hinv Hcur.
    { injection E as <-. split_and!; [done|apply grows_refl| |].
      - intros d Hd. by apply elem_of_nil in Hd.
      - by intros v Hv Hv'. }
    cbn [for_each] in E. apply bind_Ok_inv in E as ([] & sa & Ea & E).
    rewrite bind_run, (may_carve_exact _ _ _ Hinv) in Ea.
    assert ((dx, dy) ∈ directions) as Hd by (apply Hsub; by left).
    assert (∀ d, d ∈ l → d ∈ directions) as Hsub' by (intros d ?; apply Hsub; by right).
    case_bool_decide as Hb; simpl in Ea.
    2:{ (* out of the grid *)
      injection Ea as <-.
      destruct (IHl s0 Hsub' E Hinv Hcur) as (Hinv' & Hg' & Hdirs & Hnew).
      split_and!; [done|done| |done].
      intros d [->|Hd']%elem_of_cons; [simpl; lia|by apply Hdirs]. }
    case_bool_decide as Hseen; simpl in Ea.
    { (* already visited *)
      injection Ea as <-.
      destruct (IHl s0 Hsub' E Hinv Hcur) as (Hinv' & Hg' & Hdirs & Hnew).
      split_and!; [done|done| |done].
      intros d [->|Hd']%elem_of_cons; [|by apply Hdirs].
      intros _ _. by apply Hg'. }
    (* a fresh cell: mark it, carve to it, recurse *)
    apply bind_Ok_inv in Ea as ([] & s1 & E1 & Ea).
    apply bind_Ok_inv in Ea as ([] & s2 & E2 & Ea).
    apply bind_Ok_inv in Ea as ([] & s3 & E3 & Ea).
    apply visited_assign_Ok_inv in E1 as (k1 & Hk1 & Ha1 & Hm1 & Hv1).
    apply maze_assign_Ok_inv in E2 as (k2 & Hk2 & _ & Ha2 & Hv2 & Hm2).
    apply maze_assign_Ok_inv in E3 as (k3 & Hk3 & _ & Ha3 & Hv3 & Hm3).
    apply attrs_inv in Ha1 as (Hw1 & Hh1 & _).
    apply attrs_inv in Ha2 as (Hw2 & Hh2 & _).
    apply attrs_inv in Ha3 as (Hw3 & Hh3 & _).
    destruct (ci_seen s0 Hinv _ _ Hcur) as (_ & [Hcy Hcx] & _).
    simpl in Hcy, Hcx.
    rewrite (nd_index_in_range _ h w) in Hk1;
      [|apply (ci_seen_shape s0 Hinv)|lia|lia].
    injection Hk1 as <-.
    rewrite Hm1, (nd_index_in_range _ h w) in Hk2;
      [|apply (ci_maze_shape s0 Hinv)|apply midpoint_in_range; lia..].
    injection Hk2 as <-.
    rewrite Hm2, Hm1 in Hk3. simpl in Hk3.
    rewrite (nd_index_in_range _ h w) in Hk3;
      [|apply (ci_maze_shape s0 Hinv)|lia|lia].
    injection Hk3 as <-.
    destruct (carve_step s0 s3 cx cy dx dy Hinv Hcur Hd) as (Hinv3 & Hg3 & Hn3 & Hnew3);
      [lia|lia|congruence|congruence| | |].
    { by rewrite Hv3, Hv2, Hv1. }
    { rewrite Hm3, Hm2, Hm1. done. }
    destruct (IH _ _ _ _ Ea Hinv3 Hn3) as (Hinva & Hga & Hcla & Hnewa).
    assert (grows s0 sa) as Hg0a by (by eapply grows_trans).
    destruct (IHl sa Hsub' E Hinva) as (Hinv' & Hg' & Hdirs & Hnew).
    { by apply Hg0a. }
    split_and!; [done|by eapply grows_trans| |].
    - intros d [->|Hd']%elem_of_cons; [|by apply Hdirs].
      intros _ _. simpl. by apply Hg', Hga.
    - intros v Hv Hv0.
      destruct (decide (seen_items sa !! v = Some true)) as [Hva|Hva];
        [|by apply Hnew].
      apply (closed_grows sa); [done|].
      destruct (decide (seen_items s3 !! v = Some true)) as [Hv3'|Hv3'];
        [|by apply Hnewa].
      destruct (Hnew3 v Hv3') as [->|?]; [done|done]. }
  split_and!; [done|by eapply grows_trans| |].
  - intros u Hu Hu1 Hu2.
    destruct (lattice_adjacent_direction _ _ _ Hu) as (d & Hd & ->).
    simpl in Hu1, Hu2. apply Hdirs; [by rewrite Hperm|lia|lia].
  - intros v Hv Hv0. by apply Hnew.
Qed.

Lemma closed_lattice (s : world) :
  carve_inv s → seen_items s !! (0, 0) = Some true →
  (∀ v, seen_items s !! v = Some true → closed s v) →
  ∀ i j : nat, 2 * Z.of_nat i < h → 2 * Z.of_nat j < w →
    seen_items s !! (2 * Z.of_nat i, 2 * Z.of_nat j) = Some true.
Proof.
  intros Hinv H0 Hcl. induction i as [|i IHi].
  - induction j as [|j IHj]; intros Hi Hj; [done|].
    apply (Hcl (0, 2 * Z.of_nat j)); [apply IHj; lia| |simpl; lia..].
    left. simpl. lia.
  - intros j Hi Hj.
    apply (Hcl (2 * Z.of_nat i, 2 * Z.of_nat j)); [apply IHi; lia| |simpl; lia..].
    right. simpl. lia.
Qed.

(** The grid [generate_maze] returns: what the carving wrote, then the two
    forced corners. *)
Lemma generate_structure (depth : nat) (r : rng) (m : ndarray Z)
    (s' : option world) :
  0 < w → 0 < h → generate depth w h r = (Ok m, s') →
  ∃ items : gmap cell Z,
    m = mk_ndarray (h, w) 0 (<[(h - 1, w - 1) := 1]> (<[(0, 0) := 1]> items)) ∧
    (∀ c v, items !! c = Some v →
       v = 1 ∧ (0 ≤ c.1 < h ∧ 0 ≤ c.2 < w) ∧ carved h w c ∧
       rtc (step m) (0, 0) c) ∧
    (∀ c, 0 ≤ c.1 < h → 0 ≤ c.2 < w → Z.even c.1 = true → Z.even c.2 = true →
          c = (0, 0) ∨ items !! c = Some 1).
Proof.
  intros Hw Hh. unfold generate, __init__, np_zeros. simpl.
  destruct (h <? 0) eqn:E1; [lia|]. destruct (w <? 0) eqn:E2; [lia|]. simpl.
  destruct (generate_maze depth _) as [o s1] eqn:E. intros [= -> _].
  unfold MazeGenerator.generate_maze in E.
  apply bind_Ok_inv in E as (h0 & s & [= <- <-] & E).
  apply bind_Ok_inv in E as (w0 & s & [= <- <-] & E). simpl in E.
  apply bind_Ok_inv in E as (m0 & s & E0 & E).
  unfold lift, np_zeros in E0. simpl in E0. rewrite E1, E2 in E0.
  injection E0 as <- <-.
  apply bind_Ok_inv in E as ([] & s & [= <-] & E).
  apply bind_Ok_inv in E as (v0 & s & E0 & E).
  unfold lift, np_zeros in E0. simpl in E0. rewrite E1, E2 in E0.
  injection E0 as <- <-.
  apply bind_Ok_inv in E as ([] & s & [= <-] & E).
  apply bind_Ok_inv in E as ([] & s & [= <-] & E). simpl in E.
  apply bind_Ok_inv in E as ([] & s4 & E4 & E).
  apply visited_assign_Ok_inv in E4 as (k & Hk & Ha4 & Hm4 & Hv4). simpl in *.
  rewrite (nd_index_in_range _ h w) in Hk by (done || lia). injection Hk as <-.
  apply attrs_inv in Ha4 as (Hw4 & Hh4 & Hst4 & Hen4). simpl in *.
  assert (carve_inv s4) as Hinv4.
  { constructor; unfold maze_items, seen_items; rewrite ?Hm4, ?Hv4; try done.
    simpl. intros c b. rewrite lookup_insert. case_decide as Hc;
      [|by rewrite lookup_empty].
    subst c. intros [= <-]. split; [done|]. split; [simpl; lia|].
    split; [done|]. split; [done|]. by left. }
  assert (seen_items s4 !! (0, 0) = Some true) as H04.
  { unfold seen_items. rewrite Hv4. simpl. by rewrite lookup_insert_eq. }
  apply bind_Ok_inv in E as ([] & s5 & E5 & E).
  destruct (carve_structure depth 0 0 s4 s5 E5 Hinv4 H04)
    as (Hinv5 & Hg5 & Hcl0 & Hnew).
  assert (∀ v, seen_items s5 !! v = Some true → closed s5 v) as Hcl.
  { intros v Hv. destruct (decide (v = (0, 0))) as [->|Hne]; [done|].
    apply Hnew; [done|]. unfold seen_items. rewrite Hv4. simpl.
    by rewrite lookup_insert_ne, lookup_empty. }
  pose proof (closed_lattice s5 Hinv5 (proj2 Hg5 _ H04) Hcl) as Hlat.
  apply (preserves_run (attrs rng) _ _ _ _ (preserves_carve _ _ _ _ _)) in E5.
  apply attrs_inv in E5 as (Hw5 & Hh5 & Hst5 & Hen5).
  apply bind_Ok_inv in E as (st & s & [= <- <-] & E).
  apply bind_Ok_inv in E as ([] & s6 & E6 & E).
  apply maze_assign_Ok_inv in E6 as (k1 & Hk1 & _ & Ha6 & _ & Hm6).
  apply attrs_inv in Ha6 as (_ & _ & _ & Hen6).
  rewrite Hst5, Hst4 in Hk1. simpl in Hk1.
  rewrite (nd_index_in_range _ h w) in Hk1;
    [|apply (ci_maze_shape s5 Hinv5)|lia|lia].
  injection Hk1 as <-.
  apply bind_Ok_inv in E as (en & s & [= <- <-] & E).
  apply bind_Ok_inv in E as ([] & s7 & E7 & E).
  apply maze_assign_Ok_inv in E7 as (k2 & Hk2 & _ & _ & _ & Hm7).
  rewrite Hen6, Hen5, Hen4, Hm6 in Hk2. simpl in Hk2.
  rewrite (nd_index_in_range _ h w) in Hk2;
    [|apply (ci_maze_shape s5 Hinv5)|lia|lia].
  injection Hk2 as <-.
  injection E as <-. rewrite Hm7, Hm6. simpl.
  rewrite (ci_maze_shape s5 Hinv5), (ci_maze_zero s5 Hinv5).
  exists (nd_items (maze (self s5))). split; [done|]. split.
  - intros c v Hc. destruct (ci_items s5 Hinv5 c v Hc) as (-> & Hb & Hcv & Hr).
    split; [done|]. split; [done|]. split; [done|].
    eapply reach_mono; [|exact Hr]. intros c' Hc'.
    pose proof (open_cell_insert
      (mk_ndarray (nd_shape (maze (self s5))) (nd_zero (maze (self s5)))
                  (<[(0, 0) := 1]> (nd_items (maze (self s5)))))
      (h - 1, w - 1) c'
      (open_cell_insert (maze (self s5)) (0, 0) c' Hc')) as Ho.
    simpl in Ho. by rewrite (ci_maze_shape s5 Hinv5), (ci_maze_zero s5 Hinv5) in Ho.
  - intros [r0 c0] Hr0 Hc0 He1 He2. simpl in *.
    apply Z.even_spec in He1 as [i ->]. apply Z.even_spec in He2 as [j ->].
    specialize (Hlat (Z.to_nat i) (Z.to_nat j)).
    rewrite !Z2Nat.id in Hlat by lia.
    destruct (ci_seen s5 Hinv5 _ _ (Hlat ltac:(lia) ltac:(lia)))
      as (_ & _ & _ & _ & [Hor|Hor]); [by left|by right].
Qed.

(** The same, read through the cells of the returned grid. *)
Lemma generated_cells (depth : nat) (r : rng) (m : ndarray Z)
    (s' : option world) :
  0 < w → 0 < h → generate depth w h r = (Ok m, s') →
  nd_shape m = (h, w) ∧
  (∀ c, cell_value m c = Wall ∨ cell_value m c = Path) ∧
  (∀ c, open_cell m c = true →
        (carved h w c ∧ rtc (step m) (0, 0) c) ∨ c = (h - 1, w - 1)) ∧
  (∀ c, 0 ≤ c.1 < h → 0 ≤ c.2 < w → Z.even c.1 = true → Z.even c.2 = true →
        cell_value m c = Path ∧ rtc (step m) (0, 0) c) ∧
  cell_value m (h - 1, w - 1) = Path.
Proof.
  intros Hw Hh Hgen.
  destruct (generate_structure depth r m s' Hw Hh Hgen) as (items & -> & Hit & Hlat).
  set (m := mk_ndarray (h, w) 0 _) in *.
  assert (∀ c v, nd_items m !! c = Some v →
            v = 1 ∧ (c = (h - 1, w - 1) ∨ c = (0, 0) ∨ items !! c = Some 1))
    as Hcases.
  { intros c v. unfold m. simpl. rewrite lookup_insert. case_decide as H1.
    { intros [= <-]. split; [done|]. by left. }
    rewrite lookup_insert. case_decide as H2.
    { intros [= <-]. split; [done|]. right. by left. }
    intros Hc. destruct (Hit c v Hc) as (-> & _). split; [done|]. by do 2 right. }
  split_and!.
  - done.
  - intros c. unfold cell_value.
    destruct (nd_items m !! c) as [v|] eqn:Hc; [|by left].
    destruct (Hcases c v Hc) as (-> & _). by right.
  - intros c Ho. unfold open_cell, cell_value in Ho.
    destruct (nd_items m !! c) as [v|] eqn:Hc; [|simpl in Ho; unfold Wall in Ho; lia].
    destruct (Hcases c v Hc) as (-> & [->|[->|Hc']]); [by right| |].
    + left. split; [by left|done].
    + left. by destruct (Hit c 1 Hc') as (_ & _ & ? & ?).
  - intros c H1 H2 H3 H4. destruct (Hlat c H1 H2 H3 H4) as [->|Hc].
    + split; [|done]. unfold cell_value, m. simpl.
      rewrite lookup_insert. case_decide; [done|]. by rewrite lookup_insert_eq.
    + destruct (Hit c 1 Hc) as (_ & _ & _ & Hr). split; [|done].
      unfold cell_value, m. simpl.
      rewrite lookup_insert. case_decide; [done|].
      rewrite lookup_insert. case_decide; [done|].
      match goal with
      | |- context [default _ ?o] => replace o with (Some 1) by (symmetry; exact Hc)
      end. done.
  - unfold cell_value, m. simpl. by rewrite lookup_insert_eq.
Qed.

Lemma nd_getitem_in_bounds (g : ndarray Z) (c : cell) :
  in_bounds g c → nd_getitem g c = Ok (cell_value g c).
Proof.
  intros [H1 H2]. unfold nd_getitem, cell_value. destruct c as [i j].
  rewrite (nd_index_in_range g (nd_shape g).1 (nd_shape g).2);
    [done|by destruct (nd_shape g)|done|done].
Qed.

(** X1. Every cell of a generated grid holds [Wall] or [Path]. *)
Theorem generate_cells_wall_or_path (depth : nat) (r : rng) (m : ndarray Z)
    (s' : option world) (c : cell) :
  0 < w → 0 < h → generate depth w h r = (Ok m, s') →
  0 ≤ c.1 < h → 0 ≤ c.2 < w →
  nd_getitem m c = Ok Wall ∨ nd_getitem m c = Ok Path.
Proof.
  intros Hw Hh Hgen H1 H2.
  destruct (generated_cells depth r m s' Hw Hh Hgen) as (Hs & Hv & _).
  rewrite nd_getitem_in_bounds by (unfold in_bounds; by rewrite Hs).
  destruct (Hv c) as [-> | ->]; auto.
Qed.

(** X2. In a generated grid a cell other than the end corner is [Path] only
    on the even lattice or between two cells of it: a cell with both
    coordinates odd is a wall, and so is a cell of odd row in the last row
    or of odd column in the last column. *)
Theorem generate_path_cells_on_lattice (depth : nat) (r : rng) (m : ndarray Z)
    (s' : option world) (c : cell) :
  0 < w → 0 < h → generate depth w h r = (Ok m, s') →
  0 ≤ c.1 < h → 0 ≤ c.2 < w → c ≠ (h - 1, w - 1) →
  nd_getitem m c = Ok Path → carved h w c.
Proof.
  intros Hw Hh Hgen H1 H2 Hne.
  destruct (generated_cells depth r m s' Hw Hh Hgen) as (Hs & _ & Ho & _).
  rewrite nd_getitem_in_bounds by (unfold in_bounds; by rewrite Hs).
  intros [= Hc]. destruct (Ho c) as [[? _]|?]; [|done|done].
  unfold open_cell. rewrite Hs, Hc. simpl. unfold Wall, Path. lia.
Qed.

(** X3. The documented quirk of even dimensions: with an even width the
    last column of a generated grid is all wall above the end corner, and
    with an even height so is the last row left of it. *)
Theorem generate_even_dimension_walled (depth : nat) (r : rng) (m : ndarray Z)
    (s' : option world) :
  0 < w → 0 < h → generate depth w h r = (Ok m, s') →
  (Z.even w = true → ∀ i, 0 ≤ i < h - 1 → nd_getitem m (i, w - 1) = Ok Wall) ∧
  (Z.even h = true → ∀ j, 0 ≤ j < w - 1 → nd_getitem m (h - 1, j) = Ok Wall).
Proof.
  intros Hw Hh Hgen.
  destruct (generated_cells depth r m s' Hw Hh Hgen) as (Hs & Hv & Ho & _).
  assert (∀ c, 0 ≤ c.1 < h → 0 ≤ c.2 < w → c ≠ (h - 1, w - 1) →
               ¬ carved h w c → nd_getitem m c = Ok Wall) as Hwall.
  { intros c H1 H2 Hne Hnc.
    rewrite nd_getitem_in_bounds by (unfold in_bounds; by rewrite Hs).
    destruct (Hv c) as [-> | Hp]; [done|]. destruct Hnc.
    destruct (Ho c) as [[? _]|?]; [|done|done].
    unfold open_cell. rewrite Hs, Hp. simpl. unfold Wall, Path. lia. }
  split.
  - intros [k ->]%Z.even_spec i Hi.
    apply Hwall; [simpl; lia|simpl; lia|intros [= ?]; lia|].
    assert (Z.odd (2 * k - 1) = true) as Hodd
      by (apply Z.odd_spec; exists (k - 1); lia).
    assert (Z.even (2 * k - 1) = false) as Heven
      by (by rewrite <- Z.negb_odd, Hodd).
    unfold carved. simpl. rewrite Heven.
    intros [[_ ?]|[(_ & ? & _)|(_ & _ & ?)]]; [done|done|lia].
  - intros [k ->]%Z.even_spec j Hj.
    apply Hwall; [simpl; lia|simpl; lia|intros [= ?]; lia|].
    assert (Z.odd (2 * k - 1) = true) as Hodd
      by (apply Z.odd_spec; exists (k - 1); lia).
    assert (Z.even (2 * k - 1) = false) as Heven
      by (by rewrite <- Z.negb_odd, Hodd).
    unfold carved. simpl. rewrite Heven.
    intros [[? _]|[(_ & _ & ?)|(? & _)]]; [done|lia|done].
Qed.

(** X4. The carving reaches the whole lattice: in a generated grid every
    cell with both coordinates even is [Path]. *)
Theorem generate_lattice_is_path (depth : nat) (r : rng) (m : ndarray Z)
    (s' : option world) (c : cell) :
  0 < w → 0 < h → generate depth w h r = (Ok m, s') →
  0 ≤ c.1 < h → 0 ≤ c.2 < w → Z.even c.1 = true → Z.even c.2 = true →
  nd_getitem m c = Ok Path.
Proof.
  intros Hw Hh Hgen H1 H2 H3 H4.
  destruct (generated_cells depth r m s' Hw Hh Hgen) as (Hs & _ & _ & Hlat & _).
  rewrite nd_getitem_in_bounds by (unfold in_bounds; by rewrite Hs).
  by destruct (Hlat c H1 H2 H3 H4) as [-> _].
Qed.

(** X5. A generated maze is connected: every [Path] cell other than the end
    corner can be walked to from the start corner through [Path] cells. *)
Theorem generate_connected (depth : nat) (r : rng) (m : ndarray Z)
    (s' : option world) (c : cell) :
  0 < w → 0 < h → generate depth w h r = (Ok m, s') →
  0 ≤ c.1 < h → 0 ≤ c.2 < w → c ≠ (h - 1, w - 1) →
  nd_getitem m c = Ok Path → rtc (step m) (0, 0) c.
Proof.
  intros Hw Hh Hgen H1 H2 Hne.
  destruct (generated_cells depth r m s' Hw Hh Hgen) as (Hs & _ & Ho & _).
  rewrite nd_getitem_in_bounds by (unfold in_bounds; by rewrite Hs).
  intros [= Hc]. destruct (Ho c) as [[_ ?]|?]; [|done|done].
  unfold open_cell. rewrite Hs, Hc. simpl. unfold Wall, Path. lia.
Qed.

End GeneratorStructure.

Lemma generate_cells_wall_or_path_witness :
  ∃ m, (MazeGenerator.generate ToyRandom.seed ToyRandom.shuffle 15 5 3 0%nat).1
       = Ok m ∧
       (nd_getitem m (1, 1) = Ok Wall ∨ nd_getitem m (1, 1) = Ok Path).
Proof.
  eexists. split; [vm_compute; reflexivity|].
  eapply (generate_cells_wall_or_path _ ToyRandom.seed ToyRandom.shuffle
            toy_shuffle_perm 3 5 15 0%nat);
    [lia|lia|vm_compute; reflexivity|simpl; lia|simpl; lia].
Defined.

Lemma generate_path_cells_on_lattice_witness :
  ∃ m, (MazeGenerator.generate ToyRandom.seed ToyRandom.shuffle 15 5 3 0%nat).1
       = Ok m ∧ carved 3 5 (1, 0).
Proof.
  eexists. split; [vm_compute; reflexivity|].
  eapply (generate_path_cells_on_lattice _ ToyRandom.seed ToyRandom.shuffle
            toy_shuffle_perm 3 5 15 0%nat);
    [lia|lia|vm_compute; reflexivity|simpl; lia|simpl; lia|done|by vm_compute].
Defined.

Lemma generate_even_dimension_walled_witness :
  ∃ m, (MazeGenerator.generate ToyRandom.seed ToyRandom.shuffle 30 4 6 0%nat).1
       = Ok m ∧
       (Z.even 4 = true → ∀ i, 0 ≤ i < 6 - 1 → nd_getitem m (i, 4 - 1) = Ok Wall) ∧
       (Z.even 6 = true → ∀ j, 0 ≤ j < 4 - 1 → nd_getitem m (6 - 1, j) = Ok Wall).
Proof.
  eexists. split; [vm_compute; reflexivity|].
  eapply (generate_even_dimension_walled _ ToyRandom.seed ToyRandom.shuffle
            toy_shuffle_perm 6 4 30 0%nat);
    [lia|lia|vm_compute; reflexivity].
Defined.

Lemma generate_lattice_is_path_witness :
  ∃ m, (MazeGenerator.generate ToyRandom.seed ToyRandom.shuffle 15 5 3 0%nat).1
       = Ok m ∧ nd_getitem m (2, 4) = Ok Path.
Proof.
  eexists. split; [vm_compute; reflexivity|].
  eapply (generate_lattice_is_path _ ToyRandom.seed ToyRandom.shuffle
            toy_shuffle_perm 3 5 15 0%nat);
    [lia|lia|vm_compute; reflexivity|simpl; lia|simpl; lia|done|done].
Defined.

Lemma generate_connected_witness :
  ∃ m, (MazeGenerator.generate ToyRandom.seed ToyRandom.shuffle 15 5 3 0%nat).1
       = Ok m ∧ rtc (step m) (0, 0) (2, 2).
Proof.
  eexists. split; [vm_compute; reflexivity|].
  eapply (generate_connected _ ToyRandom.seed ToyRandom.shuffle
            toy_shuffle_perm 3 5 15 0%nat);
    [lia|lia|vm_compute; reflexivity|simpl; lia|simpl; lia|done|by vm_compute].
Defined.

(** ** The solver: further properties *)

Lemma route_lookup (grid : ndarray Z) (u v : cell) (p : list cell) :
  route grid u v p → ∀ i c, p !! i = Some c →
  nsteps (step grid) i u c ∧ nsteps (step grid) (length p - 1 - i) c v.
Proof.
  induction 1 as [|v w p Hroute IH Hvw]; intros i c Hc.
  - destruct i; [|done]. injection Hc as <-. split; constructor.
  - destruct (route_shape _ _ _ _ Hroute) as (tail & Hp & _).
    assert (length p = S (length tail)) as Hlen by (by rewrite Hp).
    rewrite length_app. simpl.
    destruct (decide (i < length p)%nat) as [Hlt|Hge].
    + rewrite lookup_app_l in Hc by done.
      destruct (IH i c Hc) as [H1 H2]. split; [done|].
      replace (length p + 1 - 1 - i)%nat with (S (length p - 1 - i)) by lia.
      by eapply nsteps_r.
    + pose proof (lookup_lt_Some _ _ _ Hc) as Hi.
      rewrite length_app in Hi. simpl in Hi.
      assert (i = length p) as -> by lia.
      rewrite list_lookup_middle in Hc by done. injection Hc as <-.
      split.
      * replace (length p) with (S (length p - 1)) by lia.
        eapply nsteps_r; [|done]. by apply route_nsteps.
      * replace (length p + 1 - 1 - length p)%nat with 0%nat by lia. constructor.
Qed.

Lemma shortest_route_NoDup (grid : ndarray Z) (u v : cell) (p : list cell) :
  route grid u v p →
  (∀ k, nsteps (step grid) k u v → (length p ≤ S k)%nat) → NoDup p.
Proof.
  intros Hroute Hmin. apply NoDup_alt. intros i j c Hi Hj.
  destruct (route_lookup _ _ _ _ Hroute i c Hi) as [Hi1 Hi2].
  destruct (route_lookup _ _ _ _ Hroute j c Hj) as [Hj1 Hj2].
  pose proof (lookup_lt_Some _ _ _ Hi). pose proof (lookup_lt_Some _ _ _ Hj).
  pose proof (Hmin _ (nsteps_trans _ _ _ _ _ Hi1 Hj2)).
  pose proof (Hmin _ (nsteps_trans _ _ _ _ _ Hj1 Hi2)). lia.
Qed.

(** X6. A returned path visits no cell twice. *)
Theorem a_star_path_no_repeats
    (fuel : nat) (grid : ndarray Z) (start end_ : cell) (p : list cell) :
  (MazeSolver.solve fuel grid start end_).1 = Ok (Some p) → NoDup p.
Proof.
  intros Hr. apply solve_partial in Hr as [Hroute Hmin].
  by eapply shortest_route_NoDup.
Qed.

Lemma a_star_path_no_repeats_witness :
  NoDup [(2, 0); (1, 0); (0, 0); (0, 1); (0, 2); (1, 2); (2, 2)].
Proof.
  apply (a_star_path_no_repeats 100
           (nd_of_rows [[1; 1; 1]; [1; 0; 1]; [1; 0; 1]]) (2, 0) (2, 2)).
  vm_compute. reflexivity.
Defined.

(** X7. The search is complete: whenever the end can be walked to from the
    start, [a_star_solve] returns a path, with any budget from [solve_fuel]
    on. *)
Theorem a_star_finds_path
    (fuel : nat) (grid : ndarray Z) (start end_ : cell) :
  rtc (step grid) start end_ → (solve_fuel grid ≤ fuel)%nat →
  ∃ p, MazeSolver.solve fuel grid start end_
       = (Ok (Some p), MazeSolver.__init__ grid).
Proof.
  intros Hreach Hfuel.
  destruct (solve_total fuel grid start end_ Hfuel) as ([p|] & -> & Hans);
    [by exists p|].
  apply rtc_nsteps_1 in Hreach as [k Hk]. by destruct (Hans k).
Qed.

Lemma a_star_finds_path_witness :
  let grid := nd_of_rows [[1; 0]; [1; 1]] in
  ∃ p, MazeSolver.solve 100 grid (0, 0) (1, 1)
       = (Ok (Some p), MazeSolver.__init__ grid).
Proof.
  apply a_star_finds_path.
  - apply (rtc_l _ _ (1, 0)); [|apply rtc_once].
    + split; [right; split; [done|]|]; by vm_compute.
    + split; [left; split; [done|]|]; by vm_compute.
  - vm_compute. lia.
Defined.

(** X8. [a_star_solve] raises nothing, whatever the grid, the cells and the
    budget: [g_score[current]] is always present and [self.maze] is only
    indexed in bounds.  This holds with the default [end] too. *)
Theorem a_star_solve_never_raises
    (fuel : nat) (grid : ndarray Z) (start : cell) (end_ : option cell)
    (e : exn) :
  (MazeSolver.a_star_solve fuel start end_ (MazeSolver.__init__ grid)).1
  ≠ Raise e.
Proof.
  assert (∀ en, (MazeSolver.solve fuel grid start en).1 ≠ Raise e) as H.
  { intros en. pose proof (solve_spec fuel grid start en) as Hs.
    by destruct (MazeSolver.solve fuel grid start en) as [[r|e'|] s]. }
  destruct end_ as [en|]; [apply H|].
  apply (H ((nd_shape grid).1 - 1, (nd_shape grid).2 - 1)).
Qed.

Lemma NoDup_around (c : cell) : NoDup (around c).
Proof.
  unfold around. apply NoDup_fmap_2.
  - intros [a b] [a' b'] [= ? ?]. f_equal; lia.
  - by apply (bool_decide_unpack _).
Qed.

(** X9. [get_neighbors] raises nothing, for cells outside the grid
    included, and returns, each once, exactly the cells one unit step away
    that lie in the grid and are not walls. *)
Theorem get_neighbors_exact (grid : ndarray Z) (c : cell) :
  ∃ ns, MazeSolver.get_neighbors c (MazeSolver.__init__ grid)
        = (Ok ns, MazeSolver.__init__ grid) ∧
        NoDup ns ∧
        ∀ v, v ∈ ns ↔
             adjacent c v ∧ in_bounds grid v ∧ nd_getitem grid v ≠ Ok Wall.
Proof.
  exists (neighbors grid c). split; [apply get_neighbors_run|]. split.
  - unfold neighbors.
    apply NoDup_ListNoDup, List.NoDup_filter, NoDup_ListNoDup, NoDup_around.
  - intros v. rewrite elem_of_neighbors. unfold step. split.
    + intros [Ha Ho]. pose proof (open_cell_in_bounds _ _ Ho) as Hb.
      split; [done|]. split; [done|].
      rewrite nd_getitem_in_bounds by done. intros [= Hv].
      unfold open_cell in Ho. rewrite Hv in Ho. simpl in Ho. lia.
    + intros (Ha & Hb & Hv). split; [done|].
      rewrite nd_getitem_in_bounds in Hv by done.
      unfold open_cell, in_bounds in *.
      destruct (cell_value grid v =? Wall) eqn:E; [|lia].
      destruct Hv. f_equal. lia.
Qed.

(** X10. The heuristic is admissible: the value [heuristic] returns for two
    cells is never more than the number of moves of a walk between them (nor
    negative, and it is 0 from a cell to itself). *)
Theorem heuristic_admissible
    (grid : ndarray Z) (s : MazeSolver.t) (a b : cell) (k : nat) :
  nsteps (step grid) k a b →
  ∃ d, MazeSolver.heuristic a b s = (Ok d, s) ∧ 0 ≤ d ≤ Z.of_nat k ∧
       MazeSolver.heuristic b b s = (Ok 0, s).
Proof.
  intros Hk. exists (dist a b). split; [apply heuristic_run|]. split.
  - pose proof (dist_nsteps grid k a b Hk). unfold dist in *. lia.
  - rewrite heuristic_run. f_equal. f_equal. unfold dist. lia.
Qed.

Lemma heuristic_admissible_witness :
  let grid := nd_of_rows [[1; 0]; [1; 1]] in
  ∃ d, MazeSolver.heuristic (0, 0) (1, 1) (MazeSolver.__init__ grid)
       = (Ok d, MazeSolver.__init__ grid) ∧ 0 ≤ d ≤ Z.of_nat 2 ∧
       MazeSolver.heuristic (1, 1) (1, 1) (MazeSolver.__init__ grid)
       = (Ok 0, MazeSolver.__init__ grid).
Proof.
  intros grid. apply (heuristic_admissible grid).
  apply (nsteps_l _ _ _ (1, 0)); [|apply nsteps_once].
  - split; [right; split; [done|]|]; by vm_compute.
  - split; [left; split; [done|]|]; by vm_compute.
Defined.

(** X11. A returned path has at least as many moves as the Manhattan
    distance between start and end. *)
Theorem a_star_path_length_lower_bound
    (fuel : nat) (grid : ndarray Z) (start end_ : cell) (p : list cell) :
  (MazeSolver.solve fuel grid start end_).1 = Ok (Some p) →
  Z.abs (start.1 - end_.1) + Z.abs (start.2 - end_.2) + 1
  ≤ Z.of_nat (length p).
Proof.
  intros Hr. apply solve_partial in Hr as [Hroute _].
  pose proof (dist_nsteps grid _ _ _ (route_nsteps _ _ _ _ Hroute)) as Hd.
  destruct (route_shape _ _ _ _ Hroute) as (tail & -> & _).
  unfold dist in Hd. simpl in *. lia.
Qed.

Lemma a_star_path_length_lower_bound_witness :
  Z.abs ((2, 0).1 - (2, 2).1) + Z.abs ((2, 0).2 - (2, 2).2) + 1
  ≤ Z.of_nat (length [(2, 0); (1, 0); (0, 0); (0, 1); (0, 2); (1, 2); (2, 2)]).
Proof.
  apply (a_star_path_length_lower_bound 100
           (nd_of_rows [[1; 1; 1]; [1; 0; 1]; [1; 0; 1]]) (2, 0) (2, 2)).
  vm_compute. reflexivity.
Defined.

Lemma manhattan_walk (grid : ndarray Z) :
  (∀ c, in_bounds grid c → open_cell grid c = true) →
  ∀ (n : nat) (u e : cell), in_bounds grid u → in_bounds grid e →
    dist u e = Z.of_nat n → nsteps (step grid) n u e.
Proof.
  intros Hopen. induction n as [|n IH]; intros [u1 u2] [e1 e2] Hu He Hd.
  - unfold dist in Hd. simpl in Hd.
    assert (u1 = e1 ∧ u2 = e2) as [-> ->] by lia. constructor.
  - unfold dist, in_bounds in *. simpl in *.
    set (v := if decide (u1 < e1) then (u1 + 1, u2)
              else if decide (e1 < u1) then (u1 - 1, u2)
              else if decide (u2 < e2) then (u1, u2 + 1) else (u1, u2 - 1)).
    assert (adjacent (u1, u2) v ∧ in_bounds grid v ∧ dist v (e1, e2) = Z.of_nat n)
      as (Hadj & Hv & Hdv).
    { unfold v, adjacent, in_bounds, dist.
      repeat case_decide; simpl; lia. }
    apply (nsteps_l _ _ _ v); [split; [done|by apply Hopen]|].
    by apply IH.
Qed.

(** X12. On a grid without walls the path returned between two cells of
    the grid has exactly the Manhattan distance in moves (nine cells from
    corner to corner of a 5 by 5 grid). *)
Theorem a_star_wall_free_grid
    (fuel : nat) (grid : ndarray Z) (start end_ : cell) :
  (∀ c, in_bounds grid c → nd_getitem grid c ≠ Ok Wall) →
  in_bounds grid start → in_bounds grid end_ →
  (solve_fuel grid ≤ fuel)%nat →
  ∃ p, MazeSolver.solve fuel grid start end_
       = (Ok (Some p), MazeSolver.__init__ grid) ∧
       Z.of_nat (length p)
       = Z.abs (start.1 - end_.1) + Z.abs (start.2 - end_.2) + 1.
Proof.
  intros Hfree Hs He Hfuel.
  assert (∀ c, in_bounds grid c → open_cell grid c = true) as Hopen.
  { intros c Hc. specialize (Hfree c Hc).
    rewrite nd_getitem_in_bounds in Hfree by done.
    unfold open_cell, in_bounds in *.
    destruct (cell_value grid c =? Wall) eqn:E; [|lia].
    destruct Hfree. f_equal. lia. }
  assert (0 ≤ dist start end_) as Hd0 by (unfold dist; lia).
  pose proof (manhattan_walk grid Hopen (Z.to_nat (dist start end_)) start end_
                Hs He ltac:(lia)) as Hwalk.
  destruct (solve_total fuel grid start end_ Hfuel) as ([p|] & -> & Hans);
    [|by destruct (Hans _ Hwalk)].
  exists p. split; [done|]. destruct Hans as [Hroute Hmin].
  specialize (Hmin _ Hwalk).
  pose proof (dist_nsteps grid _ _ _ (route_nsteps _ _ _ _ Hroute)) as Hd.
  destruct (route_shape _ _ _ _ Hroute) as (tail & -> & _).
  unfold dist in *. simpl in *. lia.
Qed.

Lemma a_star_wall_free_grid_witness :
  let grid := nd_of_rows [[1; 1; 1; 1; 1]; [1; 1; 1; 1; 1]; [1; 1; 1; 1; 1];
                          [1; 1; 1; 1; 1]; [1; 1; 1; 1; 1]] in
  ∃ p, MazeSolver.solve 1000 grid (0, 0) (4, 4)
       = (Ok (Some p), MazeSolver.__init__ grid) ∧
       Z.of_nat (length p) = Z.abs (0 - 4) + Z.abs (0 - 4) + 1.
Proof.
  apply a_star_wall_free_grid.
  - intros [i j] [Hi Hj]. simpl in Hi, Hj.
    assert (i = 0 ∨ i = 1 ∨ i = 2 ∨ i = 3 ∨ i = 4) as Hi' by lia.
    assert (j = 0 ∨ j = 1 ∨ j = 2 ∨ j = 3 ∨ j = 4) as Hj' by lia.
    destruct Hi' as [->|[->|[->|[->| ->]]]];
      destruct Hj' as [->|[->|[->|[->| ->]]]]; by vm_compute.
  - unfold in_bounds. simpl. lia.
  - unfold in_bounds. simpl. lia.
  - vm_compute. lia.
Defined.

(** ** Generating, then solving *)

Section GenerateThenSolve.

Variable rng : Type.
Variable seed : Z → rng.
Variable shuffle : list cell → rng → list cell * rng.
Hypothesis shuffle_perm : ∀ l r, (shuffle l r).1 ≡ₚ l.

Abbreviation generate := (MazeGenerator.generate seed shuffle).

Lemma generated_end_reachable (depth : nat) (w h : Z) (r : rng)
    (m : ndarray Z) s' :
  0 < w → 0 < h → Z.odd w = true ∨ Z.odd h = true →
  generate depth w h r = (Ok m, s') →
  rtc (step m) (0, 0) (h - 1, w - 1).
Proof.
  intros Hw Hh Hodd Hgen.
  destruct (generated_cells rng seed shuffle shuffle_perm h w depth r m s'
              Hw Hh Hgen) as (Hs & _ & _ & Hlat & Hend).
  assert (open_cell m (h - 1, w - 1) = true) as Hoe.
  { unfold open_cell. rewrite Hs, Hend. simpl. unfold Wall, Path. lia. }
  assert (∀ n, Z.odd n = true → Z.even (n - 1) = true) as Hpred.
  { intros n [k ->]%Z.odd_spec. apply Z.even_spec. exists k. lia. }
  assert (∀ n, Z.odd n = false → Z.even (n - 2) = true) as Hpred2.
  { intros n Hn. rewrite <- Z.negb_even in Hn. apply negb_false_iff in Hn.
    apply Z.even_spec in Hn as [k ->]. apply Z.even_spec. exists (k - 1). lia. }
  assert (∀ n, 0 < n → Z.odd n = false → 2 ≤ n) as Hge2.
  { intros n Hn Ho. destruct (decide (n = 1)) as [->|]; [done|lia]. }
  destruct (Z.odd w) eqn:Ew, (Z.odd h) eqn:Eh.
  - apply (Hlat (h - 1, w - 1)); simpl; auto; lia.
  - pose proof (Hge2 h Hh Eh).
    eapply rtc_r; [apply (Hlat (h - 2, w - 1)); simpl; auto; lia|].
    split; [|done]. right. simpl. lia.
  - pose proof (Hge2 w Hw Ew).
    eapply rtc_r; [apply (Hlat (h - 1, w - 2)); simpl; auto; lia|].
    split; [|done]. left. simpl. lia.
  - by destruct Hodd.
Qed.

Lemma generated_end_cut_off (depth : nat) (w h : Z) (r : rng)
    (m : ndarray Z) s' :
  0 < w → 0 < h → Z.even w = true → Z.even h = true →
  generate depth w h r = (Ok m, s') →
  ¬ rtc (step m) (0, 0) (h - 1, w - 1).
Proof.
  intros Hw Hh [b ->]%Z.even_spec [a ->]%Z.even_spec Hgen Hreach.
  destruct (generated_cells rng seed shuffle shuffle_perm _ _ depth r m s'
              Hw Hh Hgen) as (Hs & _ & Ho & _).
  apply rtc_inv_r in Hreach as [[= ? ?]|(u & Hu & Hadj & _)]; [lia|].
  assert (Z.even (2 * a - 1) = false ∧ Z.even (2 * b - 1) = false) as [Ea Eb].
  { split; rewrite <- Z.negb_odd; apply negb_false_iff, Z.odd_spec;
      [exists (a - 1)|exists (b - 1)]; lia. }
  assert (Z.even (2 * a - 2) = true ∧ Z.even (2 * b - 2) = true) as [Ea' Eb'].
  { split; apply Z.even_spec; [exists (a - 1)|exists (b - 1)]; lia. }
  destruct u as [i j]. unfold adjacent in Hadj. simpl in Hadj.
  apply reach_open in Hu as [[= <- <-]|Hou]; [lia|].
  pose proof (open_cell_in_bounds _ _ Hou) as [Hi Hj].
  rewrite Hs in Hi, Hj. simpl in Hi, Hj.
  destruct (Ho _ Hou) as [[Hc _]|[= ? ?]]; [|lia].
  unfold carved in Hc. simpl in Hc.
  assert ((i = 2 * a - 1 ∧ j = 2 * b - 2) ∨ (i = 2 * a - 2 ∧ j = 2 * b - 1))
    as [[-> ->]|[-> ->]] by lia.
  - rewrite Ea, Eb', <- Z.negb_even, Ea in Hc. simpl in Hc.
    destruct Hc as [[? _]|[(_ & _ & ?)|(? & _)]]; [done|lia|done].
  - rewrite Ea', Eb, <- (Z.negb_even (2 * b - 1)), Eb in Hc. simpl in Hc.
    destruct Hc as [[_ ?]|[(_ & ? & _)|(_ & _ & ?)]]; [done|done|lia].
Qed.

(** X13. With an odd width or an odd height, solving a generated maze with
    the default arguments finds a path from the top-left to the bottom-right
    corner. *)
Theorem generated_maze_is_solvable (depth fuel : nat) (w h : Z) (r : rng)
    (m : ndarray Z) s' :
  0 < w → 0 < h → Z.odd w = true ∨ Z.odd h = true →
  generate depth w h r = (Ok m, s') → (solve_fuel m ≤ fuel)%nat →
  ∃ p, MazeSolver.a_star_solve fuel (0, 0) None (MazeSolver.__init__ m)
       = (Ok (Some p), MazeSolver.__init__ m) ∧
       head p = Some (0, 0) ∧ last p = Some (h - 1, w - 1).
Proof.
  intros Hw Hh Hodd Hgen Hfuel.
  pose proof (generated_end_reachable depth w h r m s' Hw Hh Hodd Hgen) as Hreach.
  destruct (generated_cells rng seed shuffle shuffle_perm h w depth r m s'
              Hw Hh Hgen) as (Hs & _).
  rewrite a_star_solve_default, Hs. simpl.
  destruct (solve_total fuel m (0, 0) (h - 1, w - 1) Hfuel) as ([p|] & -> & Hans).
  - exists p. split; [done|]. destruct Hans as [Hroute _].
    by destruct (route_shape _ _ _ _ Hroute) as (tail & -> & ? & _).
  - apply rtc_nsteps_1 in Hreach as [k Hk]. by destruct (Hans k).
Qed.

(** X14. With an even width and an even height the forced end corner of a
    generated maze is walled in, and solving it with the default arguments
    returns [None]. *)
Theorem generated_even_maze_has_no_path (depth fuel : nat) (w h : Z) (r : rng)
    (m : ndarray Z) s' :
  0 < w → 0 < h → Z.even w = true → Z.even h = true →
  generate depth w h r = (Ok m, s') → (solve_fuel m ≤ fuel)%nat →
  MazeSolver.a_star_solve fuel (0, 0) None (MazeSolver.__init__ m)
  = (Ok None, MazeSolver.__init__ m).
Proof.
  intros Hw Hh Hew Heh Hgen Hfuel.
  pose proof (generated_end_cut_off depth w h r m s' Hw Hh Hew Heh Hgen) as Hcut.
  destruct (generated_cells rng seed shuffle shuffle_perm h w depth r m s'
              Hw Hh Hgen) as (Hs & _).
  rewrite a_star_solve_default, Hs. simpl.
  destruct (solve_total fuel m (0, 0) (h - 1, w - 1) Hfuel) as ([p|] & -> & Hans);
    [|done].
  destruct Hcut. destruct Hans as [Hroute _].
  by apply route_nsteps, rtc_nsteps_2 in Hroute.
Qed.

End GenerateThenSolve.

Lemma generated_maze_is_solvable_witness :
  ∃ m, (MazeGenerator.generate ToyRandom.seed ToyRandom.shuffle 15 5 3 0%nat).1
       = Ok m ∧
       ∃ p, MazeSolver.a_star_solve 1000 (0, 0) None (MazeSolver.__init__ m)
            = (Ok (Some p), MazeSolver.__init__ m) ∧
            head p = Some (0, 0) ∧ last p = Some (3 - 1, 5 - 1).
Proof.
  eexists. split; [vm_compute; reflexivity|].
  eapply (generated_maze_is_solvable _ ToyRandom.seed ToyRandom.shuffle
            toy_shuffle_perm 15 1000 5 3 0%nat);
    [lia|lia|by left|vm_compute; reflexivity|vm_compute; lia].
Defined.

Lemma generated_even_maze_has_no_path_witness :
  ∃ m, (MazeGenerator.generate ToyRandom.seed ToyRandom.shuffle 30 4 6 0%nat).1
       = Ok m ∧
       MazeSolver.a_star_solve 1000 (0, 0) None (MazeSolver.__init__ m)
       = (Ok None, MazeSolver.__init__ m).
Proof.
  eexists. split; [vm_compute; reflexivity|].
  eapply (generated_even_maze_has_no_path _ ToyRandom.seed ToyRandom.shuffle
            toy_shuffle_perm 30 1000 4 6 0%nat);
    [lia|lia|done|done|vm_compute; reflexivity|vm_compute; lia].
Defined.

(** ** Rendering: [MazeGenerator.visualize_maze] *)

Definition newline : string := String (Ascii.ascii_of_nat 10) EmptyString.

(** The dictionary [emoji_map], with the strings of the source file. *)
Definition emoji_map : gmap Z string :=
  list_to_map [(0, "ðŸ§±"%string); (1, "â¬œ"%string); (2, "ðŸŸ¢"%string);
               (3, "ðŸŸ¥"%string); (4, "ðŸ"%string)].

(** [[f x for x in l]], stopping at the first exception *)
Fixpoint map_outcome {A B} (f : A → outcome B) (l : list A)
  : outcome (list B) :=
  match l with
  | [] => Ok []
  | x :: l' =>
      match f x with
      | Ok y =>
          match map_outcome f l' with
          | Ok ys => Ok (y :: ys)
          | Raise e => Raise e
          | OutOfFuel => OutOfFuel
          end
      | Raise e => Raise e
      | OutOfFuel => OutOfFuel
      end
  end.

(** The rows a loop over a two-dimensional array goes through. *)
Definition nd_rows (a : ndarray Z) : list (list Z) :=
  (λ i, (λ j, cell_value a (i, j)) <$> seqZ 0 (nd_shape a).2)
    <$> seqZ 0 (nd_shape a).1.

(** [" ".join(emoji_map[cell] for cell in row)] *)
Definition render_row (row : list Z) : outcome string :=
  match map_outcome (dict_getitem emoji_map) row with
  | Ok cells => Ok (String.concat " " cells)
  | Raise e => Raise e
  | OutOfFuel => OutOfFuel
  end.

Section Visualize.
Import MazeGenerator.
Variable rng : Type.
Abbreviation world := (world rng).

(** The body of [for x, y in solution]. *)
Definition mark_cell (c : cell) (visual_maze : ndarray Z)
  : M world (ndarray Z) :=
  let '(x, y) := c in
  st ← gets (λ s, start (self s));
  if bool_decide ((x, y) ≠ st) then
    en ← gets (λ s, end_ (self s));
    if bool_decide ((x, y) ≠ en) then lift (nd_setitem visual_maze (x, y) 2)
    else mret visual_maze
  else mret visual_maze.

(** [visualize_maze(self, solution)]; [solution = None] is the default
    argument, and an empty list counts as none.  [visual_maze] is the copy
    the method works on. *)
Definition visualize_maze (solution : option (list cell)) : M world string :=
  visual_maze ← gets (λ s, maze (self s));
  st ← gets (λ s, start (self s));
  visual_maze ← lift (nd_setitem visual_maze (st.1, st.2) 3);
  en ← gets (λ s, end_ (self s));
  visual_maze ← lift (nd_setitem visual_maze (en.1, en.2) 4);
  visual_maze ←
    match solution with
    | Some (c :: sol) => for_fold mark_cell (c :: sol) visual_maze
    | _ => mret visual_maze
    end;
  maze_visual ← lift (map_outcome render_row (nd_rows visual_maze));
  mret (String.concat newline maze_visual).

End Visualize.

Arguments mark_cell {rng} _ _ _.
Arguments visualize_maze {rng} _ _.

(** What a cell of the picture shows: the end marker goes over the start
    marker, both go over the solution, and the solution goes over the
    maze. *)
Definition tag (m : ndarray Z) (st en : cell) (sol : list cell) (c : cell) : Z :=
  if decide (c = en) then 4
  else if decide (c = st) then 3
  else if decide (c ∈ sol) then 2
  else cell_value m c.

Definition emoji (z : Z) : string := default EmptyString (emoji_map !! z).

(** The [h] rows of [w] values each that [f] gives, row by row. *)
Definition tag_rows (h w : Z) (f : cell → Z) : list (list Z) :=
  (λ i, (λ j, f (i, j)) <$> seqZ 0 w) <$> seqZ 0 h.

(** The picture of rows of values: the emojis of a row separated by one
    space, the rows by one line break. *)
Definition picture (rows : list (list Z)) : string :=
  String.concat newline ((λ row, String.concat " " (emoji <$> row)) <$> rows).

Definition render (h w : Z) (f : cell → Z) : string := picture (tag_rows h w f).

Lemma nd_setitem_in_bounds (a : ndarray Z) (c : cell) (v : Z) :
  in_bounds a c →
  nd_setitem a c v
  = Ok (mk_ndarray (nd_shape a) (nd_zero a) (<[c := v]> (nd_items a))).
Proof.
  intros [H1 H2]. unfold nd_setitem. destruct c as [i j].
  by rewrite (nd_index_in_range a (nd_shape a).1 (nd_shape a).2);
    [|by destruct (nd_shape a)|done|done].
Qed.

Lemma cell_value_insert (a : ndarray Z) (k c : cell) (v : Z) :
  cell_value (mk_ndarray (nd_shape a) (nd_zero a) (<[k := v]> (nd_items a))) c
  = if decide (k = c) then v else cell_value a c.
Proof.
  unfold cell_value. simpl. rewrite lookup_insert. by case_decide.
Qed.

Lemma map_outcome_Ok {A B} (f : A → outcome B) (g : A → B) (l : list A) :
  (∀ x, x ∈ l → f x = Ok (g x)) → map_outcome f l = Ok (g <$> l).
Proof.
  induction l as [|x l IH]; intros H; [done|]. simpl.
  rewrite (H x) by (by left). rewrite IH; [done|]. intros y Hy. apply H. by right.
Qed.

Lemma map_outcome_Raise {A B} (f : A → outcome B) (e : exn) (l : list A) :
  (∀ x, x ∈ l → (∃ y, f x = Ok y) ∨ f x = Raise e) →
  (∃ x, x ∈ l ∧ f x = Raise e) → map_outcome f l = Raise e.
Proof.
  induction l as [|x l IH]; intros Hall (x0 & Hin & Hx0);
    [by apply elem_of_nil in Hin|].
  simpl. destruct (Hall x) as [[y Hy]| ->]; [by left| |done].
  rewrite Hy. rewrite IH; [done| |].
  - intros z Hz. apply Hall. by right.
  - apply elem_of_cons in Hin as [->|Hin]; [congruence|eauto].
Qed.

Lemma emoji_map_lookup (z : Z) :
  0 ≤ z ≤ 4 → dict_getitem emoji_map z = Ok (emoji z).
Proof.
  intros Hz. assert (z = 0 ∨ z = 1 ∨ z = 2 ∨ z = 3 ∨ z = 4) as Hc by lia.
  by destruct Hc as [->|[->|[->|[->| ->]]]].
Qed.

Lemma emoji_map_missing (z : Z) :
  ¬ 0 ≤ z ≤ 4 → dict_getitem emoji_map z = Raise KeyError.
Proof.
  intros Hz. unfold dict_getitem, emoji_map. simpl.
  rewrite !lookup_insert. repeat case_decide; try lia. by rewrite lookup_empty.
Qed.

Lemma render_row_Ok (row : list Z) :
  (∀ z, z ∈ row → 0 ≤ z ≤ 4) →
  render_row row = Ok (String.concat " " (emoji <$> row)).
Proof.
  intros H. unfold render_row.
  rewrite (map_outcome_Ok _ emoji); [done|].
  intros z Hz. by apply emoji_map_lookup, H.
Qed.

Lemma render_row_Raise (row : list Z) :
  (∃ z, z ∈ row ∧ ¬ 0 ≤ z ≤ 4) → render_row row = Raise KeyError.
Proof.
  intros (z & Hz & Hbad). unfold render_row.
  rewrite (map_outcome_Raise _ KeyError); [done| |].
  - intros x _. destruct (decide (0 ≤ x ≤ 4)) as [Hx|Hx].
    + left. rewrite emoji_map_lookup by done. eauto.
    + right. by apply emoji_map_missing.
  - exists z. split; [done|]. by apply emoji_map_missing.
Qed.

Lemma render_row_cases (row : list Z) :
  (∃ y, render_row row = Ok y) ∨ render_row row = Raise KeyError.
Proof.
  destruct (decide (Forall (λ z, 0 ≤ z ≤ 4) row)) as [H|H].
  - left. rewrite render_row_Ok; [eauto|]. by apply Forall_forall.
  - right. apply render_row_Raise.
    apply not_Forall_Exists in H; [|apply _].
    apply Exists_exists in H as (z & Hz & Hbad). eauto.
Qed.

Lemma elem_of_tag_rows (h w : Z) (f : cell → Z) (row : list Z) :
  row ∈ tag_rows h w f ↔ ∃ i, 0 ≤ i < h ∧ row = (λ j, f (i, j)) <$> seqZ 0 w.
Proof.
  unfold tag_rows. rewrite list_elem_of_fmap. split.
  - intros (i & -> & Hi). apply elem_of_seqZ in Hi. exists i. split; [lia|done].
  - intros (i & Hi & ->). exists i. split; [done|]. apply elem_of_seqZ. lia.
Qed.

Lemma elem_of_tag_row (w i : Z) (f : cell → Z) (z : Z) :
  z ∈ (λ j, f (i, j)) <$> seqZ 0 w ↔ ∃ j, 0 ≤ j < w ∧ z = f (i, j).
Proof.
  rewrite list_elem_of_fmap. split.
  - intros (j & -> & Hj). apply elem_of_seqZ in Hj. exists j. split; [lia|done].
  - intros (j & Hj & ->). exists j. split; [done|]. apply elem_of_seqZ. lia.
Qed.

(** Every value is a key of [emoji_map]: the rows are all rendered. *)
Lemma render_rows_Ok (h w : Z) (f : cell → Z) :
  (∀ i j, 0 ≤ i < h → 0 ≤ j < w → 0 ≤ f (i, j) ≤ 4) →
  match map_outcome render_row (tag_rows h w f) with
  | Ok lines => Ok (String.concat newline lines)
  | Raise e => Raise e
  | OutOfFuel => OutOfFuel
  end = Ok (render h w f).
Proof.
  intros H.
  rewrite (map_outcome_Ok _ (λ row, String.concat " " (emoji <$> row)));
    [done|].
  intros row (i & Hi & ->)%elem_of_tag_rows. apply render_row_Ok.
  intros z (j & Hj & ->)%elem_of_tag_row. by apply H.
Qed.

(** One value is no key of [emoji_map]: the lookup fails. *)
Lemma render_rows_Raise (h w : Z) (f : cell → Z) :
  (∃ i j, 0 ≤ i < h ∧ 0 ≤ j < w ∧ ¬ 0 ≤ f (i, j) ≤ 4) →
  match map_outcome render_row (tag_rows h w f) with
  | Ok lines => Ok (String.concat newline lines)
  | Raise e => Raise e
  | OutOfFuel => OutOfFuel
  end = Raise KeyError.
Proof.
  intros (i & j & Hi & Hj & Hbad).
  rewrite (map_outcome_Raise _ KeyError); [done| |].
  - intros row _. apply render_row_cases.
  - exists ((λ j, f (i, j)) <$> seqZ 0 w). split.
    + apply elem_of_tag_rows. eauto.
    + apply render_row_Raise. exists (f (i, j)). split; [|done].
      apply elem_of_tag_row. eauto.
Qed.

Lemma fmap_ext_all {A B} (f g : A → B) (l : list A) :
  (∀ x, f x = g x) → f <$> l = g <$> l.
Proof.
  intros H. induction l as [|x l IH]; [done|]. rewrite !fmap_cons.
  by rewrite H, IH.
Qed.

Lemma nd_rows_tag_rows (a : ndarray Z) (f : cell → Z) :
  (∀ c, cell_value a c = f c) →
  nd_rows a = tag_rows (nd_shape a).1 (nd_shape a).2 f.
Proof.
  intros H. unfold nd_rows, tag_rows. apply fmap_ext_all. intros i.
  apply fmap_ext_all. intros j. apply H.
Qed.

Section VisualizeProofs.
Import MazeGenerator.
Variable rng : Type.
Abbreviation world := (world rng).

Lemma mark_cells_run (s : world) (sol : list cell) : ∀ visual : ndarray Z,
  (∀ c, c ∈ sol → in_bounds visual c) →
  ∃ visual', for_fold mark_cell sol visual s = (Ok visual', s) ∧
    nd_shape visual' = nd_shape visual ∧
    ∀ c, cell_value visual' c
         = if decide (c ∈ sol ∧ c ≠ start (self s) ∧ c ≠ end_ (self s))
           then 2 else cell_value visual c.
Proof.
  induction sol as [|[x y] sol IH]; intros visual Hb.
  { exists visual. split; [done|]. split; [done|]. intros c.
    case_decide as H; [|done]. destruct H as [H _]. by apply elem_of_nil in H. }
  cbn [for_fold]. rewrite bind_run. unfold mark_cell at 1.
  rewrite bind_run. simpl.
  assert (in_bounds visual (x, y)) as Hxy by (apply Hb; by left).
  case_bool_decide as Hst.
  - rewrite bind_run. simpl. case_bool_decide as Hen.
    + unfold lift. rewrite nd_setitem_in_bounds by done.
      set (v1 := mk_ndarray _ _ _).
      destruct (IH v1) as (v' & -> & Hs & Hv).
      { intros c Hc. apply (Hb c). by right. }
      exists v'. split; [done|]. split; [done|]. intros c. rewrite Hv.
      unfold v1. rewrite cell_value_insert.
      repeat case_decide; try done; subst; exfalso;
        rewrite ?elem_of_cons in *; intuition congruence.
    + simpl. destruct (IH visual) as (v' & -> & Hs & Hv).
      { intros c Hc. apply (Hb c). by right. }
      exists v'. split; [done|]. split; [done|]. intros c. rewrite Hv.
      repeat case_decide; try done; exfalso;
        rewrite ?elem_of_cons in *; intuition congruence.
  - simpl. destruct (IH visual) as (v' & -> & Hs & Hv).
    { intros c Hc. apply (Hb c). by right. }
    exists v'. split; [done|]. split; [done|]. intros c. rewrite Hv.
    repeat case_decide; try done; exfalso;
      rewrite ?elem_of_cons in *; intuition congruence.
Qed.

(** [visualize_maze] once the marking is done: what is left is the lookup
    of every tag in [emoji_map]. *)
Lemma visualize_run (s : world) (solution : option (list cell)) :
  in_bounds (maze (self s)) (start (self s)) →
  in_bounds (maze (self s)) (end_ (self s)) →
  (∀ c, c ∈ default [] solution → in_bounds (maze (self s)) c) →
  visualize_maze solution s
  = (match map_outcome render_row
             (tag_rows (nd_shape (maze (self s))).1 (nd_shape (maze (self s))).2
                (tag (maze (self s)) (start (self s)) (end_ (self s))
                   (default [] solution))) with
     | Ok lines => Ok (String.concat newline lines)
     | Raise e => Raise e
     | OutOfFuel => OutOfFuel
     end, s).
Proof.
  set (m := maze (self s)). set (sol := default [] solution).
  intros Hst Hen Hsol. unfold visualize_maze.
  rewrite bind_run. simpl. rewrite bind_run. simpl. rewrite bind_run.
  unfold lift at 1. fold m.
  destruct (start (self s)) as [s1 s2] eqn:Es. simpl.
  rewrite nd_setitem_in_bounds by done. set (v1 := mk_ndarray _ _ _).
  rewrite bind_run. simpl. rewrite bind_run. unfold lift at 1.
  destruct (end_ (self s)) as [e1 e2] eqn:Ee. simpl.
  rewrite (nd_setitem_in_bounds v1) by done. set (v2 := mk_ndarray _ _ _).
  rewrite bind_run.
  match goal with
  | |- (let (_, _) := ?t in _) = _ =>
      assert (∃ v3, t = (Ok v3, s) ∧ nd_shape v3 = nd_shape m ∧
                ∀ c, cell_value v3 c = tag m (s1, s2) (e1, e2) sol c)
        as (v3 & E3 & Hs3 & Hv3)
  end.
  { destruct (mark_cells_run s sol v2) as (v3 & E & Hs & Hv); [done|].
    exists v3. split.
    - unfold sol in E. destruct solution as [[|c l]|]; done.
    - split; [done|]. intros c. rewrite Hv, Es, Ee. unfold tag, v2.
      rewrite cell_value_insert. unfold v1. rewrite cell_value_insert.
      repeat case_decide; try done; exfalso; intuition congruence. }
  rewrite E3. rewrite bind_run. unfold lift.
  rewrite (nd_rows_tag_rows v3 _ Hv3), Hs3.
  by destruct (map_outcome render_row _).
Qed.

Lemma tag_in_range (m : ndarray Z) (st en : cell) (sol : list cell) (c : cell) :
  (in_bounds m c → 0 ≤ cell_value m c ≤ 4) → in_bounds m c →
  0 ≤ tag m st en sol c ≤ 4.
Proof. intros H Hc. unfold tag. repeat case_decide; try lia. by apply H. Qed.

(** X15. On a maze whose cells hold values from 0 to 4, with the start, the
    end and the cells of the solution inside the grid, [visualize_maze]
    returns the picture of the grid, one line per row: the end cell shows
    the end marker, the start cell if it is another one the start marker,
    the other cells of the solution the solution marker, and every other
    cell the emoji of its own value.  A missing or empty solution marks
    nothing, and the generator's maze is left as it was. *)
Theorem visualize_maze_picture (s : world) (solution : option (list cell)) :
  in_bounds (maze (self s)) (start (self s)) →
  in_bounds (maze (self s)) (end_ (self s)) →
  (∀ c, c ∈ default [] solution → in_bounds (maze (self s)) c) →
  (∀ c, in_bounds (maze (self s)) c → 0 ≤ cell_value (maze (self s)) c ≤ 4) →
  visualize_maze solution s
  = (Ok (render (nd_shape (maze (self s))).1 (nd_shape (maze (self s))).2
           (tag (maze (self s)) (start (self s)) (end_ (self s))
              (default [] solution))), s).
Proof.
  intros Hst Hen Hsol Hval. rewrite visualize_run by done.
  rewrite render_rows_Ok; [done|].
  intros i j Hi Hj. apply tag_in_range; [apply Hval|done].
Qed.

(** X16. A cell of the grid that is neither the start, the end nor on the
    solution and holds a value other than 0 to 4 makes [visualize_maze]
    raise [KeyError]; the generator's maze is left as it was. *)
Theorem visualize_maze_unknown_value (s : world)
    (solution : option (list cell)) (c : cell) :
  in_bounds (maze (self s)) (start (self s)) →
  in_bounds (maze (self s)) (end_ (self s)) →
  (∀ c', c' ∈ default [] solution → in_bounds (maze (self s)) c') →
  in_bounds (maze (self s)) c →
  c ≠ start (self s) → c ≠ end_ (self s) → c ∉ default [] solution →
  ¬ 0 ≤ cell_value (maze (self s)) c ≤ 4 →
  visualize_maze solution s = (Raise KeyError, s).
Proof.
  intros Hst Hen Hsol Hc H1 H2 H3 Hbad. rewrite visualize_run by done.
  rewrite render_rows_Raise; [done|].
  destruct c as [i j]. exists i, j. split; [apply Hc|]. split; [apply Hc|].
  unfold tag. by repeat case_decide.
Qed.

End VisualizeProofs.

(** A two by three maze with its generator, for the examples. *)
Definition small_world (rows : list (list Z)) : MazeGenerator.world unit :=
  MazeGenerator.mk_world tt
    (MazeGenerator.mk 3 2 (nd_of_rows rows) (mk_ndarray (2, 3) false ∅)
       (0, 0) (1, 2)).

Lemma small_world_cells (rows : list (list Z)) (P : cell → Prop) :
  length rows = 2%nat → length (default [] (head rows)) = 3%nat →
  P (0, 0) → P (0, 1) → P (0, 2) → P (1, 0) → P (1, 1) → P (1, 2) →
  ∀ c, in_bounds (nd_of_rows rows) c → P c.
Proof.
  intros H1 H2 ? ? ? ? ? ? [i j] [Hi Hj]. unfold nd_of_rows in Hi, Hj.
  simpl in Hi, Hj. rewrite H1 in Hi. rewrite H2 in Hj.
  assert (i = 0 ∨ i = 1) as [-> | ->] by lia;
    assert (j = 0 ∨ j = 1 ∨ j = 2) as [-> | [-> | ->]] by lia; done.
Qed.

Lemma visualize_maze_picture_witness :
  visualize_maze (Some [(0, 0); (0, 1); (1, 1); (1, 2)])
    (small_world [[1; 1; 0]; [0; 1; 1]])
  = (Ok (render 2 3
           (tag (nd_of_rows [[1; 1; 0]; [0; 1; 1]]) (0, 0) (1, 2)
              [(0, 0); (0, 1); (1, 1); (1, 2)])),
     small_world [[1; 1; 0]; [0; 1; 1]]).
Proof.
  apply (visualize_maze_picture unit (small_world [[1; 1; 0]; [0; 1; 1]])
           (Some [(0, 0); (0, 1); (1, 1); (1, 2)])).
  - split; simpl; lia.
  - split; simpl; lia.
  - intros c Hc. simpl in Hc.
    repeat (apply elem_of_cons in Hc as [-> | Hc]; [split; simpl; lia|]).
    by apply elem_of_nil in Hc.
  - apply (small_world_cells [[1; 1; 0]; [0; 1; 1]]
             (λ c, 0 ≤ cell_value (nd_of_rows [[1; 1; 0]; [0; 1; 1]]) c ≤ 4));
      [reflexivity|reflexivity|vm_compute; split; discriminate..].
Defined.

Lemma visualize_maze_unknown_value_witness :
  visualize_maze None (small_world [[1; 1; 0]; [0; 7; 1]])
  = (Raise KeyError, small_world [[1; 1; 0]; [0; 7; 1]]).
Proof.
  apply (visualize_maze_unknown_value unit
           (small_world [[1; 1; 0]; [0; 7; 1]]) None (1, 1)).
  - split; simpl; lia.
  - split; simpl; lia.
  - intros c Hc. by apply elem_of_nil in Hc.
  - split; simpl; lia.
  - discriminate.
  - discriminate.
  - apply not_elem_of_nil.
  - vm_compute. intros [_ H]. by apply H.
Defined.

(** ** Generating, solving and showing, as [main] chains them *)

Section GenerateSolveVisualize.

Import MazeGenerator.
Variable rng : Type.
Variable seed : Z → rng.
Variable shuffle : list cell → rng → list cell * rng.
Hypothesis shuffle_perm : ∀ l r, (shuffle l r).1 ≡ₚ l.

Abbreviation generate := (MazeGenerator.generate seed shuffle).

Lemma preserves_generate_maze (depth : nat) :
  preserves (attrs rng) (generate_maze seed shuffle depth).
Proof.
  unfold generate_maze.
  repeat (apply preserves_bind;
          [first [apply preserves_gets | apply preserves_lift
                 | apply preserves_set_maze | apply preserves_set_visited
                 | apply preserves_random_seed | apply preserves_visited_assign
                 | apply preserves_maze_assign | apply preserves_carve]
          |intros ?]).
  apply preserves_gets.
Qed.

(** The grid [generate_maze] returns is the generator's own [maze], and the
    generator keeps the corners it was built with. *)
Lemma generate_final_state (depth : nat) (w h : Z) (r : rng) (m : ndarray Z)
    (s' : option (world rng)) :
  generate depth w h r = (Ok m, s') →
  ∃ s, s' = Some s ∧ maze (self s) = m ∧
       start (self s) = (0, 0) ∧ end_ (self s) = (h - 1, w - 1).
Proof.
  unfold generate, MazeGenerator.generate. intros Hgen.
  destruct (__init__ w h) as [g| |] eqn:Eg; [|done..].
  destruct (generate_maze seed shuffle depth (mk_world r g)) as [o s] eqn:E.
  injection Hgen as -> <-. exists s. split; [done|].
  pose proof (preserves_run (attrs rng) _ _ _ _
                (preserves_generate_maze depth) E) as Ha.
  apply attrs_inv in Ha as (_ & _ & Hst & Hen). simpl in Hst, Hen.
  assert (start g = (0, 0) ∧ end_ g = (h - 1, w - 1)) as [Hg1 Hg2].
  { unfold __init__ in Eg.
    destruct (np_zeros (h, w) 0); [|done..].
    destruct (np_zeros (h, w) false); [|done..].
    by injection Eg as <-. }
  split; [|by rewrite Hst, Hen].
  unfold generate_maze in E.
  repeat (apply bind_Ok_inv in E as (? & ? & _ & E)).
  by injection E as <- <-.
Qed.

(** X17. The chain of [main]: a maze generated with positive dimensions is
    solved without error, and both calls of [visualize_maze] on the
    generator, the one without a solution and the one with the solver's
    answer, return a picture of [height] lines of [width] emojis: the end
    marker on the bottom-right corner, the start marker on the top-left one
    (a one by one maze shows the end marker only), the solution marker on
    the other cells of the answer, wall or path emojis elsewhere. *)
Theorem generated_maze_visualizes (depth fuel : nat) (w h : Z) (r : rng)
    (m : ndarray Z) (s' : option (world rng)) :
  0 < w → 0 < h →
  generate depth w h r = (Ok m, s') → (solve_fuel m ≤ fuel)%nat →
  ∃ s solution,
    s' = Some s ∧
    MazeSolver.a_star_solve fuel (0, 0) None (MazeSolver.__init__ m)
    = (Ok solution, MazeSolver.__init__ m) ∧
    visualize_maze None s
    = (Ok (render h w (tag m (0, 0) (h - 1, w - 1) [])), s) ∧
    visualize_maze solution s
    = (Ok (render h w (tag m (0, 0) (h - 1, w - 1) (default [] solution))), s).
Proof.
  intros Hw Hh Hgen Hfuel.
  destruct (generate_final_state depth w h r m s' Hgen)
    as (s & -> & Hm & Hst & Hen).
  destruct (generated_cells rng seed shuffle shuffle_perm h w depth r m
              (Some s) Hw Hh Hgen) as (Hs & Hval & _).
  rewrite a_star_solve_default, Hs. simpl.
  destruct (solve_total fuel m (0, 0) (h - 1, w - 1) Hfuel)
    as (solution & -> & Hans).
  exists s, solution. split; [done|]. split; [done|].
  assert (in_bounds m (0, 0)) as H0 by (unfold in_bounds; rewrite Hs; simpl; lia).
  assert (in_bounds m (h - 1, w - 1)) as H1
    by (unfold in_bounds; rewrite Hs; simpl; lia).
  assert (∀ c, in_bounds m c → 0 ≤ cell_value m c ≤ 4) as Hrange.
  { intros c _. destruct (Hval c) as [-> | ->]; unfold Wall, Path; lia. }
  assert (∀ c, c ∈ default [] solution → in_bounds m c) as Hsol.
  { destruct solution as [p|]; simpl; [|by intros c ?%elem_of_nil].
    destruct Hans as [Hroute _].
    destruct (route_shape _ _ _ _ Hroute) as (tail & -> & _ & Hopen).
    intros c [-> | Hc]%elem_of_cons; [done|].
    rewrite Forall_forall in Hopen. by apply open_cell_in_bounds, Hopen. }
  assert (∀ sol, (∀ c, c ∈ default [] sol → in_bounds m c) →
            visualize_maze sol s
            = (Ok (render h w (tag m (0, 0) (h - 1, w - 1) (default [] sol))), s))
    as Hviz.
  { intros sol Hin. rewrite (visualize_run rng s sol);
      rewrite ?Hm, ?Hst, ?Hen, ?Hs; try done.
    simpl. rewrite render_rows_Ok; [done|].
    intros i j Hi Hj. apply tag_in_range; [apply Hrange|].
    unfold in_bounds. by rewrite Hs. }
  split; apply Hviz; [|done]. by intros c ?%elem_of_nil.
Qed.

End GenerateSolveVisualize.

Lemma generated_maze_visualizes_witness :
  ∃ m s', MazeGenerator.generate ToyRandom.seed ToyRandom.shuffle 15 5 3 0%nat
          = (Ok m, s') ∧
    ∃ s solution,
      s' = Some s ∧
      MazeSolver.a_star_solve 1000 (0, 0) None (MazeSolver.__init__ m)
      = (Ok solution, MazeSolver.__init__ m) ∧
      visualize_maze None s
      = (Ok (render 3 5 (tag m (0, 0) (3 - 1, 5 - 1) [])), s) ∧
      visualize_maze solution s
      = (Ok (render 3 5 (tag m (0, 0) (3 - 1, 5 - 1) (default [] solution))), s).
Proof.
  eexists. eexists. split; [vm_compute; reflexivity|].
  eapply (generated_maze_visualizes _ ToyRandom.seed ToyRandom.shuffle
            toy_shuffle_perm 15 1000 5 3 0%nat);
    [lia|lia|vm_compute; reflexivity|vm_compute; lia].
Defined.

(** ** The generator: the passages form a tree *)

Lemma adjacent_sym (u v : cell) : adjacent u v → adjacent v u.
Proof. unfold adjacent. lia. Qed.

(** Walks in a grid without cycles. *)

Section Walks.

Variable m : ndarray Z.
Variable rank : cell → nat.

(** No open cell has two open neighbors that do not rank above it. *)
Definition one_parent : Prop :=
  ∀ c d1 d2,
    open_cell m c = true → open_cell m d1 = true → open_cell m d2 = true →
    adjacent c d1 → adjacent c d2 →
    (rank d1 ≤ rank c)%nat → (rank d2 ≤ rank c)%nat → d1 = d2.

Hypothesis parent : one_parent.

(** A walk through open cells that visits no cell twice. *)
Record walk (l : list cell) : Prop := mk_walk {
  walk_nodup : NoDup l;
  walk_open : ∀ i c, l !! i = Some c → open_cell m c = true;
  walk_linked : ∀ i a b, l !! i = Some a → l !! S i = Some b → adjacent a b
}.

Lemma walk_app_l (l1 l2 : list cell) : walk (l1 ++ l2) → walk l1.
Proof.
  intros [Hnd Hop Hlk]. constructor.
  - by apply NoDup_app in Hnd as (? & _).
  - intros i c Hi. apply (Hop i). by apply lookup_app_l_Some.
  - intros i a b Ha Hb. apply (Hlk i); by apply lookup_app_l_Some.
Qed.

Lemma walk_tail (a : cell) (l : list cell) : walk (a :: l) → walk l.
Proof.
  intros [Hnd Hop Hlk]. constructor.
  - by apply NoDup_cons in Hnd as [_ ?].
  - intros i c Hi. by apply (Hop (S i)).
  - intros i x y Hx Hy. by apply (Hlk (S i)).
Qed.

Lemma no_peak (l : list cell) (i : nat) (a b c : cell) :
  walk l → l !! i = Some a → l !! S i = Some b → l !! S (S i) = Some c →
  (rank a ≤ rank b)%nat → (rank c ≤ rank b)%nat → False.
Proof.
  intros [Hnd Hop Hlk] Ha Hb Hc H1 H2.
  assert (a = c) as <-.
  { apply (parent b); eauto. apply adjacent_sym. eauto. }
  pose proof (NoDup_lookup _ _ _ _ Hnd Ha Hc). lia.
Qed.

(** Once a walk has gone up, it goes up at every later move. *)
Lemma climb (l : list cell) (i : nat) (a b : cell) :
  walk l → l !! i = Some a → l !! S i = Some b → (rank a ≤ rank b)%nat →
  ∀ k x y, l !! (S i + k)%nat = Some x → l !! S (S i + k) = Some y →
           (rank x < rank y)%nat.
Proof.
  intros Hw Ha Hb Hab. induction k as [|k IH]; intros x y Hx Hy.
  - rewrite Nat.add_0_r in Hx, Hy. assert (x = b) as -> by congruence.
    destruct (decide (rank b < rank y)%nat); [done|].
    destruct (no_peak l i a b y); auto. lia.
  - replace (S i + S k)%nat with (S (S i + k)) in Hx, Hy by lia.
    destruct (lookup_lt_is_Some_2 l (S i + k)) as [z Hz];
      [apply lookup_lt_Some in Hx; lia|].
    pose proof (IH z x Hz Hx).
    destruct (decide (rank x < rank y)%nat); [done|].
    destruct (no_peak l (S i + k) z x y); auto; lia.
Qed.

Lemma climb_le (l : list cell) (i j : nat) (a b x y : cell) :
  walk l → l !! i = Some a → l !! S i = Some b → (rank a ≤ rank b)%nat →
  (i ≤ j)%nat → l !! j = Some x → l !! S j = Some y → (rank x ≤ rank y)%nat.
Proof.
  intros Hw Ha Hb Hab Hij Hx Hy.
  destruct (decide (i = j)) as [-> | Hne].
  - assert (x = a) as -> by congruence. assert (y = b) as -> by congruence. done.
  - pose proof (climb l i a b Hw Ha Hb Hab (j - S i) x y) as H.
    replace (S i + (j - S i))%nat with j in H by lia.
    specialize (H Hx Hy). lia.
Qed.

Lemma climb_rank (l : list cell) (i : nat) (a b : cell) :
  walk l → l !! i = Some a → l !! S i = Some b → (rank a ≤ rank b)%nat →
  ∀ k x, l !! (S i + k)%nat = Some x → (rank b ≤ rank x)%nat.
Proof.
  intros Hw Ha Hb Hab. induction k as [|k IH]; intros x Hx.
  - rewrite Nat.add_0_r in Hx. assert (x = b) as -> by congruence. done.
  - replace (S i + S k)%nat with (S (S i + k)) in Hx by lia.
    destruct (lookup_lt_is_Some_2 l (S i + k)) as [z Hz];
      [apply lookup_lt_Some in Hx; lia|].
    pose proof (IH z Hz).
    pose proof (climb_le l i (S i + k) a b z x Hw Ha Hb Hab ltac:(lia) Hz Hx).
    lia.
Qed.

(** Along moves that all go down the ranks are in order. *)
Lemma ranks_down (l : list cell) (u : cell) (n : nat) :
  (∀ i a b, (i ≤ n)%nat → l !! i = Some a → l !! S i = Some b →
            (rank b < rank a)%nat) →
  l !! 0%nat = Some u →
  ∀ j x, (j ≤ S n)%nat → l !! j = Some x → (rank x ≤ rank u)%nat.
Proof.
  intros Hdown Hu. induction j as [|j IH]; intros x Hj Hx.
  - assert (x = u) as -> by congruence. done.
  - destruct (lookup_lt_is_Some_2 l j) as [z Hz];
      [apply lookup_lt_Some in Hx; lia|].
    pose proof (IH z ltac:(lia) Hz).
    pose proof (Hdown j z x ltac:(lia) Hz Hx). lia.
Qed.

(** Of two walks between the same cells, if one starts upwards, both
    arrive from below. *)
Lemma arrive_from_below (p q : list cell) (u a v x y : cell) (np nq : nat) :
  walk p → walk q →
  p !! 0%nat = Some u → p !! 1%nat = Some a → (rank u < rank a)%nat →
  p !! np = Some x → p !! S np = Some v →
  q !! 0%nat = Some u → q !! nq = Some y → q !! S nq = Some v →
  (rank x ≤ rank v)%nat ∧ (rank y ≤ rank v)%nat.
Proof.
  intros Hp Hq Hu Ha Hua Hx Hv Hqu Hy Hqv.
  assert (rank x ≤ rank v)%nat as Hxv.
  { apply (climb_le p 0 np u a x v); auto; lia. }
  split; [done|].
  assert (rank a ≤ rank v)%nat as Hav.
  { apply (climb_rank p 0 u a Hp Hu Ha ltac:(lia) np). exact Hv. }
  destruct (decide (rank y ≤ rank v)%nat) as [|Hyv]; [done|]. exfalso.
  assert (rank v ≤ rank u)%nat; [|lia].
  apply (ranks_down q u nq) with (j := S nq); [|done|done|done].
  intros i c d Hi Hc Hd.
  destruct (decide (rank d < rank c)%nat) as [|Hcd]; [done|]. exfalso.
  apply Hyv. apply (climb_le q i nq c d y v); auto. lia.
Qed.

Lemma snoc2 (l : list cell) :
  (2 ≤ length l)%nat → ∃ l' x v, l = l' ++ [x; v].
Proof.
  intros Hl. destruct l as [|a l _] using rev_ind; [simpl in Hl; lia|].
  destruct l as [|b l _] using rev_ind.
  { simpl in Hl. lia. }
  exists l, b, a. by rewrite <- app_assoc.
Qed.

Lemma snoc2_assoc (l : list cell) (x v : cell) :
  l ++ [x; v] = (l ++ [x]) ++ [v].
Proof. by rewrite <- app_assoc. Qed.

Lemma lookup_snoc2 (l : list cell) (x v : cell) :
  (l ++ [x; v]) !! length l = Some x ∧ (l ++ [x; v]) !! S (length l) = Some v.
Proof.
  split.
  - rewrite lookup_app_r by lia. by rewrite Nat.sub_diag.
  - rewrite lookup_app_r by lia.
    by replace (S (length l) - length l)%nat with 1%nat by lia.
Qed.

Lemma walk_no_return (u : cell) (l : list cell) :
  walk (u :: l) → last (u :: l) = Some u → l = [].
Proof.
  intros [Hnd _ _] Hl. destruct l as [|b l]; [done|]. exfalso.
  rewrite last_lookup in Hl. simpl in Hl.
  pose proof (NoDup_lookup _ 0 (S (length l)) u Hnd eq_refl Hl). lia.
Qed.

(** Two walks between the same two cells are the same walk. *)
Lemma unique_walk (n : nat) : ∀ (p q : list cell) (u v : cell),
  (length p + length q ≤ n)%nat → walk p → walk q →
  head p = Some u → head q = Some u → last p = Some v → last q = Some v →
  p = q.
Proof.
  induction n as [n IH] using lt_wf_ind.
  intros p q u v Hn Hp Hq Hpu Hqu Hpv Hqv.
  destruct p as [|u0 p]; [done|]. destruct q as [|u1 q]; [done|].
  injection Hpu as ->. injection Hqu as ->.
  destruct p as [|a p].
  { injection Hpv as <-. by rewrite (walk_no_return u q Hq Hqv). }
  destruct q as [|b q].
  { injection Hqv as <-. by rewrite (walk_no_return u _ Hp Hpv). }
  assert (open_cell m u = true ∧ open_cell m a = true ∧ open_cell m b = true)
    as (Hou & Hoa & Hob).
  { split_and!; [apply (walk_open _ Hp 0)|apply (walk_open _ Hp 1)
                 |apply (walk_open _ Hq 1)]; done. }
  assert (adjacent u a ∧ adjacent u b) as [Hua Hub].
  { split; [apply (walk_linked _ Hp 0)|apply (walk_linked _ Hq 0)]; done. }
  destruct (decide ((rank a ≤ rank u)%nat ∧ (rank b ≤ rank u)%nat))
    as [[Ha Hb] | Hup].
  - (* both walks leave [u] downwards: by the same move *)
    assert (a = b) as <- by (by apply (parent u)).
    f_equal. apply (IH (length (a :: p) + length (a :: q))%nat) with a v;
      [simpl in *; lia|done|by eapply walk_tail|by eapply walk_tail
      |done|done|done|done].
  - (* one of them leaves upwards: both arrive by the same move *)
    destruct (snoc2 (u :: a :: p)) as (p' & x & v1 & Ep); [simpl; lia|].
    destruct (snoc2 (u :: b :: q)) as (q' & y & v2 & Eq); [simpl; lia|].
    rewrite Ep in Hp, Hpv, Hn. rewrite Eq in Hq, Hqv, Hn. rewrite Ep, Eq.
    assert (head (p' ++ [x]) = Some u ∧ head (q' ++ [y]) = Some u) as [Hhp Hhq].
    { split; [destruct p'; by injection Ep as <-
              |destruct q'; by injection Eq as <-]. }
    rewrite snoc2_assoc, last_snoc in Hpv. injection Hpv as ->.
    rewrite snoc2_assoc, last_snoc in Hqv. injection Hqv as ->.
    destruct (lookup_snoc2 p' x v) as [Hx Hv].
    destruct (lookup_snoc2 q' y v) as [Hy Hv'].
    assert ((rank x ≤ rank v)%nat ∧ (rank y ≤ rank v)%nat) as [Hxv Hyv].
    { destruct (decide (rank u < rank a)%nat) as [Hlt | Hge].
      - apply (arrive_from_below (p' ++ [x; v]) (q' ++ [y; v]) u a v x y
                 (length p') (length q')); try done; by rewrite <- ?Ep, <- ?Eq.
      - assert (rank u < rank b)%nat as Hlt by lia.
        destruct (arrive_from_below (q' ++ [y; v]) (p' ++ [x; v]) u b v y x
                    (length q') (length p')); try done;
          by rewrite <- ?Ep, <- ?Eq. }
    assert (x = y) as <-.
    { apply (parent v).
      - by apply (walk_open _ Hp _ _ Hv).
      - by apply (walk_open _ Hp _ _ Hx).
      - by apply (walk_open _ Hq _ _ Hy).
      - apply adjacent_sym. by apply (walk_linked _ Hp _ _ _ Hx Hv).
      - apply adjacent_sym. by apply (walk_linked _ Hq _ _ _ Hy Hv').
      - done.
      - done. }
    assert (p' ++ [x] = q' ++ [x]) as E.
    { apply (IH (length (p' ++ [x]) + length (q' ++ [x]))%nat) with u x.
      - rewrite !length_app in *. simpl in *. lia.
      - done.
      - apply (walk_app_l _ [v]). by rewrite <- snoc2_assoc.
      - apply (walk_app_l _ [v]). by rewrite <- snoc2_assoc.
      - done.
      - done.
      - apply last_snoc.
      - apply last_snoc. }
    by rewrite !snoc2_assoc, E.
Qed.

End Walks.

Lemma route_walk (m : ndarray Z) (u v : cell) (p : list cell) :
  open_cell m u = true → route m u v p → NoDup p →
  walk m p ∧ head p = Some u ∧ last p = Some v.
Proof.
  intros Hu Hr Hnd.
  destruct (route_shape _ _ _ _ Hr) as (tail & -> & Hl & Ht).
  split; [|done]. constructor; [done| |by apply (route_adjacent _ _ _ _ Hr)].
  intros [|i] c Hc; [by injection Hc as <-|].
  rewrite Forall_lookup in Ht. by apply (Ht i).
Qed.

(** In a grid without cycles, two walks through open cells between the same
    two cells, neither visiting a cell twice, are the same walk. *)
Lemma unique_route (m : ndarray Z) (rank : cell → nat) (u v : cell)
    (p q : list cell) :
  one_parent m rank → open_cell m u = true →
  route m u v p → route m u v q → NoDup p → NoDup q → p = q.
Proof.
  intros Hpar Hu Hp Hq Hndp Hndq.
  destruct (route_walk m u v p Hu Hp Hndp) as (Hwp & Hhp & Hlp).
  destruct (route_walk m u v q Hu Hq Hndq) as (Hwq & Hhq & Hlq).
  by apply (unique_walk m rank Hpar (length p + length q) p q u v).
Qed.

Lemma reach_sym (m : ndarray Z) (u v : cell) :
  open_cell m u = true → rtc (step m) u v → rtc (step m) v u.
Proof.
  intros Hu. induction 1 as [|x y z [Hxy Hy] _ IH]; [done|].
  eapply rtc_r; [by apply IH|]. split; [by apply adjacent_sym|done].
Qed.

(** Parity facts of the carving pattern. *)
Ltac parity :=
  repeat match goal with
         | H : Z.even _ = true |- _ => apply Z.even_spec in H as [? H]
         | H : Z.odd _ = true |- _ => apply Z.odd_spec in H as [? H]
         | H : Z.even _ = false |- _ =>
             rewrite <- Z.negb_odd in H; apply negb_false_iff in H
         | H : Z.odd _ = false |- _ =>
             rewrite <- Z.negb_even in H; apply negb_false_iff in H
         end.

Lemma lattice_not_adjacent (u v : cell) :
  Z.even u.1 = true → Z.even u.2 = true →
  Z.even v.1 = true → Z.even v.2 = true → ¬ adjacent u v.
Proof. unfold adjacent. intros. parity. lia. Qed.

Lemma odd_odd_not_carved (h w : Z) (c : cell) :
  Z.odd c.1 = true → Z.odd c.2 = true → ¬ carved h w c.
Proof. unfold carved. intros H1 H2 [[? ?]|[(? & ? & ?)|(? & ? & ?)]]; parity; lia. Qed.

(** Around the cell between [(cy, cx)] and the cell two steps away. *)
Lemma direction_cases (cx cy dx dy : Z) :
  (dx, dy) ∈ directions → Z.even cx = true → Z.even cy = true →
  adjacent (cy, cx) (cy + dy `div` 2, cx + dx `div` 2) ∧
  adjacent (cy + dy `div` 2, cx + dx `div` 2) (cy + dy, cx + dx) ∧
  Z.even (cy + dy) = true ∧ Z.even (cx + dx) = true ∧
  ¬ (Z.even (cy + dy `div` 2) = true ∧ Z.even (cx + dx `div` 2) = true) ∧
  ∀ d, adjacent (cy + dy `div` 2, cx + dx `div` 2) d →
       d = (cy, cx) ∨ d = (cy + dy, cx + dx) ∨
       (Z.odd d.1 = true ∧ Z.odd d.2 = true).
Proof.
  intros Hd Hex Hey.
  pose proof (even_neighbors cx Hex) as (Hx1 & Hx2 & Hx3 & Hx4).
  pose proof (even_neighbors cy Hey) as (Hy1 & Hy2 & Hy3 & Hy4).
  unfold directions in Hd. rewrite !elem_of_cons, elem_of_nil in Hd.
  destruct Hd as [[= -> ->]|[[= -> ->]|[[= -> ->]|[[= -> ->]|[]]]]];
    change (2 `div` 2) with 1; change (0 `div` 2) with 0;
    change ((-2) `div` 2) with (-1); rewrite ?Z.add_0_r.
  - split_and!; [unfold adjacent; simpl; lia..|done|done| |].
    + intros [H _]. rewrite <- Z.negb_odd, Hy1 in H. done.
    + intros [d1 d2] Ha. unfold adjacent in Ha. simpl in Ha.
      assert ((d1 = cy ∧ d2 = cx) ∨ (d1 = cy + 2 ∧ d2 = cx) ∨
              (d1 = cy + 1 ∧ (d2 = cx + 1 ∨ d2 = cx - 1))) as Hc by lia.
      destruct Hc as [[-> ->]|[[-> ->]|[-> [-> | ->]]]]; auto.
  - split_and!; [unfold adjacent; simpl; lia..|done|done| |].
    + intros [_ H]. rewrite <- Z.negb_odd, Hx1 in H. done.
    + intros [d1 d2] Ha. unfold adjacent in Ha. simpl in Ha.
      assert ((d1 = cy ∧ d2 = cx) ∨ (d1 = cy ∧ d2 = cx + 2) ∨
              (d2 = cx + 1 ∧ (d1 = cy + 1 ∨ d1 = cy - 1))) as Hc by lia.
      destruct Hc as [[-> ->]|[[-> ->]|[-> [-> | ->]]]]; auto.
  - split_and!; [unfold adjacent; simpl; lia..| | | |].
    + by replace (cy + -2) with (cy - 2) by lia.
    + done.
    + intros [H _]. replace (cy + -1) with (cy - 1) in H by lia.
      rewrite <- Z.negb_odd, Hy2 in H. done.
    + intros [d1 d2] Ha. unfold adjacent in Ha. simpl in Ha.
      assert ((d1 = cy ∧ d2 = cx) ∨ (d1 = cy + -2 ∧ d2 = cx) ∨
              (d1 = cy - 1 ∧ (d2 = cx + 1 ∨ d2 = cx - 1))) as Hc by lia.
      destruct Hc as [[-> ->]|[[-> ->]|[-> [-> | ->]]]]; auto.
  - split_and!; [unfold adjacent; simpl; lia..| | | |].
    + done.
    + by replace (cx + -2) with (cx - 2) by lia.
    + intros [_ H]. replace (cx + -1) with (cx - 1) in H by lia.
      rewrite <- Z.negb_odd, Hx2 in H. done.
    + intros [d1 d2] Ha. unfold adjacent in Ha. simpl in Ha.
      assert ((d1 = cy ∧ d2 = cx) ∨ (d1 = cy ∧ d2 = cx + -2) ∨
              (d2 = cx - 1 ∧ (d1 = cy + 1 ∨ d1 = cy - 1))) as Hc by lia.
      destruct Hc as [[-> ->]|[[-> ->]|[-> [-> | ->]]]]; auto.
Qed.

Section GeneratorForest.
Import MazeGenerator.

Variable rng : Type.
Variable seed : Z → rng.
Variable shuffle : list cell → rng → list cell * rng.
Hypothesis shuffle_perm : ∀ l r, (shuffle l r).1 ≡ₚ l.
Variables h w : Z.

(** The cells the carving has opened so far; the start corner counts from
    the beginning, though its own item is only written at the end. *)
Definition opened (s : world rng) (c : cell) : Prop :=
  c = (0, 0) ∨ maze_items rng s !! c = Some 1.

(** What the order of carving gives: [rank] numbers the opened cells as
    they are written, below [bound]; a cell is carved from one cell written
    before it, and a passage is written together with the two cells of the
    lattice it joins. *)
Record forest_inv (s : world rng) (rank : cell → nat) (bound : nat) : Prop :=
  mk_forest_inv {
  fi_origin : seen_items rng s !! (0, 0) = Some true;
  fi_bound : ∀ c, opened s c → (rank c < bound)%nat;
  fi_parent : ∀ c d1 d2, opened s c → opened s d1 → opened s d2 →
    adjacent c d1 → adjacent c d2 →
    (rank d1 ≤ rank c)%nat → (rank d2 ≤ rank c)%nat → d1 = d2;
  fi_ends : ∀ c u, maze_items rng s !! c = Some 1 →
    Z.even u.1 = true → Z.even u.2 = true → u = c ∨ adjacent u c →
    seen_items rng s !! u = Some true
}.

Lemma opened_carved (s : world rng) (c : cell) :
  0 < w → 0 < h → carve_inv rng h w s → opened s c →
  (0 ≤ c.1 < h ∧ 0 ≤ c.2 < w) ∧ carved h w c.
Proof.
  intros Hw Hh Hinv [-> | Hc].
  - split; [simpl; lia|]. by left.
  - by destruct (ci_items rng h w s Hinv c 1 Hc) as (_ & ? & ? & _).
Qed.

Lemma forest_inv_random (r r' : rng) (g : t) rank bound :
  forest_inv (mk_world r g) rank bound → forest_inv (mk_world r' g) rank bound.
Proof. intros [? ? ? ?]. by constructor. Qed.

(** Carving from the visited cell [(cy, cx)] to a cell not yet visited
    hangs two new cells below [(cy, cx)]. *)
Lemma forest_step (s0 s3 : world rng) (cx cy dx dy : Z) rank bound :
  0 < w → 0 < h →
  carve_inv rng h w s0 → forest_inv s0 rank bound →
  seen_items rng s0 !! (cy, cx) = Some true →
  (dx, dy) ∈ directions →
  seen_items rng s0 !! (cy + dy, cx + dx) ≠ Some true →
  visited (self s3)
  = mk_ndarray (nd_shape (visited (self s0))) (nd_zero (visited (self s0)))
      (<[(cy + dy, cx + dx) := true]> (seen_items rng s0)) →
  maze (self s3)
  = mk_ndarray (nd_shape (maze (self s0))) (nd_zero (maze (self s0)))
      (<[(cy + dy, cx + dx) := 1]>
         (<[(cy + dy `div` 2, cx + dx `div` 2) := 1]> (maze_items rng s0))) →
  ∃ rank' bound', forest_inv s3 rank' bound'.
Proof.
  intros Hw Hh Hinv Hf Hcur Hd Hfresh Hv3 Hm3.
  destruct (ci_seen rng h w s0 Hinv _ _ Hcur) as (_ & _ & Hey & Hex & _).
  simpl in Hey, Hex.
  destruct (direction_cases cx cy dx dy Hd Hex Hey)
    as (Hadj1 & Hadj2 & Hen1 & Hen2 & Hmidodd & Hmidnb).
  set (n := (cy + dy, cx + dx)) in *.
  set (mid := (cy + dy `div` 2, cx + dx `div` 2)) in *.
  assert (∀ u, seen_items rng s0 !! u = Some true →
               seen_items rng s3 !! u = Some true) as Hseen.
  { intros u Hu. unfold seen_items at 1. rewrite Hv3. simpl.
    rewrite lookup_insert. by case_decide. }
  assert (seen_items rng s3 !! n = Some true) as Hseen_n.
  { unfold seen_items. rewrite Hv3. simpl. by rewrite lookup_insert_eq. }
  assert (¬ opened s0 n) as Hn_new.
  { intros [Hn | Hn].
    - rewrite Hn in Hfresh. by destruct Hfresh, (fi_origin _ _ _ Hf).
    - apply Hfresh, (fi_ends _ _ _ Hf n n); auto. }
  assert (¬ opened s0 mid) as Hmid_new.
  { intros [Hm | Hm].
    - apply Hmidodd. unfold mid in Hm. injection Hm as -> ->. done.
    - apply Hfresh, (fi_ends _ _ _ Hf mid n); auto.
      right. by apply adjacent_sym. }
  assert (mid ≠ n) as Hne by (by apply adjacent_ne).
  assert (∀ c, opened s3 c → c = n ∨ c = mid ∨ opened s0 c) as Hop3.
  { intros c [-> | Hc]; [right; right; by left|].
    unfold maze_items in Hc. rewrite Hm3 in Hc. simpl in Hc.
    rewrite lookup_insert in Hc. case_decide; [by left; subst|].
    rewrite lookup_insert in Hc. case_decide; [by right; left; subst|].
    right. right. by right. }
  assert (∀ c v, maze_items rng s3 !! c = Some v →
                 c = n ∨ c = mid ∨ maze_items rng s0 !! c = Some v) as Hit3.
  { intros c v Hc. unfold maze_items in Hc. rewrite Hm3 in Hc. simpl in Hc.
    rewrite lookup_insert in Hc. case_decide; [by left; subst|].
    rewrite lookup_insert in Hc. case_decide; [by right; left; subst|].
    by right; right. }
  set (rank' := λ c : cell, if decide (c = n) then S bound
                            else if decide (c = mid) then bound else rank c).
  assert (rank' n = S bound) as Hrn by (unfold rank'; by rewrite decide_True).
  assert (rank' mid = bound) as Hrm.
  { unfold rank'. rewrite decide_False by done. by rewrite decide_True. }
  assert (∀ c, opened s0 c → rank' c = rank c) as Hold.
  { intros c Hc. unfold rank'.
    rewrite decide_False by (intros ->; done).
    by rewrite decide_False by (intros ->; done). }
  assert (opened s0 (0, 0)) as H00 by (by left).
  assert (∀ d, opened s0 d → ¬ adjacent n d) as Hn_nb.
  { intros d [-> | Hitem] Ha.
    - by apply (lattice_not_adjacent n (0, 0)).
    - apply Hfresh, (fi_ends _ _ _ Hf d n); auto. }
  assert (∀ d, opened s0 d → adjacent mid d → d = (cy, cx)) as Hmid_nb.
  { intros d Hod Ha. destruct (Hmidnb d Ha) as [-> | [-> | [Ho1 Ho2]]];
      [done|done|].
    destruct (opened_carved s0 d Hw Hh Hinv Hod) as [_ Hcv].
    by destruct (odd_odd_not_carved h w d). }
  assert (∀ c d, opened s3 c → opened s3 d → adjacent c d →
                 (rank' d ≤ rank' c)%nat →
                 (c = n ∧ d = mid) ∨ (c = mid ∧ d = (cy, cx)) ∨
                 (opened s0 c ∧ opened s0 d)) as Hlow.
  { intros c d Hc Hd' Ha Hr.
    destruct (Hop3 c Hc) as [-> | [-> | Hc0]].
    - destruct (Hop3 d Hd') as [-> | [-> | Hd0]].
      + by destruct (adjacent_ne _ _ Ha).
      + by left.
      + by destruct (Hn_nb d Hd0).
    - destruct (Hop3 d Hd') as [-> | [-> | Hd0]].
      + rewrite Hrn, Hrm in Hr. lia.
      + by destruct (adjacent_ne _ _ Ha).
      + right. left. split; [done|]. by apply Hmid_nb.
    - pose proof (fi_bound _ _ _ Hf c Hc0). rewrite (Hold c Hc0) in Hr.
      destruct (Hop3 d Hd') as [-> | [-> | Hd0]].
      + rewrite Hrn in Hr. lia.
      + rewrite Hrm in Hr. lia.
      + right. right. done. }
  exists rank', (S (S bound)). constructor.
  - apply Hseen, (fi_origin _ _ _ Hf).
  - intros c Hc. destruct (Hop3 c Hc) as [-> | [-> | Hc']].
    + rewrite Hrn. lia.
    + rewrite Hrm. lia.
    + rewrite (Hold c Hc'). pose proof (fi_bound _ _ _ Hf c Hc'). lia.
  - intros c d1 d2 Hc Hd1 Hd2 Ha1 Ha2 Hr1 Hr2.
    destruct (Hlow c d1 Hc Hd1 Ha1 Hr1) as [[-> ->] | [[-> ->] | [Hc1 Hd1']]];
      destruct (Hlow _ d2 Hc Hd2 Ha2 Hr2) as [[E ->] | [[E ->] | [Hc2 Hd2']]];
      try done; try (by destruct Hne); try (by destruct Hn_new);
      try (by destruct Hmid_new);
      try (by destruct Hn_new; rewrite <- E);
      try (by destruct Hmid_new; rewrite <- E).
    rewrite (Hold c Hc1), (Hold d1 Hd1') in Hr1.
    rewrite (Hold c Hc1), (Hold d2 Hd2') in Hr2.
    by apply (fi_parent _ _ _ Hf c).
  - intros c u Hc Hu1 Hu2 Hor.
    destruct (Hit3 c 1 Hc) as [-> | [-> | Hc0]].
    + destruct Hor as [-> | Ha]; [done|].
      by destruct (lattice_not_adjacent u n).
    + destruct Hor as [-> | Ha]; [by destruct Hmidodd|].
      destruct (Hmidnb u (adjacent_sym _ _ Ha)) as [-> | [-> | [Ho1 _]]].
      * by apply Hseen.
      * done.
      * rewrite <- Z.negb_even, Hu1 in Ho1. done.
    + by apply Hseen, (fi_ends _ _ _ Hf c u).
Qed.

(** The invariant goes through a whole call of [_carve_passages_from]. *)
Lemma carve_forest (depth : nat) : ∀ cx cy (s s' : world rng),
  0 < w → 0 < h →
  _carve_passages_from shuffle depth cx cy s = (Ok tt, s') →
  carve_inv rng h w s → seen_items rng s !! (cy, cx) = Some true →
  (∃ rank bound, forest_inv s rank bound) →
  ∃ rank bound, forest_inv s' rank bound.
Proof.
  induction depth as [|depth IH]; intros cx cy s s' Hw Hh E Hinv Hcur Hf;
    [done|].
  simpl in E. apply bind_Ok_inv in E as (dirs & s0 & Esh & E).
  assert (∃ r, s0 = mk_world r (self s) ∧ dirs ≡ₚ directions)
    as (r & -> & Hperm).
  { unfold random_shuffle in Esh.
    pose proof (shuffle_perm [(0, 2); (2, 0); (0, -2); (-2, 0)] (random s)) as Hp.
    destruct (shuffle _ (random s)) as [l' r']. injection Esh as <- <-. eauto. }
  destruct s as [r0 g]. simpl in *.
  apply (carve_inv_random rng h w r0 r) in Hinv.
  change (seen_items rng (mk_world r0 g)) with (seen_items rng (mk_world r g))
    in Hcur.
  assert (∃ rank bound, forest_inv (mk_world r g) rank bound) as Hf'.
  { destruct Hf as (rank & bound & Hf). exists rank, bound.
    by apply (forest_inv_random r0 r). }
  assert (∀ d, d ∈ dirs → d ∈ directions) as Hsub
    by (intros d Hd; by rewrite <- Hperm).
  clear Hperm Esh Hf. revert Hsub E Hinv Hcur Hf'.
  generalize (mk_world r g). clear r0 r g.
  induction dirs as [|[dx dy] l IHl]; intros s0 Hsub E Hinv Hcur Hf.
  { by injection E as <-. }
  cbn [for_each] in E. apply bind_Ok_inv in E as ([] & sa & Ea & E).
  rewrite bind_run, (may_carve_exact rng h w _ _ _ Hinv) in Ea.
  assert ((dx, dy) ∈ directions) as Hd by (apply Hsub; by left).
  assert (∀ d, d ∈ l → d ∈ directions) as Hsub'
    by (intros d ?; apply Hsub; by right).
  case_bool_decide as Hb; simpl in Ea.
  2:{ injection Ea as <-. by apply (IHl s0). }
  case_bool_decide as Hseen; simpl in Ea.
  { injection Ea as <-. by apply (IHl s0). }
  apply bind_Ok_inv in Ea as ([] & s1 & E1 & Ea).
  apply bind_Ok_inv in Ea as ([] & s2 & E2 & Ea).
  apply bind_Ok_inv in Ea as ([] & s3 & E3 & Ea).
  apply visited_assign_Ok_inv in E1 as (k1 & Hk1 & Ha1 & Hm1 & Hv1).
  apply maze_assign_Ok_inv in E2 as (k2 & Hk2 & _ & Ha2 & Hv2 & Hm2).
  apply maze_assign_Ok_inv in E3 as (k3 & Hk3 & _ & Ha3 & Hv3 & Hm3).
  apply attrs_inv in Ha1 as (Hw1 & Hh1 & _).
  apply attrs_inv in Ha2 as (Hw2 & Hh2 & _).
  apply attrs_inv in Ha3 as (Hw3 & Hh3 & _).
  destruct (ci_seen rng h w s0 Hinv _ _ Hcur) as (_ & [Hcy Hcx] & _).
  simpl in Hcy, Hcx.
  rewrite (nd_index_in_range _ h w) in Hk1;
    [|apply (ci_seen_shape rng h w s0 Hinv)|lia|lia].
  injection Hk1 as <-.
  rewrite Hm1, (nd_index_in_range _ h w) in Hk2;
    [|apply (ci_maze_shape rng h w s0 Hinv)|apply midpoint_in_range; lia..].
  injection Hk2 as <-.
  rewrite Hm2, Hm1 in Hk3. simpl in Hk3.
  rewrite (nd_index_in_range _ h w) in Hk3;
    [|apply (ci_maze_shape rng h w s0 Hinv)|lia|lia].
  injection Hk3 as <-.
  assert (visited (self s3)
          = mk_ndarray (nd_shape (visited (self s0)))
              (nd_zero (visited (self s0)))
              (<[(cy + dy, cx + dx) := true]> (seen_items rng s0))) as Hvis
    by (by rewrite Hv3, Hv2, Hv1).
  assert (maze (self s3)
          = mk_ndarray (nd_shape (maze (self s0))) (nd_zero (maze (self s0)))
              (<[(cy + dy, cx + dx) := 1]>
                 (<[(cy + dy `div` 2, cx + dx `div` 2) := 1]>
                    (maze_items rng s0)))) as Hmaze
    by (by rewrite Hm3, Hm2, Hm1).
  destruct (carve_step rng h w s0 s3 cx cy dx dy Hinv Hcur Hd)
    as (Hinv3 & Hg3 & Hn3 & _); [lia|lia|congruence|congruence|done|done|].
  destruct Hf as (rank & bound & Hf).
  pose proof (forest_step s0 s3 cx cy dx dy rank bound Hw Hh Hinv Hf Hcur Hd
                Hseen Hvis Hmaze) as Hf3.
  destruct (carve_structure rng shuffle shuffle_perm h w depth _ _ _ _ Ea
              Hinv3 Hn3) as (Hinva & Hga & _).
  pose proof (IH _ _ _ _ Hw Hh Ea Hinv3 Hn3 Hf3) as Hfa.
  apply (IHl sa); [done|done|done| |done].
  by apply Hga, Hg3.
Qed.

(** [generate_maze] step by step: the state the carving starts from, the
    state it ends in, and the grid returned. *)
Lemma generate_carving (depth : nat) (r : rng) (m : ndarray Z)
    (s' : option (world rng)) :
  0 < w → 0 < h →
  MazeGenerator.generate seed shuffle depth w h r = (Ok m, s') →
  ∃ s4 s5 : world rng,
    carve_inv rng h w s4 ∧ maze_items rng s4 = ∅ ∧
    seen_items rng s4 = <[(0, 0) := true]> ∅ ∧
    _carve_passages_from shuffle depth 0 0 s4 = (Ok tt, s5) ∧
    m = mk_ndarray (h, w) 0
          (<[(h - 1, w - 1) := 1]> (<[(0, 0) := 1]> (maze_items rng s5))).
Proof.
  intros Hw Hh. unfold generate, __init__, np_zeros. simpl.
  destruct (h <? 0) eqn:E1; [lia|]. destruct (w <? 0) eqn:E2; [lia|]. simpl.
  destruct (generate_maze seed shuffle depth _) as [o s1] eqn:E.
  intros [= -> _].
  unfold MazeGenerator.generate_maze in E.
  apply bind_Ok_inv in E as (h0 & s & [= <- <-] & E).
  apply bind_Ok_inv in E as (w0 & s & [= <- <-] & E). simpl in E.
  apply bind_Ok_inv in E as (m0 & s & E0 & E).
  unfold lift, np_zeros in E0. simpl in E0. rewrite E1, E2 in E0.
  injection E0 as <- <-.
  apply bind_Ok_inv in E as ([] & s & [= <-] & E).
  apply bind_Ok_inv in E as (v0 & s & E0 & E).
  unfold lift, np_zeros in E0. simpl in E0. rewrite E1, E2 in E0.
  injection E0 as <- <-.
  apply bind_Ok_inv in E as ([] & s & [= <-] & E).
  apply bind_Ok_inv in E as ([] & s & [= <-] & E). simpl in E.
  apply bind_Ok_inv in E as ([] & s4 & E4 & E).
  apply visited_assign_Ok_inv in E4 as (k & Hk & Ha4 & Hm4 & Hv4). simpl in *.
  rewrite (nd_index_in_range _ h w) in Hk by (done || lia). injection Hk as <-.
  apply attrs_inv in Ha4 as (Hw4 & Hh4 & Hst4 & Hen4). simpl in *.
  assert (carve_inv rng h w s4) as Hinv4.
  { constructor; unfold maze_items, seen_items; rewrite ?Hm4, ?Hv4; try done.
    simpl. intros c b. rewrite lookup_insert. case_decide as Hc;
      [|by rewrite lookup_empty].
    subst c. intros [= <-]. split; [done|]. split; [simpl; lia|].
    split; [done|]. split; [done|]. by left. }
  apply bind_Ok_inv in E as ([] & s5 & E5 & E).
  exists s4, s5. split; [done|].
  split; [unfold maze_items; by rewrite Hm4|].
  split; [unfold seen_items; by rewrite Hv4|]. split; [done|].
  assert (seen_items rng s4 !! (0, 0) = Some true) as H04.
  { unfold seen_items. rewrite Hv4. simpl. by rewrite lookup_insert_eq. }
  destruct (carve_structure rng shuffle shuffle_perm h w depth 0 0 s4 s5 E5
              Hinv4 H04) as (Hinv5 & _).
  apply (preserves_run (attrs rng) _ _ _ _ (preserves_carve _ _ _ _ _)) in E5.
  apply attrs_inv in E5 as (Hw5 & Hh5 & Hst5 & Hen5).
  apply bind_Ok_inv in E as (st & s & [= <- <-] & E).
  apply bind_Ok_inv in E as ([] & s6 & E6 & E).
  apply maze_assign_Ok_inv in E6 as (k1 & Hk1 & _ & Ha6 & _ & Hm6).
  apply attrs_inv in Ha6 as (_ & _ & _ & Hen6).
  rewrite Hst5, Hst4 in Hk1. simpl in Hk1.
  rewrite (nd_index_in_range _ h w) in Hk1;
    [|apply (ci_maze_shape rng h w s5 Hinv5)|lia|lia].
  injection Hk1 as <-.
  apply bind_Ok_inv in E as (en & s & [= <- <-] & E).
  apply bind_Ok_inv in E as ([] & s7 & E7 & E).
  apply maze_assign_Ok_inv in E7 as (k2 & Hk2 & _ & _ & _ & Hm7).
  rewrite Hen6, Hen5, Hen4, Hm6 in Hk2. simpl in Hk2.
  rewrite (nd_index_in_range _ h w) in Hk2;
    [|apply (ci_maze_shape rng h w s5 Hinv5)|lia|lia].
  injection Hk2 as <-.
  injection E as <-. rewrite Hm7, Hm6. simpl.
  by rewrite (ci_maze_shape rng h w s5 Hinv5), (ci_maze_zero rng h w s5 Hinv5).
Qed.

(** The forced end corner, when the carving has not reached it, has at most
    one neighbor the carving can have opened. *)
Lemma end_neighbor_unique (d1 d2 : cell) :
  ¬ (Z.even (h - 1) = true ∧ Z.even (w - 1) = true) →
  adjacent (h - 1, w - 1) d1 → adjacent (h - 1, w - 1) d2 →
  0 ≤ d1.1 < h ∧ 0 ≤ d1.2 < w → 0 ≤ d2.1 < h ∧ 0 ≤ d2.2 < w →
  carved h w d1 → carved h w d2 → d1 = d2.
Proof.
  intros Hpar Ha1 Ha2 Hb1 Hb2 Hc1 Hc2. destruct d1 as [a1 b1], d2 as [a2 b2].
  unfold adjacent, carved in *. simpl in *.
  assert (a1 = a2 ∧ b1 = b2) as [-> ->]; [|done].
  destruct (Z.even (h - 1)) eqn:Eh, (Z.even (w - 1)) eqn:Ew;
    [by destruct Hpar|..];
    destruct Hc1 as [[? ?]|[(? & ? & ?)|(? & ? & ?)]];
    destruct Hc2 as [[? ?]|[(? & ? & ?)|(? & ? & ?)]]; parity; lia.
Qed.

(** The passages of a generated grid hold no cycle. *)
Lemma generated_forest (depth : nat) (r : rng) (m : ndarray Z)
    (s' : option (world rng)) :
  0 < w → 0 < h →
  MazeGenerator.generate seed shuffle depth w h r = (Ok m, s') →
  ∃ rank, one_parent m rank.
Proof.
  intros Hw Hh Hgen.
  destruct (generate_carving depth r m s' Hw Hh Hgen)
    as (s4 & s5 & Hinv4 & Hm4 & Hv4 & E5 & ->).
  assert (seen_items rng s4 !! (0, 0) = Some true) as H04
    by (rewrite Hv4; apply lookup_insert_eq).
  destruct (carve_structure rng shuffle shuffle_perm h w depth 0 0 s4 s5 E5
              Hinv4 H04) as (Hinv5 & _).
  assert (forest_inv s4 (λ _, 0%nat) 1) as Hf4.
  { assert (∀ c, opened s4 c → c = (0, 0)) as Hop.
    { intros c [-> | Hc]; [done|]. by rewrite Hm4, lookup_empty in Hc. }
    constructor; try done.
    - intros; lia.
    - intros c d1 d2 _ H1 H2 _ _ _ _. by rewrite (Hop d1 H1), (Hop d2 H2).
    - intros c u Hc. by rewrite Hm4, lookup_empty in Hc. }
  destruct (carve_forest depth 0 0 s4 s5 Hw Hh E5 Hinv4 H04)
    as (rank & bound & Hf5); [eauto|].
  set (en := (h - 1, w - 1)).
  set (g := mk_ndarray (h, w) 0 _).
  assert (∀ c, open_cell g c = true → c = en ∨ opened s5 c) as Hopen.
  { intros c Hc. unfold open_cell, cell_value in Hc. simpl in Hc.
    rewrite lookup_insert in Hc. case_decide; [by left|].
    rewrite lookup_insert in Hc. case_decide; [right; by left|].
    right. right. destruct (maze_items rng s5 !! c) as [v|] eqn:Hv.
    - by destruct (ci_items rng h w s5 Hinv5 c v Hv) as (-> & _).
    - simpl in Hc. unfold Wall in Hc. lia. }
  destruct (decide (en = (0, 0) ∨ maze_items rng s5 !! en = Some 1))
    as [Hen | Hen].
  - (* the carving has reached the end corner *)
    assert (∀ c, open_cell g c = true → opened s5 c) as Hop
      by (intros c Hc; by destruct (Hopen c Hc) as [-> | ?]).
    exists rank. intros c d1 d2 Hc H1 H2. apply (fi_parent _ _ _ Hf5); auto.
  - (* the end corner is a cell of its own *)
    set (rank' := λ c : cell, if decide (c = en) then bound else rank c).
    assert (rank' en = bound) as Hren by (unfold rank'; by rewrite decide_True).
    assert (∀ c, opened s5 c → rank' c = rank c) as Hold.
    { intros c Hc. unfold rank'. by rewrite decide_False by (intros ->; done). }
    assert (∀ d, opened s5 d → adjacent en d →
                 ¬ (Z.even (h - 1) = true ∧ Z.even (w - 1) = true)) as Hlat.
    { intros d Hd Ha [He1 He2]. destruct Hd as [-> | Hd].
      - by apply (lattice_not_adjacent en (0, 0)).
      - assert (seen_items rng s5 !! en = Some true) as Hs
          by (apply (fi_ends _ _ _ Hf5 d en); auto).
        by destruct (ci_seen rng h w s5 Hinv5 _ _ Hs) as (_ & _ & _ & _ & ?). }
    exists rank'. intros c d1 d2 Hc H1 H2 Ha1 Ha2 Hr1 Hr2.
    destruct (Hopen c Hc) as [-> | Hc'].
    + destruct (Hopen d1 H1) as [-> | H1'];
        [by destruct (adjacent_ne _ _ Ha1)|].
      destruct (Hopen d2 H2) as [-> | H2'];
        [by destruct (adjacent_ne _ _ Ha2)|].
      destruct (opened_carved s5 d1 Hw Hh Hinv5 H1') as [? ?].
      destruct (opened_carved s5 d2 Hw Hh Hinv5 H2') as [? ?].
      apply end_neighbor_unique; try done. by apply (Hlat d1).
    + pose proof (fi_bound _ _ _ Hf5 c Hc') as Hbc.
      rewrite (Hold c Hc') in Hr1, Hr2.
      destruct (Hopen d1 H1) as [-> | H1']; [rewrite Hren in Hr1; lia|].
      destruct (Hopen d2 H2) as [-> | H2']; [rewrite Hren in Hr2; lia|].
      rewrite (Hold d1 H1') in Hr1. rewrite (Hold d2 H2') in Hr2.
      by apply (fi_parent _ _ _ Hf5 c).
Qed.

(** X18. A generated maze is a perfect maze: any two [Path] cells other
    than the forced end corner are joined by exactly one walk through
    [Path] cells that visits no cell twice. *)
Theorem generate_unique_path (depth : nat) (r : rng) (m : ndarray Z)
    (s' : option (world rng)) (u c : cell) :
  0 < w → 0 < h →
  MazeGenerator.generate seed shuffle depth w h r = (Ok m, s') →
  0 ≤ u.1 < h → 0 ≤ u.2 < w → u ≠ (h - 1, w - 1) →
  nd_getitem m u = Ok Path →
  0 ≤ c.1 < h → 0 ≤ c.2 < w → c ≠ (h - 1, w - 1) →
  nd_getitem m c = Ok Path →
  ∃ p, route m u c p ∧ NoDup p ∧
       ∀ q, route m u c q → NoDup q → q = p.
Proof.
  intros Hw Hh Hgen Hu1 Hu2 Hune Hu Hc1 Hc2 Hcne Hc.
  destruct (generated_forest depth r m s' Hw Hh Hgen) as (rank & Hpar).
  destruct (generated_cells rng seed shuffle shuffle_perm h w depth r m s'
              Hw Hh Hgen) as (Hs & _ & Ho & Hlat & _).
  assert (∀ x, 0 ≤ x.1 < h → 0 ≤ x.2 < w → x ≠ (h - 1, w - 1) →
               nd_getitem m x = Ok Path →
               open_cell m x = true ∧ rtc (step m) (0, 0) x) as Hreach.
  { intros x Hx1 Hx2 Hxne Hx.
    rewrite nd_getitem_in_bounds in Hx by (unfold in_bounds; by rewrite Hs).
    injection Hx as Hx.
    assert (open_cell m x = true) as Hox
      by (unfold open_cell; rewrite Hs, Hx; simpl; unfold Wall, Path; lia).
    split; [done|]. by destruct (Ho x Hox) as [[_ ?]|?]. }
  destruct (Hreach u Hu1 Hu2 Hune Hu) as [Hou Hru].
  destruct (Hreach c Hc1 Hc2 Hcne Hc) as [Hoc Hrc].
  assert (open_cell m (0, 0) = true) as H00.
  { destruct (Hlat (0, 0)) as [H0 _]; [simpl; lia|simpl; lia|done|done|].
    unfold open_cell. rewrite Hs, H0. simpl. unfold Wall, Path. lia. }
  assert (rtc (step m) u c) as Huc
    by (etrans; [by apply reach_sym|done]).
  destruct (solve_total (solve_fuel m) m u c) as ([p|] & _ & Hans); [done| |].
  - destruct Hans as [Hroute Hmin]. exists p. split; [done|].
    assert (NoDup p) as Hnd by (by eapply shortest_route_NoDup).
    split; [done|]. intros q Hq Hndq.
    by apply (unique_route m rank u c).
  - apply rtc_nsteps_1 in Huc as [k Hk]. by destruct (Hans k).
Qed.

(** X19. The solution of a generated maze is unique: from a [Path] cell,
    the path [a_star_solve] returns is the only walk to the end through
    [Path] cells that visits no cell twice, with the default end (the
    bottom-right corner) as with a given one. *)
Theorem generated_maze_solution_unique (depth fuel : nat) (r : rng)
    (m : ndarray Z) (s' : option (world rng)) (start : cell)
    (end_ : option cell) (p q : list cell) :
  0 < w → 0 < h →
  MazeGenerator.generate seed shuffle depth w h r = (Ok m, s') →
  0 ≤ start.1 < h → 0 ≤ start.2 < w → nd_getitem m start = Ok Path →
  (MazeSolver.a_star_solve fuel start end_ (MazeSolver.__init__ m)).1
  = Ok (Some p) →
  route m start (default (h - 1, w - 1) end_) q → NoDup q → q = p.
Proof.
  intros Hw Hh Hgen H1 H2 Hst Hsolve Hq Hndq.
  destruct (generated_forest depth r m s' Hw Hh Hgen) as (rank & Hpar).
  destruct (generated_cells rng seed shuffle shuffle_perm h w depth r m s'
              Hw Hh Hgen) as (Hs & _).
  rewrite nd_getitem_in_bounds in Hst by (unfold in_bounds; by rewrite Hs).
  injection Hst as Hst.
  assert (open_cell m start = true) as Hopen
    by (unfold open_cell; rewrite Hs, Hst; simpl; unfold Wall, Path; lia).
  assert ((MazeSolver.solve fuel m start (default (h - 1, w - 1) end_)).1
          = Ok (Some p)) as Hsolve'.
  { destruct end_ as [e|]; [done|]. simpl.
    change (MazeSolver.a_star_solve fuel start None (MazeSolver.__init__ m))
      with (MazeSolver.solve fuel m start
              ((nd_shape m).1 - 1, (nd_shape m).2 - 1)) in Hsolve.
    by rewrite Hs in Hsolve. }
  apply solve_partial in Hsolve' as [Hroute Hmin].
  apply (unique_route m rank start (default (h - 1, w - 1) end_));
    try done. by eapply shortest_route_NoDup.
Qed.

End GeneratorForest.

Lemma generate_unique_path_witness :
  ∃ m, (MazeGenerator.generate ToyRandom.seed ToyRandom.shuffle 15 5 3 0%nat).1
       = Ok m ∧
       ∃ p, route m (0, 2) (2, 0) p ∧ NoDup p ∧
            ∀ q, route m (0, 2) (2, 0) q → NoDup q → q = p.
Proof.
  eexists. split; [vm_compute; reflexivity|].
  eapply (generate_unique_path _ ToyRandom.seed ToyRandom.shuffle
            toy_shuffle_perm 3 5 15 0%nat);
    [lia|lia|vm_compute; reflexivity|simpl; lia|simpl; lia|discriminate
    |vm_compute; reflexivity|simpl; lia|simpl; lia|discriminate
    |vm_compute; reflexivity].
Defined.

Lemma generated_maze_solution_unique_witness :
  ∃ m p,
    (MazeGenerator.generate ToyRandom.seed ToyRandom.shuffle 15 5 3 0%nat).1
    = Ok m ∧
    (MazeSolver.a_star_solve 1000 (0, 0) None (MazeSolver.__init__ m)).1
    = Ok (Some p) ∧
    route m (0, 0) (3 - 1, 5 - 1)
      [(0, 0); (1, 0); (2, 0); (2, 1); (2, 2); (2, 3); (2, 4)] ∧
    [(0, 0); (1, 0); (2, 0); (2, 1); (2, 2); (2, 3); (2, 4)] = p.
Proof.
  eexists. eexists. split; [vm_compute; reflexivity|].
  split; [vm_compute; reflexivity|].
  lazymatch goal with
  | |- route ?m ?u ?v ?l ∧ _ =>
      pose proof (solve_partial 1000 m u v (Some l)
                    ltac:(vm_compute; reflexivity)) as [R Hmin]
  end.
  split; [exact R|].
  eapply (generated_maze_solution_unique _ ToyRandom.seed ToyRandom.shuffle
            toy_shuffle_perm 3 5 15 1000 0%nat _ _ (0, 0) None);
    [lia|lia|vm_compute; reflexivity|simpl; lia|simpl; lia
    |vm_compute; reflexivity|vm_compute; reflexivity|exact R|].
  by eapply shortest_route_NoDup.
Defined.
